(** * HAWQ to QONNX export ([examples/export.py]): a shallow embedding

    The script walks a trained model, swaps every quantized layer for an
    export-friendly module, registers symbolic hooks for the custom
    operators and hands a deep copy of the model to the ONNX exporter.

    Python objects live in a heap indexed by locations, so that aliasing,
    in-place [setattr] and [copy.deepcopy] are modelled as they happen.
    Exceptions keep the state reached when they were raised.  Recursion
    that Python bounds by its call stack takes a fuel argument; running
    out of fuel is the outcome [Diverge]. *)

From stdpp Require Import gmap strings list fin_maps sorting.

From Stdlib Require Import ZArith Ascii.

#[local] Set Warnings "-clear-no-such-hyp".

Open Scope string_scope.

Open Scope list_scope.

(** ** Python values and objects *)

Definition loc := nat.

(** The classes the script tells apart.  The quantized layers of
    [utils.quantization_utils.quant_modules] all derive directly from
    [torch.nn.Module], so [isinstance] is a comparison of class tags. *)
Inductive pyclass :=
| QuantAct | QuantLinear | QuantConv2d
| QuantBnConv2d | QuantMaxPool2d | QuantAveragePool2d
| Sequential | Linear | NNParameter
| ExportQuantAct | ExportQuantLinear | ExportQuantConv2d
| OtherModule (name : string)
| OtherObject (name : string).

#[global] Instance pyclass_eq_dec : EqDecision pyclass.
Proof. solve_decision. Defined.

(** A tensor: its shape and its elements in row-major order.  Nothing in
    the script computes on elements; they are carried as integers. *)
Record tensor := Tensor { shape : list Z; elems : list Z }.

#[global] Instance tensor_eq_dec : EqDecision tensor.
Proof. solve_decision. Defined.

Inductive value :=
| VNone
| VBool (b : bool)
| VInt (z : Z)
| VStr (s : string)
| VTensor (t : tensor)
| VRef (l : loc)          (* a heap object: module, parameter, ... *)
| VNode (n : nat).        (* output of the n-th node of a traced graph *)

#[global] Instance value_eq_dec : EqDecision value.
Proof. solve_decision. Defined.

Record object := Object { cls : pyclass; fields : gmap string value }.

Definition is_module (c : pyclass) : bool :=
  match c with
  | NNParameter | OtherObject _ => false
  | _ => true
  end.

Definition class_name (c : pyclass) : string :=
  match c with
  | QuantAct => "QuantAct" | QuantLinear => "QuantLinear"
  | QuantConv2d => "QuantConv2d" | QuantBnConv2d => "QuantBnConv2d"
  | QuantMaxPool2d => "QuantMaxPool2d"
  | QuantAveragePool2d => "QuantAveragePool2d"
  | Sequential => "Sequential" | Linear => "Linear"
  | NNParameter => "Parameter"
  | ExportQuantAct => "ExportQuantAct"
  | ExportQuantLinear => "ExportQuantLinear"
  | ExportQuantConv2d => "ExportQuantConv2d"
  | OtherModule n => n | OtherObject n => n
  end.

(** ** Module-level constants of export.py *)

Definition SUPPORTED_LAYERS : list pyclass := [QuantAct; QuantLinear; QuantConv2d].

Definition UNSUPPORTED_LAYERS : list pyclass :=
  [QuantBnConv2d; QuantMaxPool2d; QuantAveragePool2d].

Definition SUPPORTED_QONNX : list string := ["Quant"; "BipolarQuant"].

Definition UNSUPPORTED_QONNX : list string := ["Trunc"].

Definition DOMAIN_STRING : string := "hawq_onnx".

(** ** Traced graphs and the symbolic registry *)

Inductive attr := AttrS (s : string) | AttrI (z : Z).

#[global] Instance attr_eq_dec : EqDecision attr.
Proof. solve_decision. Defined.

(** A graph node as [g.op] builds it: the qualified operator name, the
    positional inputs, the keyword attributes (the suffix [_s] or [_i] of
    the keyword selects the attribute kind and is dropped from its name)
    and the output type once [setType] was called. *)
Record node := Node {
  op_type : string;
  inputs : list value;
  attrs : list (string * attr);
  out_type : option string
}.

Definition graph := list node.

(** The symbolic functions that can be registered. *)
Inductive symbolic := QuantFunc_sym | BinaryQuantFunc_sym | TruncFunc_sym.

#[global] Instance symbolic_eq_dec : EqDecision symbolic.
Proof. solve_decision. Defined.

(** ** The world: heap, registry, graph under construction, export log *)

Record world := World {
  heap : gmap loc object;
  registry : gmap (string * Z) symbolic;
  tracing : option graph;
  exported : list (value * value * string)
}.

Definition set_heap (f : gmap loc object → gmap loc object) (w : world) : world :=
  World (f (heap w)) (registry w) (tracing w) (exported w).

Inductive exn :=
| RuntimeError (msg : string)
| AttributeError (name : string)
| IndexError
| TypeError
| ValueError
| ReferenceError.

Inductive outcome (A : Type) :=
| Ret (a : A) (w : world)
| Raise (e : exn) (w : world)
| Diverge.

Arguments Ret {A} a w.

Arguments Raise {A} e w.

Arguments Diverge {A}.

Definition M (A : Type) : Type := world → outcome A.

Definition ret {A} (a : A) : M A := λ w, Ret a w.

Definition raise {A} (e : exn) : M A := λ w, Raise e w.

Definition diverge {A} : M A := λ _, Diverge.

Definition bind {A B} (c : M A) (k : A → M B) : M B :=
  λ w, match c w with
       | Ret a w' => k a w'
       | Raise e w' => Raise e w'
       | Diverge => Diverge
       end.

Declare Scope py_scope.

Delimit Scope py_scope with py.

Notation "'let*' x ':=' c 'in' k" := (bind c (λ x, k))
  (at level 10, x pattern, c at level 100, k at level 200) : py_scope.

Notation "c >> k" := (bind c (λ _, k))
  (at level 100, k at level 200, only parsing) : py_scope.

Open Scope py_scope.

(** [for x in xs: body x] *)
Fixpoint for_each {A} (xs : list A) (body : A → M unit) : M unit :=
  match xs with
  | [] => ret tt
  | x :: xs' => body x >> for_each xs' body
  end.

Definition get_heap : M (gmap loc object) := λ w, Ret (heap w) w.

(** ** Host operations on objects *)

Definition lookup_obj (h : gmap loc object) (v : value) : option object :=
  match v with VRef l => h !! l | _ => None end.

Definition class_of (h : gmap loc object) (v : value) : option pyclass :=
  cls <$> lookup_obj h v.

Definition isinstance_in (h : gmap loc object) (v : value) (c : pyclass) : bool :=
  bool_decide (class_of h v = Some c).

Definition isinstance_any_in (h : gmap loc object) (v : value) (cs : list pyclass) : bool :=
  existsb (isinstance_in h v) cs.

Definition isinstance (v : value) (c : pyclass) : M bool :=
  let* h := get_heap in ret (isinstance_in h v c).

Definition isinstance_any (v : value) (cs : list pyclass) : M bool :=
  let* h := get_heap in ret (isinstance_any_in h v cs).

Definition getattr_in (h : gmap loc object) (v : value) (name : string) : option value :=
  o ← lookup_obj h v; fields o !! name.

Definition getattr (v : value) (name : string) : M value :=
  let* h := get_heap in
  match getattr_in h v name with
  | Some x => ret x
  | None => raise (AttributeError name)
  end.

Definition hasattr (v : value) (name : string) : M bool :=
  let* h := get_heap in ret (bool_decide (is_Some (getattr_in h v name))).

Definition set_field (name : string) (x : value) (o : object) : object :=
  Object (cls o) (<[name := x]> (fields o)).

Definition setattr (v : value) (name : string) (x : value) : M unit :=
  let* h := get_heap in
  match v, lookup_obj h v with
  | VRef l, Some o => λ w, Ret tt (set_heap (<[l := set_field name x o]>) w)
  | _, _ => raise (AttributeError name)
  end.

(** Allocation of a fully initialised object at an unused location. *)
Definition alloc (o : object) : M value :=
  λ w, let l := fresh (dom (heap w)) in Ret (VRef l) (set_heap (<[l := o]>) w).

(** [self.__class__.__name__], as [Module._get_name] returns it. *)
Definition _get_name (v : value) : M string :=
  let* h := get_heap in
  match class_of h v with
  | Some c => ret (class_name c)
  | None => raise (AttributeError "_get_name")
  end.

Definition is_digit (c : ascii) : bool :=
  let n := nat_of_ascii c in (48 <=? n)%nat && (n <=? 57)%nat.

Definition starts_with_digit (s : string) : bool :=
  match s with
  | String c _ => is_digit c
  | EmptyString => false
  end.

(** [dir(module)]: [Module.__dir__] gathers the attribute, parameter,
    submodule and buffer names, drops those starting with a digit and
    sorts the rest. *)
Definition dir_obj (o : object) : list string :=
  merge_sort String.leb
    (filter (λ s, starts_with_digit s = false) (elements (dom (fields o)))).

Definition dir_in (h : gmap loc object) (v : value) : list string :=
  match lookup_obj h v with Some o => dir_obj o | None => [] end.

Definition dir (v : value) : M (list string) :=
  let* h := get_heap in ret (dir_in h v).

(** Python truthiness of a value used as a condition. *)
Definition truthy (v : value) : M bool :=
  match v with
  | VNone => ret false
  | VBool b => ret b
  | VInt z => ret (negb (z =? 0)%Z)
  | VStr s => ret (negb (String.eqb s ""))
  | VTensor t =>
      match elems t with
      | [z] => ret (negb (z =? 0)%Z)
      | [] => raise (RuntimeError "Boolean value of Tensor with no values is ambiguous")
      | _ => raise (RuntimeError "Boolean value of Tensor with more than one value is ambiguous")
      end
  | VRef _ | VNode _ => ret true
  end.

(** [int(v)] on what the script passes: a boolean, an integer or a
    tensor.  Strings are not parsed. *)
Definition py_int (v : value) : M Z :=
  match v with
  | VBool b => ret (Z.b2z b)
  | VInt z => ret z
  | VTensor (Tensor _ [z]) => ret z
  | VTensor _ | VStr _ => raise ValueError
  | _ => raise TypeError
  end.

(** ** The autograd functions *)

(** [ctx] is not used by any forward pass. *)
Definition QuantFunc_forward (ctx x scale zero_point bit_width
                              signed narrow_range rounding_mode : value) : value := x.

Definition BinaryQuantFunc_forward (ctx x scale : value) : value := x.

Definition TruncFunc_forward (ctx x scale zero_point input_bit_width
                              output_bit_width rounding_mode : value) : value := x.

(** [g.op(name, *inputs, **attrs)] appends one node and returns its output. *)
Definition g_op (g : graph) (name : string) (ins : list value)
    (kw : list (string * attr)) : graph * value :=
  (g ++ [Node name ins kw None], VNode (length g)).

(** [ret.setType(ty)] *)
Definition setType (g : graph) (v : value) (ty : string) : graph :=
  match v with
  | VNode n => alter (λ nd, Node (op_type nd) (inputs nd) (attrs nd) (Some ty)) n g
  | _ => g
  end.

(** A keyword attribute [_s] takes a string. *)
Definition attr_s (v : value) : M attr :=
  match v with
  | VStr s => ret (AttrS s)
  | _ => raise TypeError
  end.

Definition QuantFunc_symbolic (g : graph) (x scale zero_point bit_width
    signed narrow_range rounding_mode : value) : M (graph * value) :=
  let* rm := attr_s rounding_mode in
  let* s := py_int signed in
  let* n := py_int narrow_range in
  let '(g, r) := g_op g (DOMAIN_STRING +:+ "::Quant")
                   [x; scale; zero_point; bit_width]
                   [("rounding_mode", rm); ("signed", AttrI s); ("narrow", AttrI n)] in
  let g := setType g r "OptionalType.ofTensor" in
  ret (g, r).

Definition BinaryQuantFunc_symbolic (g : graph) (x scale : value) : M (graph * value) :=
  ret (g_op g (DOMAIN_STRING +:+ "::BipolarQuant") [x; scale] []).

Definition TruncFunc_symbolic (g : graph) (x scale zero_point input_bit_width
    output_bit_width rounding_mode : value) : M (graph * value) :=
  let* rm := attr_s rounding_mode in
  ret (g_op g (DOMAIN_STRING +:+ "::Trunc")
         [x; scale; zero_point; input_bit_width; output_bit_width]
         [("rounding_mode", rm)]).

(** [F.apply(...)]: in eager execution the forward pass produces the
    result; while a graph is being traced for export the symbolic
    function contributes the node and the result is that node's output. *)
Definition get_tracing : M (option graph) := λ w, Ret (tracing w) w.

Definition set_tracing (g : option graph) : M unit :=
  λ w, Ret tt (World (heap w) (registry w) g (exported w)).

Definition QuantFunc_apply (x scale zero_point bit_width
    signed narrow_range rounding_mode : value) : M value :=
  let* tr := get_tracing in
  match tr with
  | None => ret (QuantFunc_forward VNone x scale zero_point bit_width
                   signed narrow_range rounding_mode)
  | Some g =>
      let* gr := QuantFunc_symbolic g x scale zero_point bit_width
                   signed narrow_range rounding_mode in
      set_tracing (Some gr.1) >> ret gr.2
  end.

Definition BinaryQuantFunc_apply (x scale : value) : M value :=
  let* tr := get_tracing in
  match tr with
  | None => ret (BinaryQuantFunc_forward VNone x scale)
  | Some g =>
      let* gr := BinaryQuantFunc_symbolic g x scale in
      set_tracing (Some gr.1) >> ret gr.2
  end.

(** ** Tensors held by attributes *)

(** The tensor behind a value: a plain tensor, or the data of a
    parameter.  [e] is what Python raises when the value is neither. *)
Definition tensor_of (e : exn) (v : value) : M tensor :=
  match v with
  | VTensor t => ret t
  | VRef _ =>
      let* p := isinstance v NNParameter in
      if p then
        let* d := getattr v "data" in
        match d with VTensor t => ret t | _ => raise e end
      else raise e
  | _ => raise e
  end.

(** [torch.tensor(v)] *)
Definition torch_tensor (v : value) : M value :=
  match v with
  | VInt z => ret (VTensor (Tensor [] [z]))
  | VBool b => ret (VTensor (Tensor [] [Z.b2z b]))
  | VTensor t => ret (VTensor t)
  | VStr _ => raise TypeError
  | VNone => raise (RuntimeError "Could not infer dtype of NoneType")
  | VRef _ =>
      let* h := get_heap in
      match class_of h v with
      | Some NNParameter => let* t := tensor_of TypeError v in ret (VTensor t)
      | Some c => raise (RuntimeError ("Could not infer dtype of " +:+ class_name c))
      | None => raise ReferenceError
      end
  | VNode _ => ret v
  end.

(** [v == k] for an integer literal [k] *)
Definition eq_int (v : value) (k : Z) : value :=
  match v with
  | VTensor t => VTensor (Tensor (shape t) (map (λ e, Z.b2z (e =? k)%Z) (elems t)))
  | VInt z => VBool (z =? k)%Z
  | VBool b => VBool (Z.b2z b =? k)%Z
  | _ => VBool false
  end.

(** [v.shape[i]] *)
Definition shape_index (v : value) (i : nat) : M value :=
  let* t := tensor_of (AttributeError "shape") v in
  match shape t !! i with
  | Some n => ret (VInt n)
  | None => raise IndexError
  end.

(** [p.data = v] *)
Definition set_data (p v : value) : M unit :=
  let* t := tensor_of TypeError v in
  setattr p "data" (VTensor t).

(** [param.requires_grad_(b)] *)
Definition requires_grad_ (p : value) (b : bool) : M unit :=
  setattr p "requires_grad" (VBool b).

Definition new_parameter (shp : list Z) : M value :=
  alloc (Object NNParameter
           (list_to_map [("data", VTensor (Tensor shp (replicate (Z.to_nat (foldr Z.mul 1%Z shp)) 0%Z)));
                         ("requires_grad", VBool true)])).

(** [torch.nn.Linear(in_features, out_features, bias)].  The freshly drawn
    initial weights are carried as zeros. *)
Definition torch_nn_Linear (in_features out_features : value) (bias : bool) : M value :=
  match in_features, out_features with
  | VInt i, VInt o =>
      let* wt := new_parameter [o; i] in
      let* b := (if bias then new_parameter [o] else ret VNone) in
      alloc (Object Linear
               (list_to_map [("in_features", in_features); ("out_features", out_features);
                             ("weight", wt); ("bias", b)]))
  | _, _ => raise TypeError
  end.

(** ** The export modules

    An object under construction is visible to nobody but its
    constructor, so the attribute assignments of [__init__] are gathered
    into the object that is allocated when [__init__] returns.  The
    bookkeeping attributes of [torch.nn.Module.__init__] are left out. *)

Definition ExportQuantAct_init (layer : value) : M value :=
  let* sf := getattr layer "act_scaling_factor" in
  let* scale := tensor_of (AttributeError "clone") sf in
  let* zero_point := torch_tensor (VInt 0) in
  let* fp := getattr layer "full_precision_flag" in
  let* full := truthy fp in
  let* bit_width :=
    (if full then torch_tensor (VInt 32)
     else let* ab := getattr layer "activation_bit" in torch_tensor ab) in
  let* qm := getattr layer "quant_mode" in
  let signed := if bool_decide (qm = VStr "symmetric") then VInt 1 else VInt 0 in
  alloc (Object ExportQuantAct
           (list_to_map [("export_mode", VBool true);
                         ("scale", VTensor scale);
                         ("zero_point", zero_point);
                         ("bit_width", bit_width);
                         ("narrow_range", VInt 0);
                         ("rounding_mode", VStr "ROUND");
                         ("signed", signed)])).

Definition ExportQuantAct_forward (self x act_scaling_factor weight_scaling_factor : value)
    : M (value * value) :=
  let* bw := getattr self "bit_width" in
  let* one := truthy (eq_int bw 1) in
  if one then
    let* scale := getattr self "scale" in
    let* r := BinaryQuantFunc_apply x scale in
    ret (r, act_scaling_factor)
  else
    let* scale := getattr self "scale" in
    let* zero_point := getattr self "zero_point" in
    let* bit_width := getattr self "bit_width" in
    let* signed := getattr self "signed" in
    let* narrow_range := getattr self "narrow_range" in
    let* rounding_mode := getattr self "rounding_mode" in
    let* r := QuantFunc_apply x scale zero_point bit_width
                signed narrow_range rounding_mode in
    ret (r, act_scaling_factor).

Definition ExportQuantLinear_init (layer : value) : M value :=
  let* w1 := getattr layer "weight" in
  let* in_features := shape_index w1 1 in
  let* w0 := getattr layer "weight" in
  let* out_features := shape_index w0 0 in
  let* has_bias := hasattr layer "bias" in
  let* fc := torch_nn_Linear in_features out_features has_bias in
  (if has_bias then
     let* fix_flag := getattr layer "fix_flag" in
     let* fixed := truthy fix_flag in
     if fixed then
       let* w := getattr layer "weight" in
       let* fw := getattr fc "weight" in
       set_data fw w >>
       let* b := getattr layer "bias" in
       let* fb := getattr fc "bias" in
       set_data fb b
     else
       let* w := getattr layer "weight_integer" in
       let* fw := getattr fc "weight" in
       set_data fw w >>
       let* b := getattr layer "bias_integer" in
       let* fb := getattr fc "bias" in
       set_data fb b
   else
     let* fix_flag := getattr layer "fix_flag" in
     let* fixed := truthy fix_flag in
     if fixed then
       let* w := getattr layer "weight" in
       let* fw := getattr fc "weight" in
       set_data fw w
     else
       let* w := getattr layer "weight_integer" in
       let* fw := getattr fc "weight" in
       set_data fw w) >>
  alloc (Object ExportQuantLinear (list_to_map [("fc", fc)])).

Definition ExportQuantConv2d_init (layer : value) : M value :=
  let* conv := getattr layer "conv" in
  alloc (Object ExportQuantConv2d (list_to_map [("conv", conv)])).

(** ** [Module.parameters()]

    Every parameter held by the module or by a module reachable from it
    through submodule attributes, each once. *)

Definition refs_to (h : gmap loc object) (p : pyclass → bool) (l : loc) : gset loc :=
  match h !! l with
  | Some o =>
      list_to_set
        (omap (λ kv : string * value,
                 match kv.2 with
                 | VRef l' =>
                     match h !! l' with
                     | Some o' => if p (cls o') then Some l' else None
                     | None => None
                     end
                 | _ => None
                 end)
              (map_to_list (fields o)))
  | None => ∅
  end.

Definition modules_in (h : gmap loc object) (root : loc) : gset loc :=
  Nat.iter (size h) (λ s, s ∪ set_bind (refs_to h is_module) s) {[root]}.

Definition parameters_in (h : gmap loc object) (root : loc) : list value :=
  VRef <$> elements (set_bind (refs_to h (λ c, bool_decide (c = NNParameter)))
                            (modules_in h root)).

Definition parameters (model : value) : M (list value) :=
  let* h := get_heap in
  match model, class_of h model with
  | VRef l, Some c =>
      if is_module c then ret (parameters_in h l)
      else raise (AttributeError "parameters")
  | _, _ => raise (AttributeError "parameters")
  end.

(** ** replace_layers *)

(** The body of the loop over [dir(model)]; [recurse] is the recursive
    call of [replace_layers]. *)
Definition replace_layer (recurse : value → M unit) (model : value) (name : string)
    : M unit :=
  let* layer := getattr model name in
  let* is_act := isinstance layer QuantAct in
  if is_act then
    let* e := ExportQuantAct_init layer in setattr model name e
  else
  let* is_linear := isinstance layer QuantLinear in
  if is_linear then
    let* e := ExportQuantLinear_init layer in setattr model name e
  else
  let* is_conv := isinstance layer QuantConv2d in
  if is_conv then
    let* e := ExportQuantConv2d_init layer in setattr model name e
  else
  let* is_seq := isinstance layer Sequential in
  if is_seq then recurse layer
  else
  let* unsupported := isinstance_any layer UNSUPPORTED_LAYERS in
  if unsupported then
    let* n := _get_name layer in
    raise (RuntimeError ("Unsupported layer type found " +:+ n))
  else ret tt.

Fixpoint replace_layers (fuel : nat) (model : value) : M unit :=
  match fuel with
  | O => diverge
  | S fuel' =>
      let* params := parameters model in
      for_each params (λ param, requires_grad_ param false) >>
      let* names := dir model in
      for_each names (replace_layer (replace_layers fuel') model)
  end.

(** ** Registration and the export driver *)

Definition register_custom_op_symbolic (name : string) (fn : symbolic) (opset : Z) : M unit :=
  λ w, Ret tt (World (heap w) (<[(name, opset) := fn]> (registry w)) (tracing w) (exported w)).

Definition register_custom_ops : M unit :=
  register_custom_op_symbolic (DOMAIN_STRING +:+ "::Quant") QuantFunc_sym 1 >>
  register_custom_op_symbolic (DOMAIN_STRING +:+ "::BipolarQuant") BinaryQuantFunc_sym 1.

(** [copy.deepcopy]: atomic values are returned as they are; an object is
    rebuilt at a new location that is recorded in the memo before its
    attributes are copied, so shared and cyclic references are kept. *)
(** The copy of the attributes, one after the other, threading the memo. *)
Fixpoint copy_items (copy : gmap loc loc → value → M (value * gmap loc loc))
    (kvs : list (string * value)) (acc : gmap string value) (memo : gmap loc loc)
    : M (gmap string value * gmap loc loc) :=
  match kvs with
  | [] => ret (acc, memo)
  | (k, x) :: kvs' =>
      let* xm := copy memo x in
      copy_items copy kvs' (<[k := xm.1]> acc) xm.2
  end.

(** [y.__dict__.update(state)] on the object rebuilt at [l]. *)
Definition update_dict (l : loc) (c : pyclass) (state : gmap string value) : M unit :=
  λ w, Ret tt (set_heap (<[l := Object c state]>) w).

Fixpoint deepcopy (fuel : nat) (memo : gmap loc loc) (v : value)
    : M (value * gmap loc loc) :=
  match v with
  | VRef l =>
      match memo !! l with
      | Some l' => ret (VRef l', memo)
      | None =>
          match fuel with
          | O => diverge
          | S fuel' =>
              let* h := get_heap in
              match h !! l with
              | None => raise ReferenceError
              | Some o =>
                  let* y := alloc (Object (cls o) ∅) in
                  match y with
                  | VRef l' =>
                      let* r := copy_items (deepcopy fuel') (map_to_list (fields o)) ∅
                                  (<[l := l']> memo) in
                      update_dict l' (cls o) r.1 >>
                      ret (y, r.2)
                  | _ => raise ReferenceError
                  end
              end
          end
      end
  | _ => ret (v, memo)
  end.

(** [torch.onnx.export(model, input, filename)]: the exporter belongs to
    the host framework; its invocation is recorded. *)
Definition torch_onnx_export (model input : value) (filename : string) : M unit :=
  λ w, Ret tt (World (heap w) (registry w) (tracing w)
                 (exported w ++ [(model, input, filename)])).

(** [now] is [datetime.now().strftime('%m%d%Y%H%M%S')] at the time of the
    call.  [torch.no_grad()] and the warnings filter change nothing that
    is modelled. *)
Definition export_to_qonnx (fuel : nat) (now : string)
    (model input : value) (filename : option string) : M value :=
  if bool_decide (model = VNone) then raise (RuntimeError "Model cannot be None")
  else if bool_decide (input = VNone) then raise (RuntimeError "Input cannot be None")
  else
    let* filename :=
      match filename with
      | None => let* n := _get_name model in ret (n +:+ "_" +:+ now +:+ ".onnx")
      | Some f => ret f
      end in
    register_custom_ops >>
    let* cm := deepcopy fuel ∅ model in
    let export_model := cm.1 in
    replace_layers fuel export_model >>
    torch_onnx_export export_model input filename >>
    ret export_model.

(** * Specification vocabulary *)

(** ** Outcomes of a run *)

(** [wp c Q E D w]: running [c] from [w] ends in a return satisfying [Q],
    in an exception satisfying [E], or (when [D] holds) out of fuel. *)
Definition wp {A} (c : M A) (Q : A → world → Prop) (E : exn → world → Prop)
    (D : Prop) (w : world) : Prop :=
  match c w with
  | Ret a w' => Q a w'
  | Raise e w' => E e w'
  | Diverge => D
  end.

(** The integer [int(v)] yields, when it yields one. *)
Definition int_of (v : value) : option Z :=
  match v with
  | VBool b => Some (Z.b2z b)
  | VInt z => Some z
  | VTensor (Tensor _ [z]) => Some z
  | _ => None
  end.

(** ** How the heap may change *)

(** The export module that stands in for a supported quantized layer. *)
Definition export_class (c : pyclass) : pyclass :=
  match c with
  | QuantAct => ExportQuantAct
  | QuantLinear => ExportQuantLinear
  | QuantConv2d => ExportQuantConv2d
  | c => c
  end.

(** The classes the walk of [replace_layers] reacts to. *)
Definition walk_class (c : pyclass) : bool :=
  bool_decide (c ∈ SUPPORTED_LAYERS ++ UNSUPPORTED_LAYERS ++ [Sequential]).

Definition supported_in (h : gmap loc object) (v : value) : bool :=
  isinstance_any_in h v SUPPORTED_LAYERS.

Definition unsupported_in (h : gmap loc object) (v : value) : bool :=
  isinstance_any_in h v UNSUPPORTED_LAYERS.

(** A value the walk passes over: not an object of a walk class. *)
Definition inert (h : gmap loc object) (v : value) : Prop :=
  ∀ c, class_of h v = Some c → walk_class c = false.

(** [evolves h h']: objects keep their class; an attribute of a module
    either keeps its value or went from a supported quantized layer to a
    new object of the matching export class; objects created in between
    are of no walk class. *)
Definition evolves (h h' : gmap loc object) : Prop :=
  (∀ l o, h !! l = Some o →
     ∃ o', h' !! l = Some o' ∧ cls o' = cls o ∧
       (is_module (cls o) = true → ∀ name,
          fields o' !! name = fields o !! name
          ∨ ∃ x x' c, fields o !! name = Some x ∧ class_of h x = Some c
                      ∧ c ∈ SUPPORTED_LAYERS
                      ∧ fields o' !! name = Some x'
                      ∧ class_of h' x' = Some (export_class c)
                      ∧ lookup_obj h x' = None))
  ∧ (∀ l o', h !! l = None → h' !! l = Some o' → walk_class (cls o') = false).

(** [built_from h h' layer]: [h'] is [h] with new objects of no walk
    class, whose references go to new objects or to what [layer] holds. *)
Definition built_from (h h' : gmap loc object) (layer : value) : Prop :=
  h ⊆ h'
  ∧ ∀ l o, h !! l = None → h' !! l = Some o →
      walk_class (cls o) = false
      ∧ ∀ name l2, fields o !! name = Some (VRef l2) →
          h !! l2 = None ∨ ∃ n, getattr_in h layer n = Some (VRef l2).

(** [grad_off h h' ps]: [h'] is [h] except that parameters among [ps]
    may have had [requires_grad] switched off. *)
Definition grad_off (h h' : gmap loc object) (ps : list value) : Prop :=
  ∀ l, h' !! l = h !! l
       ∨ ∃ o, VRef l ∈ ps ∧ h !! l = Some o ∧ cls o = NNParameter
              ∧ h' !! l = Some (set_field "requires_grad" (VBool false) o).

(** Exceptions of the host operations: never one of this script's own
    [RuntimeError]s. *)
Definition host_error (e : exn) : Prop :=
  match e with
  | RuntimeError m =>
      m ≠ "Model cannot be None" ∧ m ≠ "Input cannot be None"
      ∧ ∀ n, m ≠ "Unsupported layer type found " +:+ n
  | _ => True
  end.

(** Operations that only read the state. *)
Definition read_only {A} (c : M A) (P : A → Prop) : Prop :=
  ∀ w, match c w with
       | Ret a w' => w' = w ∧ P a
       | Raise e w' => w' = w ∧ host_error e
       | Diverge => False
       end.

Definition nonref (v : value) : Prop := ∀ l, v ≠ VRef l.

Ltac host_err :=
  simpl; repeat split; try done; try (intros ?; simpl; discriminate).

(** What a constructor called on [layer] leaves behind, on success and on
    failure. *)
Definition ctor_spec (c : pyclass) (ctor : value → M value) : Prop :=
  ∀ layer w,
    wp (ctor layer)
       (λ v w', built_from (heap w) (heap w') layer
                ∧ ∃ l o, v = VRef l ∧ heap w !! l = None
                         ∧ heap w' !! l = Some o ∧ cls o = c)
       (λ e w', built_from (heap w) (heap w') layer ∧ host_error e)
       False w.

(** A parameter created since the constructor started, other than [lf]. *)
Definition fresh_param (h0 hc : gmap loc object) (lf : loc) (v : value) : Prop :=
  ∃ lp op, v = VRef lp ∧ h0 !! lp = None ∧ hc !! lp = Some op ∧ lp ≠ lf.

(** The exceptions of the walk: those of the host operations and the
    script's own complaint about an unsupported layer. *)
Definition walk_error (e : exn) : Prop :=
  host_error e
  ∨ ∃ c, c ∈ UNSUPPORTED_LAYERS
         ∧ e = RuntimeError ("Unsupported layer type found " +:+ class_name c).

(** ** What the walk reaches *)

(** [x] holds [y] in an attribute [dir] lists. *)
Definition holds (h : gmap loc object) (x : value) (name : string) (y : value) : Prop :=
  name ∈ dir_in h x ∧ getattr_in h x name = Some y.

(** The objects the walk descends to from [root]: [root] itself and,
    below a reached object, the [Sequential]s it holds. *)
Inductive walk_reach (h : gmap loc object) (root : value) : value → Prop :=
| walk_here : walk_reach h root root
| walk_into x name y :
    walk_reach h root x → holds h x name y → class_of h y = Some Sequential →
    walk_reach h root y.

Definition is_module_in (h : gmap loc object) (v : value) : Prop :=
  ∃ c, class_of h v = Some c ∧ is_module c = true.

(** No attribute the walk sees below [root] holds a quantized layer. *)
Definition walk_free (h : gmap loc object) (root : value) : Prop :=
  ∀ x name y c, walk_reach h root x → holds h x name y → class_of h y = Some c →
    (c ∉ SUPPORTED_LAYERS) ∧ (c ∉ UNSUPPORTED_LAYERS).

(** The attribute [name] of [x] is dealt with: it holds no quantized
    layer, and below a [Sequential] it holds there is none either. *)
Definition done_attr (h : gmap loc object) (x : value) (name : string) : Prop :=
  ∀ y c, getattr_in h x name = Some y → class_of h y = Some c →
    (c ∉ SUPPORTED_LAYERS) ∧ (c ∉ UNSUPPORTED_LAYERS)
    ∧ (c = Sequential → walk_free h y).

(** The module tree in the wide sense: every module held by an attribute
    of a module of the tree, whatever the class of the holder. *)
Inductive submodule (h : gmap loc object) (root : value) : value → Prop :=
| sub_here : submodule h root root
| sub_child x name y :
    submodule h root x → getattr_in h x name = Some y → is_module_in h y →
    submodule h root y.

(** ** Example models *)

(** A network whose activation sits in a block that is no [Sequential]. *)
Definition nested_block_heap : gmap loc object :=
  list_to_map
    [(1, Object (OtherModule "Net") (list_to_map [("block", VRef 2)]));
     (2, Object (OtherModule "Block") (list_to_map [("act", VRef 3)]));
     (3, Object QuantAct
           (list_to_map [("act_scaling_factor", VTensor (Tensor [1%Z] [1%Z]));
                         ("full_precision_flag", VBool false);
                         ("activation_bit", VInt 4);
                         ("quant_mode", VStr "symmetric")]))].

Definition nested_block_world : world := World nested_block_heap ∅ None [].

(** A small quantized network: an activation, a linear layer with its
    parameters, and a [Sequential] holding a convolution. *)
Definition mnist_heap : gmap loc object :=
  list_to_map
    [(1, Object (OtherModule "Q_MNIST")
           (list_to_map [("act", VRef 2); ("fc", VRef 3); ("features", VRef 5);
                         ("num_classes", VInt 10)]));
     (2, Object QuantAct
           (list_to_map [("act_scaling_factor", VTensor (Tensor [1%Z] [7%Z]));
                         ("full_precision_flag", VBool false);
                         ("activation_bit", VInt 4);
                         ("quant_mode", VStr "symmetric")]));
     (3, Object QuantLinear
           (list_to_map [("weight", VRef 4); ("bias", VRef 8);
                         ("fix_flag", VBool true);
                         ("weight_integer",
                          VTensor (Tensor [2%Z; 3%Z] [1; 2; 3; 4; 5; 6]%Z));
                         ("bias_integer", VTensor (Tensor [2%Z] [0; 0]%Z))]));
     (4, Object NNParameter
           (list_to_map [("data", VTensor (Tensor [2%Z; 3%Z] [6; 5; 4; 3; 2; 1]%Z));
                         ("requires_grad", VBool true)]));
     (8, Object NNParameter
           (list_to_map [("data", VTensor (Tensor [2%Z] [9; 9]%Z));
                         ("requires_grad", VBool true)]));
     (5, Object Sequential (list_to_map [("conv1", VRef 6)]));
     (6, Object QuantConv2d (list_to_map [("conv", VRef 7)]));
     (7, Object (OtherModule "Conv2d") ∅)].

Definition mnist_world : world := World mnist_heap ∅ None [].

(** The world a run ends in, whichever way it ends. *)
Definition final_world {A} (o : outcome A) (w : world) : world :=
  match o with
  | Ret _ w' | Raise _ w' => w'
  | Diverge => w
  end.

Definition unsupported_message (n : string) : exn :=
  RuntimeError ("Unsupported layer type found " +:+ n).

(** ** Depth and footprint of the walk *)

(** [seq_tree d h v]: below [v], [Sequential]s are nested less than [d]
    deep along the attributes [dir] lists. *)
Fixpoint seq_tree (d : nat) (h : gmap loc object) (v : value) : bool :=
  match d with
  | O => false
  | S d' =>
      forallb (λ name,
                 match getattr_in h v name with
                 | Some y => if isinstance_in h y Sequential then seq_tree d' h y else true
                 | None => true
                 end) (dir_in h v)
  end.

(** Modules the walk does not descend to are left as they were. *)
Definition untouched (model : value) (h h' : gmap loc object) : Prop :=
  ∀ l o, h !! l = Some o → is_module (cls o) = true →
         ¬ walk_reach h model (VRef l) → h' !! l = Some o.

(** The dispatch of the loop body on the class of the layer it found. *)
Definition dispatch (recurse : value → M unit) (model : value) (name : string)
    (layer : value) (c : option pyclass) : M unit :=
  match c with
  | Some QuantAct => let* e := ExportQuantAct_init layer in setattr model name e
  | Some QuantLinear => let* e := ExportQuantLinear_init layer in setattr model name e
  | Some QuantConv2d => let* e := ExportQuantConv2d_init layer in setattr model name e
  | Some Sequential => recurse layer
  | Some (QuantBnConv2d as k) | Some (QuantMaxPool2d as k)
  | Some (QuantAveragePool2d as k) => raise (unsupported_message (class_name k))
  | _ => ret tt
  end.

(** A network whose [Sequential] holds a layer that cannot be exported. *)
Definition bn_heap : gmap loc object :=
  list_to_map
    [(1, Object (OtherModule "Net") (list_to_map [("features", VRef 2)]));
     (2, Object Sequential (list_to_map [("bn", VRef 3)]));
     (3, Object QuantBnConv2d ∅)].

Definition bn_world : world := World bn_heap ∅ None [].

(** A [Sequential] built from positional arguments: its children are
    registered under the names ["0"], ["1"], ... *)
Definition numbered_heap : gmap loc object :=
  list_to_map
    [(1, Object (OtherModule "Net") (list_to_map [("layers", VRef 2)]));
     (2, Object Sequential (list_to_map [("0", VRef 3)]));
     (3, Object QuantConv2d (list_to_map [("conv", VRef 4)]));
     (4, Object (OtherModule "Conv2d") ∅)].

Definition numbered_world : world := World numbered_heap ∅ None [].

(** ** Contents of the export modules *)

(** The tensor a value stands for, and the truth value of a flag, when
    Python finds one. *)
Definition tensor_in (h : gmap loc object) (v : value) : option tensor :=
  match v with
  | VTensor t => Some t
  | VRef l =>
      match h !! l with
      | Some o =>
          if bool_decide (cls o = NNParameter) then
            match fields o !! "data" with
            | Some (VTensor t) => Some t
            | _ => None
            end
          else None
      | None => None
      end
  | _ => None
  end.

Definition truth_of (v : value) : option bool :=
  match v with
  | VNone => Some false
  | VBool b => Some b
  | VInt z => Some (negb (z =? 0)%Z)
  | VStr s => Some (negb (String.eqb s ""))
  | VTensor (Tensor _ [z]) => Some (negb (z =? 0)%Z)
  | VTensor _ => None
  | VRef _ | VNode _ => Some true
  end.

(** [v] is a parameter whose data is [t]. *)
Definition param_with (h : gmap loc object) (v : value) (t : tensor) : Prop :=
  ∃ l o, v = VRef l ∧ h !! l = Some o ∧ cls o = NNParameter
         ∧ fields o !! "data" = Some (VTensor t).

(** [fc] is a [torch.nn.Linear] of the given sizes whose weight holds
    [wt] and whose bias, if any, holds [bt]. *)
Definition linear_with (h : gmap loc object) (fc : value) (i o : Z)
    (wt : tensor) (bt : option tensor) : Prop :=
  ∃ lf pw pb,
    fc = VRef lf
    ∧ h !! lf = Some (Object Linear
                        (list_to_map [("in_features", VInt i); ("out_features", VInt o);
                                      ("weight", pw); ("bias", pb)]))
    ∧ param_with h pw wt
    ∧ match bt with Some t => param_with h pb t | None => pb = VNone end.

(** The world with [g] as the graph being traced. *)
Definition with_graph (g : graph) (w : world) : world :=
  World (heap w) (registry w) (Some g) (exported w).

(** ** The deep copy and the original *)

(** [separate h0 h]: the objects of [h0] are in [h] as they were, and the
    objects created since refer to no object of [h0]. *)
Definition separate (h0 h : gmap loc object) : Prop :=
  h0 ⊆ h
  ∧ ∀ l o name l2, h0 !! l = None → h !! l = Some o →
      fields o !! name = Some (VRef l2) → h0 !! l2 = None.

(** A value that is no reference into [h0]. *)
Definition new_in (h0 : gmap loc object) (v : value) : Prop :=
  ∀ l, v = VRef l → h0 !! l = None.

Definition memo_new (h0 : gmap loc object) (memo : gmap loc loc) : Prop :=
  ∀ l l', memo !! l = Some l' → h0 !! l' = None.

Definition fields_new (h0 : gmap loc object) (fs : gmap string value) : Prop :=
  ∀ k x, fs !! k = Some x → new_in h0 x.

Definition copy_spec (h0 : gmap loc object)
    (copy : gmap loc loc → value → M (value * gmap loc loc)) : Prop :=
  ∀ memo v w, separate h0 (heap w) → memo_new h0 memo →
    wp (copy memo v)
       (λ r w', separate h0 (heap w') ∧ new_in h0 r.1 ∧ memo_new h0 r.2)
       (λ e w', separate h0 (heap w') ∧ e = ReferenceError) True w.

(** The two errors [export_to_qonnx] raises for a missing argument. *)
Definition none_error (e : exn) : Prop :=
  e = RuntimeError "Model cannot be None" ∨ e = RuntimeError "Input cannot be None".

(** ** Further vocabulary *)

(** The parts of the world other than the heap. *)
Definition same_rest (w w' : world) : Prop :=
  registry w' = registry w ∧ tracing w' = tracing w ∧ exported w' = exported w.

(** A computation that changes nothing but the heap. *)
Definition heap_only {A} (c : M A) : Prop :=
  ∀ w, wp c (λ _ w', same_rest w w') (λ _ w', same_rest w w') True w.

(** [frozen h h']: a parameter of [h] is in [h'] as it was, or with
    [requires_grad] switched off and nothing else changed. *)
Definition frozen (h h' : gmap loc object) : Prop :=
  ∀ l o, h !! l = Some o → cls o = NNParameter →
    h' !! l = Some o ∨ h' !! l = Some (set_field "requires_grad" (VBool false) o).

(** [quiet h h']: the two heaps hold the same objects, up to parameters
    whose [requires_grad] was switched off. *)
Definition quiet (h h' : gmap loc object) : Prop :=
  ∀ l, h' !! l = h !! l
       ∨ ∃ o, h !! l = Some o ∧ cls o = NNParameter
              ∧ h' !! l = Some (set_field "requires_grad" (VBool false) o).

(** The hooks [register_custom_ops] enters. *)
Definition with_hooks (r : gmap (string * Z) symbolic) : gmap (string * Z) symbolic :=
  <[(DOMAIN_STRING +:+ "::BipolarQuant", 1%Z) := BinaryQuantFunc_sym]>
    (<[(DOMAIN_STRING +:+ "::Quant", 1%Z) := QuantFunc_sym]> r).

(** The file name [export_to_qonnx] uses. *)
Definition export_filename (h : gmap loc object) (now : string) (model : value)
    (filename : option string) : option string :=
  match filename with
  | Some f => Some f
  | None => (λ c, class_name c +:+ "_" +:+ now +:+ ".onnx") <$> class_of h model
  end.

(** [grad_all h h' ps]: [h'] is [h] with [requires_grad] switched off on
    exactly the parameters [ps]. *)
Definition grad_all (h h' : gmap loc object) (ps : list value) : Prop :=
  ∀ l, (VRef l ∈ ps → ∃ o, h !! l = Some o ∧ cls o = NNParameter
                          ∧ h' !! l = Some (set_field "requires_grad" (VBool false) o))
       ∧ (VRef l ∉ ps → h' !! l = h !! l).

(** What every constructor of an export module keeps, however it ends. *)
Definition ctor_keeps (ctor : value → M value) : Prop :=
  ∀ layer w,
    let w' := final_world (ctor layer w) w in
    heap w ⊆ heap w' ∧ same_rest w w'
    ∧ (∀ l o, heap w !! l = None → heap w' !! l = Some o → walk_class (cls o) = false)
    ∧ (∀ e w'', ctor layer w = Raise e w'' → host_error e).

(** A symbolic function run on the graph [g]: it appends one node of the
    operator [op], fed with [x] first, and returns that node's output. *)
Definition appends_one (op : string) (g : graph) (x : value) (c : M (graph * value))
    : Prop :=
  ∀ w, match c w with
       | Ret gr w' =>
           w' = w ∧ gr.2 = VNode (length g)
           ∧ ∃ nd, gr.1 = g ++ [nd] ∧ op_type nd = DOMAIN_STRING +:+ "::" +:+ op
                   ∧ head (inputs nd) = Some x
       | Raise e w' => w' = w ∧ (e = TypeError ∨ e = ValueError)
       | Diverge => False
       end.

(** A [QuantLinear] whose attribute [bias] is there and holds [None]. *)
Definition nobias_heap : gmap loc object :=
  list_to_map
    [(1, Object QuantLinear
           (list_to_map [("weight", VRef 2); ("bias", VNone); ("fix_flag", VBool true)]));
     (2, Object NNParameter
           (list_to_map [("data", VTensor (Tensor [2; 3]%Z [6; 5; 4; 3; 2; 1]%Z));
                         ("requires_grad", VBool true)]))].

Definition nobias_world : world := World nobias_heap ∅ None [].

(** A [QuantLinear] whose weight has one dimension only. *)
Definition flat_heap : gmap loc object :=
  list_to_map
    [(1, Object QuantLinear
           (list_to_map [("weight", VTensor (Tensor [3%Z] [1; 2; 3]%Z));
                         ("fix_flag", VBool true)]))].

Definition flat_world : world := World flat_heap ∅ None [].

(** * Reasoning principles *)

Lemma wp_ret {A} (a : A) Q E D w : Q a w → wp (ret a) Q E D w.
Proof. done. Qed.

Lemma wp_raise {A} e (Q : A → world → Prop) E D w : E e w → wp (raise e) Q E D w.
Proof. done. Qed.

Lemma wp_bind {A B} (c : M A) (k : A → M B) Q E D w :
  wp c (λ a w', wp (k a) Q E D w') E D w → wp (bind c k) Q E D w.
Proof. unfold wp, bind. by destruct (c w). Qed.

Lemma wp_mono {A} (c : M A) (Q Q' : A → world → Prop) (E E' : exn → world → Prop)
    (D D' : Prop) w :
  wp c Q E D w →
  (∀ a w', Q a w' → Q' a w') → (∀ e w', E e w' → E' e w') → (D → D') →
  wp c Q' E' D' w.
Proof. unfold wp. destruct (c w); eauto. Qed.

Lemma wp_for_each {A} (I : list A → world → Prop) (xs : list A) (body : A → M unit)
    E D w :
  I [] w →
  (∀ pre x post w', xs = pre ++ x :: post → I pre w' →
     wp (body x) (λ _ w'', I (pre ++ [x]) w'') E D w') →
  wp (for_each xs body) (λ _ w', I xs w') E D w.
Proof.
  intros H0 Hstep.
  cut (∀ pre post w', xs = pre ++ post → I pre w' →
         wp (for_each post body) (λ _ w'', I xs w'') E D w').
  { intros Hcut. by apply (Hcut [] xs). }
  intros pre post. revert pre.
  induction post as [|x post IH]; intros pre w' Hxs Hpre; simpl.
  - apply wp_ret. by rewrite Hxs, app_nil_r.
  - apply wp_bind. eapply wp_mono; [by eapply Hstep| |done|done].
    intros [] w'' Hw''. simpl in Hw''. eapply (IH (pre ++ [x])); [|done].
    by rewrite <- app_assoc.
Qed.

(** Facts about the pure readers. *)
Lemma isinstance_in_true h v c :
  isinstance_in h v c = true ↔ ∃ l o, v = VRef l ∧ h !! l = Some o ∧ cls o = c.
Proof.
  unfold isinstance_in, class_of, lookup_obj. rewrite bool_decide_eq_true.
  destruct v; simpl; try (split; [done | by intros (?&?&?&?)]).
  destruct (h !! l) as [o|] eqn:Ho; simpl; split.
  - intros [= <-]. eauto.
  - intros (?&?&[= <-]&?&?). by simplify_eq.
  - done.
  - intros (?&?&[= <-]&?&?). by simplify_eq.
Qed.

Lemma elem_of_dir_obj o name :
  name ∈ dir_obj o ↔ is_Some (fields o !! name) ∧ starts_with_digit name = false.
Proof.
  unfold dir_obj. rewrite merge_sort_Permutation.
  rewrite list_elem_of_filter, elem_of_elements, elem_of_dom. tauto.
Qed.

(** * The autograd functions *)

(** C2: the forward passes of [QuantFunc], [BinaryQuantFunc] and
    [TruncFunc] return the data tensor [x] unchanged, whatever the other
    arguments are; being plain functions of their arguments, they read
    and write no state. *)
Theorem forward_passes_are_identities :
  ∀ ctx x scale zero_point bit_width signed narrow_range rounding_mode
    input_bit_width output_bit_width,
    QuantFunc_forward ctx x scale zero_point bit_width signed narrow_range
      rounding_mode = x
    ∧ BinaryQuantFunc_forward ctx x scale = x
    ∧ TruncFunc_forward ctx x scale zero_point input_bit_width output_bit_width
        rounding_mode = x.
Proof. intros. repeat split. Qed.

(** In eager execution applying the functions is the same pass-through
    and leaves the world as it was. *)
Lemma apply_eager w x scale zero_point bit_width signed narrow_range rounding_mode :
  tracing w = None →
  QuantFunc_apply x scale zero_point bit_width signed narrow_range rounding_mode w
    = Ret x w
  ∧ BinaryQuantFunc_apply x scale w = Ret x w.
Proof.
  intros Htr. unfold QuantFunc_apply, BinaryQuantFunc_apply, bind, get_tracing.
  by rewrite Htr.
Qed.

Lemma py_int_int_of v z w : int_of v = Some z → py_int v w = Ret z w.
Proof.
  destruct v as [| | | |[sh [|e [|? ?]]]| |]; simpl; intros; by simplify_eq.
Qed.

Lemma setType_last g nd ty :
  setType (g ++ [nd]) (VNode (length g)) ty
  = g ++ [Node (op_type nd) (inputs nd) (attrs nd) (Some ty)].
Proof.
  simpl. induction g as [|n g IH]; simpl; [done|]. by rewrite <- IH.
Qed.

Lemma QuantFunc_symbolic_run g x scale zero_point bit_width signed narrow_range
    rounding_mode s n w :
  int_of signed = Some s →
  int_of narrow_range = Some n →
  QuantFunc_symbolic g x scale zero_point bit_width signed narrow_range
    (VStr rounding_mode) w
  = Ret (g ++ [Node "hawq_onnx::Quant" [x; scale; zero_point; bit_width]
                 [("rounding_mode", AttrS rounding_mode);
                  ("signed", AttrI s); ("narrow", AttrI n)]
                 (Some "OptionalType.ofTensor")],
         VNode (length g)) w.
Proof.
  intros Hs Hn. unfold QuantFunc_symbolic, bind. simpl.
  rewrite (py_int_int_of _ _ _ Hs), (py_int_int_of _ _ _ Hn).
  unfold g_op, ret. f_equal. f_equal.
  apply (setType_last g (Node _ _ _ None)).
Qed.

(** C5: [QuantFunc.symbolic] appends exactly one node to the graph: the
    operator [Quant] of the domain [hawq_onnx], with [x], [scale],
    [zero_point] and [bit_width] as inputs, [rounding_mode] as a string
    attribute and [int(signed)], [int(narrow_range)] as integer
    attributes; the node's output is returned. *)
Theorem QuantFunc_symbolic_emits_Quant :
  ∀ g x scale zero_point bit_width signed narrow_range rounding_mode s n w,
    int_of signed = Some s →
    int_of narrow_range = Some n →
    QuantFunc_symbolic g x scale zero_point bit_width signed narrow_range
      (VStr rounding_mode) w
    = Ret (g ++ [Node (DOMAIN_STRING +:+ "::Quant") [x; scale; zero_point; bit_width]
                   [("rounding_mode", AttrS rounding_mode);
                    ("signed", AttrI s); ("narrow", AttrI n)]
                   (Some "OptionalType.ofTensor")],
           VNode (length g)) w
    ∧ DOMAIN_STRING = "hawq_onnx".
Proof. intros. split; [by apply QuantFunc_symbolic_run|done]. Qed.

Lemma QuantFunc_symbolic_emits_Quant_witness :
  QuantFunc_symbolic [] (VNode 7) (VTensor (Tensor [] [2%Z])) (VTensor (Tensor [] [0%Z]))
    (VTensor (Tensor [] [4%Z])) (VInt 1) (VBool false) (VStr "ROUND")
    (World ∅ ∅ None [])
  = Ret ([Node "hawq_onnx::Quant"
            [VNode 7; VTensor (Tensor [] [2%Z]); VTensor (Tensor [] [0%Z]);
             VTensor (Tensor [] [4%Z])]
            [("rounding_mode", AttrS "ROUND"); ("signed", AttrI 1); ("narrow", AttrI 0)]
            (Some "OptionalType.ofTensor")], VNode 0) (World ∅ ∅ None []).
Proof.
  apply (QuantFunc_symbolic_emits_Quant [] (VNode 7) (VTensor (Tensor [] [2%Z]))
           (VTensor (Tensor [] [0%Z])) (VTensor (Tensor [] [4%Z])) (VInt 1) (VBool false)
           "ROUND" 1%Z 0%Z (World ∅ ∅ None [])); reflexivity.
Defined.

(** * Registration *)

(** C4: [register_custom_ops] always returns, touches only the registry,
    and enters there exactly two hooks, both at opset version 1:
    [hawq_onnx::Quant] with [QuantFunc.symbolic] and
    [hawq_onnx::BipolarQuant] with [BinaryQuantFunc.symbolic]; every other
    entry of the registry is as before.  The two names are the operators
    of [SUPPORTED_QONNX] qualified by the domain. *)
Theorem register_custom_ops_registers_two :
  ∀ w, ∃ w',
    register_custom_ops w = Ret tt w'
    ∧ heap w' = heap w ∧ tracing w' = tracing w ∧ exported w' = exported w
    ∧ registry w' !! ("hawq_onnx::Quant", 1%Z) = Some QuantFunc_sym
    ∧ registry w' !! ("hawq_onnx::BipolarQuant", 1%Z) = Some BinaryQuantFunc_sym
    ∧ (∀ key, key ≠ ("hawq_onnx::Quant", 1%Z) →
              key ≠ ("hawq_onnx::BipolarQuant", 1%Z) →
              registry w' !! key = registry w !! key)
    ∧ dom (registry w')
      = list_to_set ((λ op, (DOMAIN_STRING +:+ "::" +:+ op, 1%Z)) <$> SUPPORTED_QONNX)
        ∪ dom (registry w).
Proof.
  intros w. eexists. split; [reflexivity|]. simpl.
  repeat split.
  - by rewrite lookup_insert_ne, lookup_insert_eq.
  - by rewrite lookup_insert_eq.
  - intros key H1 H2. by rewrite !lookup_insert_ne.
  - rewrite !dom_insert_L. set_solver.
Qed.

(** * Host operations *)

Lemma wp_read_only {A} (c : M A) P Q E D w :
  read_only c P → (∀ a, P a → Q a w) → (∀ e, host_error e → E e w) → wp c Q E D w.
Proof.
  intros Hc HQ HE. unfold wp. specialize (Hc w).
  destruct (c w); naive_solver.
Qed.

Lemma read_only_bind {A B} (c : M A) (k : A → M B) P P' :
  read_only c P → (∀ a, P a → read_only (k a) P') → read_only (bind c k) P'.
Proof.
  intros Hc Hk w. unfold bind. specialize (Hc w).
  destruct (c w) as [a w'| |]; [|done..].
  destruct Hc as [-> Ha]. apply (Hk a Ha).
Qed.

Lemma read_only_ret {A} (a : A) (P : A → Prop) : P a → read_only (ret a) P.
Proof. by intros Ha w. Qed.

Lemma read_only_raise {A} e (P : A → Prop) : host_error e → read_only (raise e) P.
Proof. by intros He w. Qed.

Lemma read_only_mono {A} (c : M A) (P P' : A → Prop) :
  read_only c P → (∀ a, P a → P' a) → read_only c P'.
Proof. intros Hc HP w. specialize (Hc w). destruct (c w); naive_solver. Qed.

Lemma read_only_get_heap_then {A} (k : gmap loc object → M A) P :
  (∀ h, read_only (k h) P) → read_only (bind get_heap k) P.
Proof. intros Hk w. unfold bind, get_heap. apply Hk. Qed.

Lemma read_only_truthy v : read_only (truthy v) (λ _, True).
Proof.
  destruct v as [| | | |[sh [|e [|? ?]]]| |]; simpl;
    try (by apply read_only_ret); apply read_only_raise; simpl;
    repeat split; try done; intros n; simpl; discriminate.
Qed.

Lemma read_only_getattr v n :
  read_only (getattr v n) (λ _, True).
Proof.
  unfold getattr. apply read_only_get_heap_then. intros h.
  destruct (getattr_in h v n); [by apply read_only_ret|by apply read_only_raise].
Qed.

Lemma read_only_isinstance v c : read_only (isinstance v c) (λ _, True).
Proof. intros w. done. Qed.

Lemma read_only_tensor_of e v :
  host_error e → read_only (tensor_of e v) (λ _, True).
Proof.
  intros He. destruct v; simpl; try (by apply read_only_raise); try (by apply read_only_ret).
  eapply read_only_bind; [apply read_only_isinstance|]. intros [] _.
  - eapply read_only_bind; [apply read_only_getattr|]. intros d _.
    destruct d; try (by apply read_only_raise); by apply read_only_ret.
  - by apply read_only_raise.
Qed.

Lemma read_only_torch_tensor v : read_only (torch_tensor v) nonref.
Proof.
  destruct v; simpl;
    try (by apply read_only_ret); try (apply read_only_raise; host_err).
  apply read_only_get_heap_then. intros h.
  destruct (class_of h (VRef l)) as [c|]; [|by apply read_only_raise].
  destruct c; try (apply read_only_raise; host_err).
  eapply read_only_bind; [exact (read_only_tensor_of TypeError (VRef l) I)|].
  intros t _. by apply read_only_ret.
Qed.

Lemma read_only_shape_index v i : read_only (shape_index v i) nonref.
Proof.
  unfold shape_index. eapply read_only_bind; [by apply read_only_tensor_of|].
  intros t _. destruct (shape t !! i); [by apply read_only_ret|by apply read_only_raise].
Qed.

Lemma read_only_hasattr v n : read_only (hasattr v n) (λ _, True).
Proof. intros w. done. Qed.

Lemma wp_alloc o Q E D w :
  (∀ l w', heap w !! l = None → heap w' = <[l := o]> (heap w) → Q (VRef l) w') →
  wp (alloc o) Q E D w.
Proof.
  intros HQ. unfold wp, alloc. apply HQ; [|done].
  apply not_elem_of_dom, is_fresh.
Qed.

Lemma wp_setattr l o n x Q E D w :
  heap w !! l = Some o →
  (∀ w', heap w' = <[l := set_field n x o]> (heap w) → Q tt w') →
  wp (setattr (VRef l) n x) Q E D w.
Proof.
  intros Hl HQ. unfold wp, setattr, bind, get_heap. simpl. rewrite Hl. by apply HQ.
Qed.

Lemma wp_getattr v n Q E D w :
  match getattr_in (heap w) v n with
  | Some x => Q x w
  | None => E (AttributeError n) w
  end → wp (getattr v n) Q E D w.
Proof. unfold wp, getattr, bind, get_heap. by destruct (getattr_in (heap w) v n). Qed.

(** * The constructors of the export modules *)

Lemma built_from_refl h layer : built_from h h layer.
Proof. split; [done|]. intros l o Hn Hs. congruence. Qed.

Lemma built_from_alloc h0 hc layer l o :
  built_from h0 hc layer → hc !! l = None → walk_class (cls o) = false →
  (∀ name l2, fields o !! name = Some (VRef l2) →
     h0 !! l2 = None ∨ ∃ n, getattr_in h0 layer n = Some (VRef l2)) →
  built_from h0 (<[l := o]> hc) layer.
Proof.
  intros [Hsub Hnew] Hl Hc Hrefs. split.
  - etrans; [done|]. by apply insert_subseteq.
  - intros l' o' Hn Hs. destruct (decide (l = l')) as [->|Hne].
    + rewrite lookup_insert_eq in Hs. by simplify_eq.
    + rewrite lookup_insert_ne in Hs by done. eauto.
Qed.

Lemma built_from_set_new h0 hc layer l o n x :
  built_from h0 hc layer → h0 !! l = None → hc !! l = Some o → nonref x →
  built_from h0 (<[l := set_field n x o]> hc) layer.
Proof.
  intros [Hsub Hnew] Hl Ho Hx. split.
  - apply map_subseteq_spec. intros l' o' Hl'.
    rewrite lookup_insert_ne by congruence.
    by eapply (lookup_weaken h0 hc).
  - intros l' o' Hn Hs. destruct (decide (l = l')) as [->|Hne].
    + rewrite lookup_insert_eq in Hs. simplify_eq.
      destruct (Hnew _ _ Hn Ho) as [Hc Hr]. split; [done|].
      intros name l2 Hf. simpl in Hf.
      destruct (decide (n = name)) as [->|Hnn].
      * rewrite lookup_insert_eq in Hf. simplify_eq. by destruct (Hx l2).
      * rewrite lookup_insert_ne in Hf by done. eauto.
    + rewrite lookup_insert_ne in Hs by done. eauto.
Qed.

Lemma ExportQuantConv2d_init_spec : ctor_spec ExportQuantConv2d ExportQuantConv2d_init.
Proof.
  intros layer w. unfold ExportQuantConv2d_init.
  apply wp_bind, wp_getattr.
  destruct (getattr_in (heap w) layer "conv") as [conv|] eqn:Hconv.
  - apply wp_alloc. intros l w' Hl Hw'. rewrite Hw'. split.
    + apply built_from_alloc; [apply built_from_refl|done|done|].
      intros name l2 Hf. simpl in Hf.
      apply lookup_insert_Some in Hf as [[<- ->]|[_ Hf]]; [eauto|done].
    + exists l, (Object ExportQuantConv2d (list_to_map [("conv", conv)])).
      by rewrite lookup_insert_eq.
  - split; [apply built_from_refl|done].
Qed.

Lemma ExportQuantAct_init_spec : ctor_spec ExportQuantAct ExportQuantAct_init.
Proof.
  intros layer w. unfold ExportQuantAct_init.
  assert (HE : ∀ e, host_error e → built_from (heap w) (heap w) layer ∧ host_error e).
  { intros e He. split; [apply built_from_refl|done]. }
  apply wp_bind. eapply wp_read_only; [apply read_only_getattr| |done]. intros sf _.
  apply wp_bind. eapply wp_read_only; [by apply read_only_tensor_of| |done]. intros scale _.
  apply wp_bind. eapply wp_read_only;
    [exact (read_only_torch_tensor (VInt 0))| |done]. intros zp Hzp.
  apply wp_bind. eapply wp_read_only; [apply read_only_getattr| |done]. intros fp _.
  apply wp_bind. eapply wp_read_only; [apply read_only_truthy| |done]. intros full _.
  apply wp_bind. eapply (wp_read_only _ nonref); [| |done].
  { destruct full; [exact (read_only_torch_tensor (VInt 32))|].
    eapply read_only_bind; [apply read_only_getattr|].
    intros ab _. apply read_only_torch_tensor. }
  intros bw Hbw.
  apply wp_bind. eapply wp_read_only; [apply read_only_getattr| |done]. intros qm _.
  apply wp_alloc. intros l w' Hl Hw'. rewrite Hw'. split.
  - apply built_from_alloc; [apply built_from_refl|done|done|].
    intros name l2 Hf. simpl in Hf.
    repeat (apply lookup_insert_Some in Hf as [[<- Hf]|[_ Hf]];
            [first [by destruct (Hzp l2)|by destruct (Hbw l2)|by case_bool_decide|done]|]).
    done.
  - eexists l, _. by rewrite lookup_insert_eq.
Qed.

Lemma wp_new_parameter h0 layer shp Q E D w :
  built_from h0 (heap w) layer →
  (∀ lp op w', built_from h0 (heap w') layer → heap w !! lp = None →
     heap w' = <[lp := op]> (heap w) → Q (VRef lp) w') →
  wp (new_parameter shp) Q E D w.
Proof.
  intros Hb HQ. unfold new_parameter. apply wp_alloc. intros l w' Hl Hw'.
  eapply HQ; [|done|done]. rewrite Hw'.
  apply built_from_alloc; [done..|].
  intros name l2 Hf. simpl in Hf.
  repeat (apply lookup_insert_Some in Hf as [[<- Hf]|[_ Hf]]; [done|]). done.
Qed.

Lemma built_from_None h0 hc layer l : built_from h0 hc layer → hc !! l = None → h0 !! l = None.
Proof.
  intros [Hsub _] Hl. destruct (h0 !! l) eqn:H0; [|done].
  by rewrite (lookup_weaken _ _ _ _ H0 Hsub) in Hl.
Qed.

Lemma wp_torch_nn_Linear h0 layer i o bias Q E D w :
  built_from h0 (heap w) layer → nonref i → nonref o →
  (∀ lf obj w', built_from h0 (heap w') layer → h0 !! lf = None →
     heap w' !! lf = Some obj → cls obj = Linear →
     (∃ v, fields obj !! "weight" = Some v ∧ fresh_param h0 (heap w') lf v) →
     (bias = true → ∃ v, fields obj !! "bias" = Some v ∧ fresh_param h0 (heap w') lf v) →
     Q (VRef lf) w') →
  (∀ e, host_error e → E e w) →
  wp (torch_nn_Linear i o bias) Q E D w.
Proof.
  intros Hb Hi Ho HQ HE. unfold torch_nn_Linear.
  destruct i; try (by apply wp_raise, HE). destruct o; try (by apply wp_raise, HE).
  apply wp_bind. eapply wp_new_parameter; [done|]. intros lw ow w1 Hb1 Hlw Hw1.
  apply wp_bind.
  pose proof (built_from_None _ _ _ _ Hb Hlw) as Hlw0.
  assert (Hnew : ∀ (b : value) w2,
             built_from h0 (heap w2) layer →
             heap w2 !! lw = Some ow →
             (bias = true → ∃ lb ob, b = VRef lb ∧ h0 !! lb = None
                                    ∧ heap w2 !! lb = Some ob) →
             nonref b ∨ (∃ lb, b = VRef lb ∧ h0 !! lb = None) →
             wp (alloc (Object Linear
                   (list_to_map [("in_features", VInt z); ("out_features", VInt z0);
                                 ("weight", VRef lw); ("bias", b)])))
                Q E D w2).
  { intros b w2 Hb2 Hlw2 Hbias Hbref. apply wp_alloc. intros lf w3 Hlf Hw3.
    assert (lw ≠ lf) by congruence.
    pose proof (built_from_None _ _ _ _ Hb2 Hlf) as Hlf0.
    eapply HQ; rewrite ?Hw3.
    - apply built_from_alloc; [done..|]. intros name l2 Hf. simpl in Hf.
      repeat (apply lookup_insert_Some in Hf as [[<- Hf]|[_ Hf]]; [|]); try done.
      + simplify_eq. by left.
      + destruct Hbref as [Hn|(lb&->&?)]; [by destruct (Hn l2)|]. simplify_eq. by left.
    - done.
    - by rewrite lookup_insert_eq.
    - done.
    - exists (VRef lw). split; [done|]. exists lw, ow.
      rewrite lookup_insert_ne by done. by repeat split.
    - intros Hbi. destruct (Hbias Hbi) as (lb&ob&->&?&?). exists (VRef lb).
      split; [done|]. exists lb, ob.
      rewrite lookup_insert_ne by congruence. repeat split; try done. congruence. }
  destruct bias.
  - eapply wp_new_parameter; [done|]. intros lb ob w2 Hb2 Hlb Hw2.
    assert (lw ≠ lb). { intros ->. rewrite Hw1, lookup_insert_eq in Hlb. done. }
    apply Hnew; [done| | |].
    + rewrite Hw2, lookup_insert_ne by done. by rewrite Hw1, lookup_insert_eq.
    + intros _. exists lb, ob. rewrite Hw2, lookup_insert_eq.
      repeat split; try done. by eapply (built_from_None _ _ _ _ Hb1).
    + right. exists lb. split; [done|]. by eapply (built_from_None _ _ _ _ Hb1).
  - apply wp_ret. apply Hnew; [done| | |].
    + by rewrite Hw1, lookup_insert_eq.
    + done.
    + by left.
Qed.

Lemma fresh_param_set h0 hc lf lp op n x v :
  hc !! lp = Some op → fresh_param h0 hc lf v →
  fresh_param h0 (<[lp := set_field n x op]> hc) lf v.
Proof.
  intros Hlp (lq&oq&->&?&?&?). destruct (decide (lp = lq)) as [->|Hne].
  - exists lq, (set_field n x op). by rewrite lookup_insert_eq.
  - exists lq, oq. by rewrite lookup_insert_ne.
Qed.

(** [fc.<m>.data = layer.<n>] *)
Lemma wp_assign_data h0 layer lf obj n m Q E D w :
  built_from h0 (heap w) layer → heap w !! lf = Some obj →
  (∃ v, fields obj !! m = Some v ∧ fresh_param h0 (heap w) lf v) →
  (∀ w', built_from h0 (heap w') layer → heap w' !! lf = Some obj →
         (∀ v, fresh_param h0 (heap w) lf v → fresh_param h0 (heap w') lf v) →
         Q tt w') →
  (∀ e, host_error e → E e w) →
  wp (let* x := getattr layer n in
      let* fx := getattr (VRef lf) m in set_data fx x) Q E D w.
Proof.
  intros Hb Hlf (v&Hm&lp&op&->&Hlp0&Hlp&Hne) HQ HE.
  apply wp_bind. eapply wp_read_only; [apply read_only_getattr| |done]. intros x _.
  apply wp_bind, wp_getattr. unfold getattr_in. simpl. rewrite Hlf. simpl. rewrite Hm.
  unfold set_data.
  apply wp_bind. eapply wp_read_only; [by apply read_only_tensor_of| |done]. intros t _.
  eapply wp_setattr; [done|]. intros w' Hw'. apply HQ; rewrite Hw'.
  - by apply built_from_set_new.
  - by rewrite lookup_insert_ne.
  - intros v. by apply fresh_param_set.
Qed.

Lemma wp_assign_data_then {B} h0 layer lf obj n m (k : M B) Q E D w :
  built_from h0 (heap w) layer → heap w !! lf = Some obj →
  (∃ v, fields obj !! m = Some v ∧ fresh_param h0 (heap w) lf v) →
  (∀ w', built_from h0 (heap w') layer → heap w' !! lf = Some obj →
         (∀ v, fresh_param h0 (heap w) lf v → fresh_param h0 (heap w') lf v) →
         wp k Q E D w') →
  (∀ e, host_error e → E e w) →
  wp (let* x := getattr layer n in
      let* fx := getattr (VRef lf) m in set_data fx x >> k) Q E D w.
Proof.
  intros Hb Hlf (v&Hm&lp&op&->&Hlp0&Hlp&Hne) HQ HE.
  apply wp_bind. eapply wp_read_only; [apply read_only_getattr| |done]. intros x _.
  apply wp_bind, wp_getattr. unfold getattr_in. simpl. rewrite Hlf. simpl. rewrite Hm.
  apply wp_bind. unfold set_data.
  apply wp_bind. eapply wp_read_only; [by apply read_only_tensor_of| |done]. intros t _.
  eapply wp_setattr; [done|]. intros w' Hw'. apply HQ; rewrite Hw'.
  - by apply built_from_set_new.
  - by rewrite lookup_insert_ne.
  - intros v. by apply fresh_param_set.
Qed.

Lemma ExportQuantLinear_init_spec : ctor_spec ExportQuantLinear ExportQuantLinear_init.
Proof.
  intros layer w. unfold ExportQuantLinear_init.
  assert (HE : ∀ e, host_error e → built_from (heap w) (heap w) layer ∧ host_error e).
  { intros e He. split; [apply built_from_refl|done]. }
  apply wp_bind. eapply wp_read_only; [apply read_only_getattr| |done]. intros w1 _.
  apply wp_bind. eapply wp_read_only; [apply read_only_shape_index| |done]. intros i Hi.
  apply wp_bind. eapply wp_read_only; [apply read_only_getattr| |done]. intros w0 _.
  apply wp_bind. eapply wp_read_only; [apply read_only_shape_index| |done]. intros o Ho.
  apply wp_bind. eapply wp_read_only; [apply read_only_hasattr| |done]. intros has_bias _.
  apply wp_bind. eapply wp_torch_nn_Linear; [apply built_from_refl|done|done| |done].
  clear HE. intros lf obj w2 Hb2 Hlf0 Hlf Hcls Hwt Hbs.
  assert (HE : ∀ w', built_from (heap w) (heap w') layer →
                     ∀ e, host_error e → built_from (heap w) (heap w') layer ∧ host_error e)
    by done.
  assert (Hfin : ∀ w', built_from (heap w) (heap w') layer → heap w' !! lf = Some obj →
            wp (alloc (Object ExportQuantLinear (list_to_map [("fc", VRef lf)])))
              (λ v w'', built_from (heap w) (heap w'') layer
                        ∧ ∃ l o', v = VRef l ∧ heap w !! l = None
                                  ∧ heap w'' !! l = Some o' ∧ cls o' = ExportQuantLinear)
              (λ e w'', built_from (heap w) (heap w'') layer ∧ host_error e) False w').
  { intros w' Hb' Hlf'. apply wp_alloc. intros l w'' Hl Hw''. rewrite Hw''. split.
    - apply built_from_alloc; [done..|]. intros name l2 Hf. simpl in Hf.
      apply lookup_insert_Some in Hf as [[<- Hf]|[_ Hf]]; [|done]. simplify_eq. by left.
    - eexists l, _. rewrite lookup_insert_eq. repeat split; try done.
      by eapply built_from_None. }
  apply wp_bind.
  destruct has_bias.
  - apply wp_bind. eapply wp_read_only; [apply read_only_getattr| |by apply HE].
    intros ff _.
    apply wp_bind. eapply wp_read_only; [apply read_only_truthy| |by apply HE].
    intros fixed _.
    destruct fixed.
    + eapply wp_assign_data_then; [done..| |by apply HE]. intros w3 Hb3 Hlf3 Hfp3.
      eapply wp_assign_data; [done..| | |by apply HE].
      { destruct (Hbs eq_refl) as (v&?&?). eauto. }
      intros w4 Hb4 Hlf4 _. by apply Hfin.
    + eapply wp_assign_data_then; [done..| |by apply HE]. intros w3 Hb3 Hlf3 Hfp3.
      eapply wp_assign_data; [done..| | |by apply HE].
      { destruct (Hbs eq_refl) as (v&?&?). eauto. }
      intros w4 Hb4 Hlf4 _. by apply Hfin.
  - apply wp_bind. eapply wp_read_only; [apply read_only_getattr| |by apply HE].
    intros ff _.
    apply wp_bind. eapply wp_read_only; [apply read_only_truthy| |by apply HE].
    intros fixed _.
    destruct fixed.
    + eapply wp_assign_data; [done..| |by apply HE]. intros w3 Hb3 Hlf3 Hfp3.
      by apply Hfin.
    + eapply wp_assign_data; [done..| |by apply HE]. intros w3 Hb3 Hlf3 Hfp3.
      by apply Hfin.
Qed.

(** * The parameter loop *)

Lemma elem_of_refs_to h p l l' :
  l' ∈ refs_to h p l ↔
  ∃ o name o', h !! l = Some o ∧ fields o !! name = Some (VRef l')
               ∧ h !! l' = Some o' ∧ p (cls o') = true.
Proof.
  unfold refs_to. destruct (h !! l) as [o|] eqn:Hl.
  - rewrite elem_of_list_to_set, list_elem_of_omap. split.
    + intros ([name v]&Hin&Hv). apply elem_of_map_to_list in Hin. simpl in Hv.
      destruct v; try done. destruct (h !! l0) as [o'|] eqn:Hl0; [|done].
      destruct (p (cls o')) eqn:Hp; [|done]. simplify_eq. naive_solver.
    + intros (o1&name&o'&?&Hf&Hl'&Hp). simplify_eq.
      exists (name, VRef l'). split; [by apply elem_of_map_to_list|].
      simpl. by rewrite Hl', Hp.
  - split; [set_solver|]. by intros (?&?&?&?&?).
Qed.

Lemma elem_of_parameters_in h root v :
  v ∈ parameters_in h root →
  ∃ lp op, v = VRef lp ∧ h !! lp = Some op ∧ cls op = NNParameter.
Proof.
  unfold parameters_in. rewrite list_elem_of_fmap.
  intros (lp&->&Hin). apply elem_of_elements, elem_of_set_bind in Hin as (l&_&Hin).
  apply elem_of_refs_to in Hin as (o&name&o'&_&_&Hl'&Hp).
  apply bool_decide_eq_true in Hp. eauto.
Qed.

Lemma grad_off_refl h ps : grad_off h h ps.
Proof. intros l. by left. Qed.

Lemma wp_grad_loop ps w :
  (∀ v, v ∈ ps → ∃ lp op, v = VRef lp ∧ heap w !! lp = Some op ∧ cls op = NNParameter) →
  wp (for_each ps (λ param, requires_grad_ param false))
     (λ _ w', grad_off (heap w) (heap w') ps) (λ _ _, False) False w.
Proof.
  intros Hps.
  apply (wp_for_each (λ _ w', grad_off (heap w) (heap w') ps)); [apply grad_off_refl|].
  intros pre x post w' Hxs Hoff.
  destruct (Hps x) as (lp&op&->&Hlp&Hcls); [rewrite Hxs; set_solver|].
  unfold requires_grad_.
  assert (∃ o1, heap w' !! lp = Some o1
                ∧ set_field "requires_grad" (VBool false) o1
                  = set_field "requires_grad" (VBool false) op) as (o1&Hlp'&Hset).
  { destruct (Hoff lp) as [Heq|(o&_&?&?&Heq)].
    - exists op. by rewrite Heq.
    - simplify_eq. eexists. split; [done|]. unfold set_field. simpl.
      by rewrite insert_insert_eq. }
  eapply wp_setattr; [done|]. intros w'' Hw'' l. rewrite Hw''.
  destruct (decide (lp = l)) as [<-|Hne].
  - right. exists op. rewrite lookup_insert_eq, Hset.
    repeat split; try done. rewrite Hxs. set_solver.
  - rewrite lookup_insert_ne by done. apply Hoff.
Qed.

(** * [evolves] is a preorder kept by every step of the walk *)

Lemma walk_class_supported c : c ∈ SUPPORTED_LAYERS → walk_class c = true.
Proof. intros Hc. apply bool_decide_eq_true. set_solver. Qed.

Lemma walk_class_unsupported c : c ∈ UNSUPPORTED_LAYERS → walk_class c = true.
Proof. intros Hc. apply bool_decide_eq_true. set_solver. Qed.

Lemma isinstance_any_in_true h v cs :
  isinstance_any_in h v cs = true ↔ ∃ c, c ∈ cs ∧ class_of h v = Some c.
Proof.
  unfold isinstance_any_in. rewrite existsb_exists. split.
  - intros (c&Hin&Hc). apply bool_decide_eq_true in Hc. exists c.
    by rewrite list_elem_of_In.
  - intros (c&Hin&Hc). exists c. rewrite <- list_elem_of_In. split; [done|].
    by apply bool_decide_eq_true.
Qed.

Lemma class_of_Some h v c :
  class_of h v = Some c ↔ ∃ l o, v = VRef l ∧ h !! l = Some o ∧ cls o = c.
Proof.
  unfold class_of, lookup_obj. destruct v; simpl; try (split; [done|by intros (?&?&?&?)]).
  rewrite fmap_Some. split.
  - intros (o&?&?). eauto.
  - intros (?&o&?&?&?). simplify_eq. eauto.
Qed.

Lemma evolves_class_of h h' v c :
  evolves h h' → class_of h v = Some c → class_of h' v = Some c.
Proof.
  intros [He _] (l&o&->&Hl&<-)%class_of_Some.
  destruct (He _ _ Hl) as (o'&Hl'&Hc&_). apply class_of_Some. eauto.
Qed.

Lemma evolves_class_of_inv h h' v c :
  evolves h h' → class_of h' v = Some c → walk_class c = true → class_of h v = Some c.
Proof.
  intros [He Hn] (l&o'&->&Hl'&<-)%class_of_Some Hw.
  destruct (h !! l) as [o|] eqn:Hl.
  - destruct (He _ _ Hl) as (o''&Hl''&Hc&_). simplify_eq.
    apply class_of_Some. eauto.
  - rewrite (Hn _ _ Hl Hl') in Hw. done.
Qed.

Lemma evolves_lookup_None h h' v :
  evolves h h' → lookup_obj h' v = None → lookup_obj h v = None.
Proof.
  intros [He _] Hn. destruct v; try done. simpl in *.
  destruct (h !! l) as [o|] eqn:Hl; [|done].
  destruct (He _ _ Hl) as (o'&?&_). congruence.
Qed.

Lemma supported_in_true h v :
  supported_in h v = true ↔ ∃ c, c ∈ SUPPORTED_LAYERS ∧ class_of h v = Some c.
Proof. apply isinstance_any_in_true. Qed.

Lemma export_class_not_walk c : c ∈ SUPPORTED_LAYERS → walk_class (export_class c) = false.
Proof.
  unfold SUPPORTED_LAYERS. rewrite !elem_of_cons, elem_of_nil.
  intros [->|[->|[->|[]]]]; done.
Qed.

Lemma evolves_refl h : evolves h h.
Proof.
  split.
  - intros l o Hl. exists o. repeat split; try done. intros _ name. by left.
  - intros l o' Hn Hs. congruence.
Qed.

Lemma evolves_trans h1 h2 h3 : evolves h1 h2 → evolves h2 h3 → evolves h1 h3.
Proof.
  intros H12 H23. pose proof H12 as [He12 Hn12]. pose proof H23 as [He23 Hn23]. split.
  - intros l o1 Hl1.
    destruct (He12 _ _ Hl1) as (o2&Hl2&Hc2&Hf2).
    destruct (He23 _ _ Hl2) as (o3&Hl3&Hc3&Hf3).
    exists o3. repeat split; [done|congruence|].
    intros Hm name. specialize (Hf2 Hm name).
    rewrite <- Hc2 in Hm. specialize (Hf3 Hm name).
    destruct Hf3 as [Heq3|(x&x'&c&Hx&Hcx&Hc&Hx'&Hcx'&Hnew)].
    + destruct Hf2 as [Heq2|(x&x'&c&Hx&Hcx&Hc&Hx'&Hcx'&Hnew)].
      * left. congruence.
      * right. exists x, x', c. repeat split; try done; [congruence|].
        by eapply evolves_class_of.
    + destruct Hf2 as [Heq2|(y&y'&c'&Hy&Hcy&Hc'&Hy'&Hcy'&Hnewy)].
      * right. exists x, x', c. repeat split; try done; [congruence| |].
        -- eapply evolves_class_of_inv; [done..|]. by apply walk_class_supported.
        -- by eapply evolves_lookup_None.
      * simplify_eq. pose proof (export_class_not_walk _ Hc') as Hw.
        by rewrite walk_class_supported in Hw.
  - intros l o3 Hl1 Hl3. destruct (h2 !! l) as [o2|] eqn:Hl2.
    + destruct (He23 _ _ Hl2) as (o3'&Hl3'&Hc3&_). simplify_eq.
      rewrite Hc3. by eapply Hn12.
    + by eapply Hn23.
Qed.

Lemma built_from_evolves h h' layer : built_from h h' layer → evolves h h'.
Proof.
  intros [Hsub Hnew]. split.
  - intros l o Hl. exists o. split; [by eapply lookup_weaken|].
    split; [done|]. intros _ name. by left.
  - intros l o' Hn Hs. by destruct (Hnew _ _ Hn Hs).
Qed.

Lemma grad_off_evolves h h' ps : grad_off h h' ps → evolves h h'.
Proof.
  intros Hoff. split.
  - intros l o Hl. destruct (Hoff l) as [Heq|(o1&_&Hl1&Hc&Hl')].
    + exists o. rewrite Heq. repeat split; try done. intros _ name. by left.
    + simplify_eq. eexists. split; [done|]. split; [done|].
      rewrite Hc. done.
  - intros l o' Hn Hs. destruct (Hoff l) as [Heq|(o1&_&Hl1&_)]; congruence.
Qed.

Lemma evolves_replace h h' lm om name layer c le oe :
  h !! lm = Some om → fields om !! name = Some layer →
  class_of h layer = Some c → c ∈ SUPPORTED_LAYERS →
  built_from h h' layer → h !! le = None → h' !! le = Some oe →
  cls oe = export_class c →
  evolves h (<[lm := set_field name (VRef le) om]> h').
Proof.
  intros Hlm Hname Hcls Hc Hb Hle Hle' Hoe.
  pose proof (built_from_evolves _ _ _ Hb) as [He Hn].
  assert (lm ≠ le) by congruence.
  split.
  - intros l o Hl. destruct (decide (lm = l)) as [<-|Hne].
    + simplify_eq. eexists. rewrite lookup_insert_eq. split; [done|]. split; [done|].
      intros _ name'. simpl. destruct (decide (name = name')) as [<-|Hnn].
      * right. exists layer, (VRef le), c. rewrite lookup_insert_eq.
        repeat split; try done. apply class_of_Some. exists le, oe.
        by rewrite lookup_insert_ne.
      * left. by rewrite lookup_insert_ne.
    + rewrite lookup_insert_ne by done. exists o. split.
      * destruct Hb as [Hsub _]. by eapply lookup_weaken.
      * split; [done|]. intros _ name'. by left.
  - intros l o' Hnl Hs. rewrite lookup_insert_ne in Hs by congruence. by eapply Hn.
Qed.

(** * One step of the walk *)

Lemma wp_isinstance v c Q E D w :
  Q (isinstance_in (heap w) v c) w → wp (isinstance v c) Q E D w.
Proof. done. Qed.

Lemma wp_isinstance_any v cs Q E D w :
  Q (isinstance_any_in (heap w) v cs) w → wp (isinstance_any v cs) Q E D w.
Proof. done. Qed.

Lemma isinstance_in_class h v c : isinstance_in h v c = true ↔ class_of h v = Some c.
Proof. apply bool_decide_eq_true. Qed.

Lemma isinstance_in_not_class h v c : isinstance_in h v c = false ↔ class_of h v ≠ Some c.
Proof. apply bool_decide_eq_false. Qed.

Lemma wp_replace_with (ctor : value → M value) c lm om name layer
    (Q : unit → world → Prop) E D w :
  ctor_spec (export_class c) ctor →
  heap w !! lm = Some om →
  (∀ w1 le oe w', built_from (heap w) (heap w1) layer → heap w !! le = None →
     heap w1 !! le = Some oe → cls oe = export_class c →
     heap w' = <[lm := set_field name (VRef le) om]> (heap w1) → Q tt w') →
  (∀ e w', built_from (heap w) (heap w') layer → host_error e → E e w') →
  wp (let* e := ctor layer in setattr (VRef lm) name e) Q E D w.
Proof.
  intros Hctor Hlm HQ HE. apply wp_bind.
  eapply wp_mono; [apply Hctor| |naive_solver|done].
  intros v w1 (Hb&le&oe&->&Hle&Hle1&Hcls). simpl.
  eapply wp_setattr.
  { destruct Hb as [Hsub _]. by eapply lookup_weaken. }
  intros w' Hw'. by eapply HQ.
Qed.

Lemma wp_replace_layer recurse lm om name layer Q E D w :
  heap w !! lm = Some om → fields om !! name = Some layer →
  (∀ c w1 le oe w', c ∈ SUPPORTED_LAYERS → class_of (heap w) layer = Some c →
     built_from (heap w) (heap w1) layer → heap w !! le = None →
     heap w1 !! le = Some oe → cls oe = export_class c →
     heap w' = <[lm := set_field name (VRef le) om]> (heap w1) → Q tt w') →
  (∀ c e w', c ∈ SUPPORTED_LAYERS → class_of (heap w) layer = Some c →
     built_from (heap w) (heap w') layer → host_error e → E e w') →
  (class_of (heap w) layer = Some Sequential → wp (recurse layer) Q E D w) →
  (∀ c, c ∈ UNSUPPORTED_LAYERS → class_of (heap w) layer = Some c →
     E (RuntimeError ("Unsupported layer type found " +:+ class_name c)) w) →
  (inert (heap w) layer → Q tt w) →
  wp (replace_layer recurse (VRef lm) name) Q E D w.
Proof.
  intros Hlm Hname Hsup Hfail Hseq Hunsup Hinert. unfold replace_layer.
  apply wp_bind, wp_getattr. unfold getattr_in. simpl. rewrite Hlm. simpl. rewrite Hname.
  apply wp_bind, wp_isinstance.
  destruct (isinstance_in (heap w) layer QuantAct) eqn:H1.
  { apply isinstance_in_class in H1.
    eapply (wp_replace_with _ QuantAct); [apply ExportQuantAct_init_spec|done| |].
    - intros. eapply (Hsup QuantAct); eauto. set_solver.
    - intros. eapply (Hfail QuantAct); eauto. set_solver. }
  apply wp_bind, wp_isinstance.
  destruct (isinstance_in (heap w) layer QuantLinear) eqn:H2.
  { apply isinstance_in_class in H2.
    eapply (wp_replace_with _ QuantLinear); [apply ExportQuantLinear_init_spec|done| |].
    - intros. eapply (Hsup QuantLinear); eauto. set_solver.
    - intros. eapply (Hfail QuantLinear); eauto. set_solver. }
  apply wp_bind, wp_isinstance.
  destruct (isinstance_in (heap w) layer QuantConv2d) eqn:H3.
  { apply isinstance_in_class in H3.
    eapply (wp_replace_with _ QuantConv2d); [apply ExportQuantConv2d_init_spec|done| |].
    - intros. eapply (Hsup QuantConv2d); eauto. set_solver.
    - intros. eapply (Hfail QuantConv2d); eauto. set_solver. }
  apply wp_bind, wp_isinstance.
  destruct (isinstance_in (heap w) layer Sequential) eqn:H4.
  { apply isinstance_in_class in H4. by apply Hseq. }
  apply wp_bind, wp_isinstance_any.
  destruct (isinstance_any_in (heap w) layer UNSUPPORTED_LAYERS) eqn:H5.
  { apply isinstance_any_in_true in H5 as (c&Hc&Hcls).
    unfold _get_name. apply wp_bind, wp_bind. unfold wp, get_heap. rewrite Hcls. simpl.
    by apply Hunsup. }
  apply wp_ret, Hinert. intros c Hc.
  apply isinstance_in_not_class in H1, H2, H3, H4.
  destruct (walk_class c) eqn:Hw; [|done].
  apply bool_decide_eq_true in Hw. unfold SUPPORTED_LAYERS, UNSUPPORTED_LAYERS in Hw.
  assert (c ∈ UNSUPPORTED_LAYERS) as Hcu.
  { unfold UNSUPPORTED_LAYERS. set_solver. }
  assert (isinstance_any_in (heap w) layer UNSUPPORTED_LAYERS = true) as H6.
  { apply isinstance_any_in_true. eauto. }
  congruence.
Qed.

(** * The walk as a whole *)

Lemma grad_off_module h h' ps l o :
  grad_off h h' ps → h !! l = Some o → is_module (cls o) = true → h' !! l = Some o.
Proof.
  intros Hoff Hl Hm. destruct (Hoff l) as [->|(o1&_&?&Hc&_)]; [done|].
  simplify_eq. by rewrite Hc in Hm.
Qed.

Lemma wp_replace_layers_S (I : list string → world → Prop) fuel model Q E D w :
  (¬ (∃ lm om, model = VRef lm ∧ heap w !! lm = Some om ∧ is_module (cls om) = true) →
   E (AttributeError "parameters") w) →
  (∀ lm om w1, model = VRef lm → heap w !! lm = Some om → is_module (cls om) = true →
     grad_off (heap w) (heap w1) (parameters_in (heap w) lm) →
     I [] w1
     ∧ (∀ pre name post w', dir_obj om = pre ++ name :: post → I pre w' →
          wp (replace_layer (replace_layers fuel) model name)
             (λ _ w'', I (pre ++ [name]) w'') E D w')
     ∧ (∀ w', I (dir_obj om) w' → Q tt w')) →
  wp (replace_layers (S fuel) model) Q E D w.
Proof.
  intros Hnot Hloop. simpl. apply wp_bind.
  unfold parameters. apply wp_bind. unfold wp at 1, get_heap.
  destruct model as [| | | | |lm|]; try (apply wp_raise, Hnot; by intros (?&?&?&?)).
  unfold class_of. simpl. destruct (heap w !! lm) as [om|] eqn:Hlm; simpl;
    [|apply wp_raise, Hnot; intros (?&?&?&?&?); by simplify_eq].
  destruct (is_module (cls om)) eqn:Hm;
    [|apply wp_raise, Hnot; intros (?&?&?&?&?); simplify_eq; congruence].
  apply wp_ret, wp_bind.
  eapply wp_mono; [apply wp_grad_loop| |done|done].
  { intros v Hv. by apply elem_of_parameters_in in Hv. }
  intros [] w1 Hoff. simpl.
  destruct (Hloop lm om w1 eq_refl Hlm Hm Hoff) as (H0&Hstep&Hfin).
  apply wp_bind. unfold dir. apply wp_bind. unfold wp at 1, get_heap.
  apply wp_ret. unfold dir_in. simpl.
  rewrite (grad_off_module _ _ _ _ _ Hoff Hlm Hm).
  eapply wp_mono; [by apply (wp_for_each I)| |done|done].
  intros [] w' Hw'. by apply Hfin.
Qed.

Lemma evolves_module h h' lm om :
  evolves h h' → h !! lm = Some om → is_module (cls om) = true →
  ∃ om', h' !! lm = Some om' ∧ cls om' = cls om ∧ dir_obj om' = dir_obj om
         ∧ ∀ name, fields om' !! name = fields om !! name
                   ∨ ∃ x x' c, fields om !! name = Some x ∧ class_of h x = Some c
                               ∧ c ∈ SUPPORTED_LAYERS
                               ∧ fields om' !! name = Some x'
                               ∧ class_of h' x' = Some (export_class c)
                               ∧ lookup_obj h x' = None.
Proof.
  intros [He _] Hlm Hm. destruct (He _ _ Hlm) as (om'&Hlm'&Hc&Hf).
  exists om'. repeat split; try done; [|by apply Hf].
  unfold dir_obj. f_equal. f_equal. f_equal. apply set_eq. intros name.
  rewrite !elem_of_dom. destruct (Hf Hm name) as [->|(x&x'&c&->&_&_&->&_)]; naive_solver.
Qed.

Lemma replace_layers_evolves fuel : ∀ model w,
  wp (replace_layers fuel model)
     (λ _ w', evolves (heap w) (heap w'))
     (λ e w', evolves (heap w) (heap w') ∧ walk_error e) True w.
Proof.
  induction fuel as [|fuel IH]; intros model w; [done|].
  apply (wp_replace_layers_S (λ _ w', evolves (heap w) (heap w'))).
  { intros _. split; [apply evolves_refl|by left]. }
  intros lm om w1 -> Hlm Hm Hoff. split; [by eapply grad_off_evolves|]. split; [|done].
  intros pre name post w' Hdir Hev.
  destruct (evolves_module _ _ _ _ Hev Hlm Hm) as (om'&Hlm'&Hc'&Hdir'&Hf').
  assert (is_Some (fields om' !! name)) as [layer Hlayer].
  { assert (name ∈ dir_obj om') as Hin by (rewrite Hdir', Hdir; set_solver).
    by apply elem_of_dir_obj in Hin as [? _]. }
  eapply wp_replace_layer; [done..| | | | |].
  - intros c w1' le oe w'' Hc Hcls Hb Hle Hle1 Hoe Hw''.
    eapply evolves_trans; [done|]. rewrite Hw''. by eapply evolves_replace.
  - intros c e w'' Hc Hcls Hb He. split; [|by left].
    eapply evolves_trans; [done|]. by eapply built_from_evolves.
  - intros _. eapply wp_mono; [apply IH| | |done]; simpl.
    + intros. by eapply evolves_trans.
    + intros e w'' [? ?]. split; [by eapply evolves_trans|done].
  - intros c Hc Hcls. split; [done|]. right. eauto.
  - done.
Qed.

(** * Reachability under heap changes *)

Lemma is_module_in_obj h v :
  is_module_in h v ↔ ∃ l o, v = VRef l ∧ h !! l = Some o ∧ is_module (cls o) = true.
Proof.
  unfold is_module_in. split.
  - intros (c&(l&o&->&?&<-)%class_of_Some&?). eauto.
  - intros (l&o&->&?&?). exists (cls o). split; [|done]. apply class_of_Some. eauto.
Qed.

Lemma is_module_in_evolves h h' v : evolves h h' → is_module_in h v → is_module_in h' v.
Proof. intros Hev (c&Hc&Hm). exists c. split; [by eapply evolves_class_of|done]. Qed.

Lemma walk_reach_module h root x :
  is_module_in h root → walk_reach h root x → is_module_in h x.
Proof. intros Hroot Hx. destruct Hx; [done|]. by exists Sequential. Qed.

Lemma walk_reach_trans h a b c :
  walk_reach h a b → walk_reach h b c → walk_reach h a c.
Proof. intros Hab Hbc. induction Hbc; [done|]. by eapply walk_into. Qed.

Lemma walk_reach_first h root x :
  walk_reach h root x →
  x = root ∨ ∃ name y, holds h root name y ∧ class_of h y = Some Sequential
                       ∧ walk_reach h y x.
Proof.
  induction 1 as [|x name y Hx IH Hh Hc]; [by left|]. right.
  destruct IH as [->|(name0&y0&?&?&?)].
  - exists name, y. split; [done|]. split; [done|]. apply walk_here.
  - exists name0, y0. split; [done|]. split; [done|]. by eapply walk_into.
Qed.

Lemma holds_evolves h h' x name y :
  evolves h h' → is_module_in h x → holds h x name y →
  holds h' x name y
  ∨ ∃ y' c, class_of h y = Some c ∧ c ∈ SUPPORTED_LAYERS ∧ holds h' x name y'
            ∧ class_of h' y' = Some (export_class c) ∧ lookup_obj h y' = None.
Proof.
  intros Hev (l&o&->&Hl&Hm)%is_module_in_obj [Hdir Hget].
  destruct (evolves_module _ _ _ _ Hev Hl Hm) as (o'&Hl'&_&Hdir'&Hf).
  unfold holds, dir_in, getattr_in in *. simpl in *. rewrite Hl in Hdir, Hget.
  rewrite Hl'. simpl in *. rewrite Hdir'.
  destruct (Hf name) as [Heq|(x&x'&c&?&?&?&?&?&?)].
  - left. by rewrite Heq.
  - right. simplify_eq. exists x', c. by repeat split.
Qed.

Lemma holds_evolves_inv h h' x name y' :
  evolves h h' → is_module_in h x → holds h' x name y' →
  holds h x name y'
  ∨ ∃ y c, holds h x name y ∧ class_of h y = Some c ∧ c ∈ SUPPORTED_LAYERS
           ∧ class_of h' y' = Some (export_class c) ∧ lookup_obj h y' = None.
Proof.
  intros Hev (l&o&->&Hl&Hm)%is_module_in_obj [Hdir Hget].
  destruct (evolves_module _ _ _ _ Hev Hl Hm) as (o'&Hl'&_&Hdir'&Hf).
  unfold holds, dir_in, getattr_in in *. simpl in *. rewrite Hl' in Hdir, Hget.
  rewrite Hl. simpl in *. rewrite Hdir' in Hdir.
  destruct (Hf name) as [Heq|(x&x'&c&?&?&?&?&?&?)].
  - left. by rewrite <- Heq.
  - right. simplify_eq. exists x, c. by repeat split.
Qed.

Lemma not_supported_Sequential : Sequential ∉ SUPPORTED_LAYERS.
Proof. unfold SUPPORTED_LAYERS. set_solver. Qed.

Lemma export_class_not_Sequential c : c ∈ SUPPORTED_LAYERS → export_class c ≠ Sequential.
Proof.
  unfold SUPPORTED_LAYERS. rewrite !elem_of_cons, elem_of_nil.
  intros [->|[->|[->|[]]]]; done.
Qed.

Lemma walk_reach_evolves h h' root x :
  evolves h h' → is_module_in h root → walk_reach h root x → walk_reach h' root x.
Proof.
  intros Hev Hroot. induction 1 as [|x name y Hx IH Hh Hc]; [apply walk_here|].
  eapply walk_into; [done| |by eapply evolves_class_of].
  destruct (holds_evolves _ _ _ _ _ Hev (walk_reach_module _ _ _ Hroot Hx) Hh)
    as [?|(y'&c&Hc'&Hs&_)]; [done|].
  simplify_eq. by destruct not_supported_Sequential.
Qed.

Lemma walk_reach_evolves_inv h h' root x :
  evolves h h' → is_module_in h root → walk_reach h' root x → walk_reach h root x.
Proof.
  intros Hev Hroot. induction 1 as [|x name y Hx IH Hh Hc]; [apply walk_here|].
  destruct (holds_evolves_inv _ _ _ _ _ Hev (walk_reach_module _ _ _ Hroot IH) Hh)
    as [?|(y0&c&_&_&Hs&Hc'&_)].
  - eapply walk_into; [done..|]. by eapply evolves_class_of_inv.
  - simplify_eq. by destruct (export_class_not_Sequential c).
Qed.

Lemma export_class_not_quantized c :
  c ∈ SUPPORTED_LAYERS →
  (export_class c ∉ SUPPORTED_LAYERS) ∧ (export_class c ∉ UNSUPPORTED_LAYERS).
Proof.
  unfold SUPPORTED_LAYERS, UNSUPPORTED_LAYERS. rewrite !elem_of_cons, elem_of_nil.
  intros [->|[->|[->|[]]]]; simpl; set_solver.
Qed.

Lemma quantized_walk_class c :
  walk_class c = false → (c ∉ SUPPORTED_LAYERS) ∧ (c ∉ UNSUPPORTED_LAYERS).
Proof.
  intros Hw. split; intros Hc.
  - by rewrite walk_class_supported in Hw.
  - by rewrite walk_class_unsupported in Hw.
Qed.

Lemma walk_free_evolves h h' v :
  evolves h h' → is_module_in h v → walk_free h v → walk_free h' v.
Proof.
  intros Hev Hv Hfree x name y c Hx Hh Hc.
  apply (walk_reach_evolves_inv _ _ _ _ Hev Hv) in Hx.
  destruct (holds_evolves_inv _ _ _ _ _ Hev (walk_reach_module _ _ _ Hv Hx) Hh)
    as [Hh0|(y0&c0&_&_&Hs&Hc'&_)].
  - destruct (walk_class c) eqn:Hw; [|by apply quantized_walk_class].
    eapply Hfree; [done..|]. by eapply evolves_class_of_inv.
  - simplify_eq. by apply export_class_not_quantized.
Qed.

Lemma wp_conj {A} (c : M A) Q1 Q2 E1 E2 (D1 D2 : Prop) w :
  wp c Q1 E1 D1 w → wp c Q2 E2 D2 w →
  wp c (λ a w', Q1 a w' ∧ Q2 a w') (λ e w', E1 e w' ∧ E2 e w') (D1 ∧ D2) w.
Proof. unfold wp. by destruct (c w). Qed.

Lemma walk_class_Sequential : walk_class Sequential = true.
Proof. done. Qed.

Lemma getattr_in_evolves_inv h h' x name y' :
  evolves h h' → is_module_in h x → getattr_in h' x name = Some y' →
  getattr_in h x name = Some y'
  ∨ ∃ c, c ∈ SUPPORTED_LAYERS ∧ class_of h' y' = Some (export_class c).
Proof.
  intros Hev (l&o&->&Hl&Hm)%is_module_in_obj Hget.
  destruct (evolves_module _ _ _ _ Hev Hl Hm) as (o'&Hl'&_&_&Hf).
  unfold getattr_in in *. simpl in *. rewrite Hl' in Hget. rewrite Hl. simpl in *.
  destruct (Hf name) as [Heq|(x&x'&c&?&?&?&?&?&?)].
  - left. by rewrite <- Heq.
  - right. simplify_eq. eauto.
Qed.

Lemma done_attr_evolves h h' x name :
  evolves h h' → is_module_in h x → done_attr h x name → done_attr h' x name.
Proof.
  intros Hev Hx Hdone y' c' Hget Hc'.
  destruct (getattr_in_evolves_inv _ _ _ _ _ Hev Hx Hget) as [Hget0|(c&Hc&Hcls)].
  - destruct (walk_class c') eqn:Hw.
    + pose proof (evolves_class_of_inv _ _ _ _ Hev Hc' Hw) as Hc0.
      destruct (Hdone _ _ Hget0 Hc0) as (?&?&Hfree). split; [done|split; [done|]].
      intros ->. eapply walk_free_evolves; [done| |by apply Hfree].
      by exists Sequential.
    + destruct (quantized_walk_class _ Hw). split; [done|split; [done|]].
      intros ->. done.
  - simplify_eq. destruct (export_class_not_quantized _ Hc). split; [done|split; [done|]].
    intros Heq. by destruct (export_class_not_Sequential c).
Qed.

Lemma replace_layers_walk_free fuel : ∀ model w,
  wp (replace_layers fuel model) (λ _ w', walk_free (heap w') model) (λ _ _, True) True w.
Proof.
  induction fuel as [|fuel IH]; intros model w; [done|].
  apply (wp_replace_layers_S
           (λ pre w', evolves (heap w) (heap w')
                      ∧ ∀ name, name ∈ pre → done_attr (heap w') model name)).
  { done. }
  intros lm om w1 -> Hlm Hm Hoff.
  assert (Hmod : is_module_in (heap w) (VRef lm)).
  { apply is_module_in_obj. eauto. }
  split; [|split].
  - split; [by eapply grad_off_evolves|]. intros name Hin. by apply elem_of_nil in Hin.
  - intros pre name post w' Hdir [Hev Hdone].
    destruct (evolves_module _ _ _ _ Hev Hlm Hm) as (om'&Hlm'&Hc'&Hdir'&Hf').
    assert (is_Some (fields om' !! name)) as [layer Hlayer].
    { assert (name ∈ dir_obj om') as Hin by (rewrite Hdir', Hdir; set_solver).
      by apply elem_of_dir_obj in Hin as [? _]. }
    assert (Hmod' : is_module_in (heap w') (VRef lm)) by by eapply is_module_in_evolves.
    assert (Hget : getattr_in (heap w') (VRef lm) name = Some layer).
    { unfold getattr_in. simpl. by rewrite Hlm'. }
    assert (Hstep : ∀ w'', evolves (heap w') (heap w'') →
              done_attr (heap w'') (VRef lm) name →
              evolves (heap w) (heap w'')
              ∧ ∀ name0, name0 ∈ pre ++ [name] → done_attr (heap w'') (VRef lm) name0).
    { intros w'' Hev' Hnew. split; [by eapply evolves_trans|].
      intros name0 [Hin|Hin%list_elem_of_singleton]%elem_of_app.
      - eapply done_attr_evolves; [done..|]. by apply Hdone.
      - by subst. }
    eapply wp_replace_layer; [done..| | | | |].
    + intros c w1' le oe w'' Hc Hcls Hb Hle Hle1 Hoe Hw''. apply Hstep.
      * rewrite Hw''. by eapply evolves_replace.
      * intros y c0 Hy Hc0. rewrite Hw'' in Hy, Hc0. unfold getattr_in in Hy.
        simpl in Hy. rewrite lookup_insert_eq in Hy. simpl in Hy.
        rewrite lookup_insert_eq in Hy. simplify_eq.
        apply class_of_Some in Hc0 as (l&o&?&Hl&<-). simplify_eq.
        rewrite lookup_insert_ne in Hl by congruence. simplify_eq. rewrite Hoe.
        destruct (export_class_not_quantized _ Hc). split; [done|split; [done|]].
        intros Heq. by destruct (export_class_not_Sequential c).
    + done.
    + intros Hseq. eapply wp_mono;
        [apply wp_conj; [apply replace_layers_evolves|apply IH]| |done|done].
      simpl. intros _ w'' [Hev' Hfree]. apply Hstep; [done|].
      intros y c0 Hy Hc0.
      destruct (getattr_in_evolves_inv _ _ _ _ _ Hev' Hmod' Hy) as [Hy0|(c&Hc&Hcls)].
      * rewrite Hget in Hy0. simplify_eq.
        rewrite (evolves_class_of _ _ _ _ Hev' Hseq) in Hc0. simplify_eq.
        split; [set_solver|split; [set_solver|done]].
      * simplify_eq. destruct (export_class_not_quantized _ Hc). split; [done|split; [done|]].
        intros Heq. by destruct (export_class_not_Sequential c).
    + done.
    + intros Hinert. apply Hstep; [apply evolves_refl|].
      intros y c0 Hy Hc0. rewrite Hget in Hy. simplify_eq.
      pose proof (Hinert _ Hc0) as Hw. destruct (quantized_walk_class _ Hw).
      split; [done|split; [done|]]. intros ->. done.
  - intros w' [Hev Hdone] x name y c Hx Hh Hc.
    destruct (evolves_module _ _ _ _ Hev Hlm Hm) as (om'&Hlm'&Hc'&Hdir'&Hf').
    assert (Hdir : ∀ n z, holds (heap w') (VRef lm) n z → n ∈ dir_obj om).
    { intros n z [Hn _]. unfold dir_in in Hn. simpl in Hn. rewrite Hlm' in Hn.
      by rewrite <- Hdir'. }
    destruct (walk_reach_first _ _ _ Hx) as [->|(name0&y0&Hh0&Hc0&Hx0)].
    + destruct (Hdone name (Hdir _ _ Hh) y c) as (?&?&_); [by destruct Hh|done|done].
    + destruct (Hdone name0 (Hdir _ _ Hh0) y0 Sequential) as (_&_&Hfree);
        [by destruct Hh0|done|].
      by eapply (Hfree eq_refl).
Qed.

Lemma wp_trivial {A} (c : M A) w : wp c (λ _ _, True) (λ _ _, True) True w.
Proof. unfold wp. by destruct (c w). Qed.

Lemma replace_layers_Ret_module fuel model w w' :
  replace_layers fuel model w = Ret tt w' → is_module_in (heap w) model.
Proof.
  intros Hrun. destruct fuel as [|fuel]; [done|].
  assert (wp (replace_layers (S fuel) model)
            (λ _ _, is_module_in (heap w) model) (λ _ _, True) True w) as Hwp.
  { apply (wp_replace_layers_S (λ _ _, True)); [done|].
    intros lm om w1 -> Hlm Hm _. split; [done|]. split.
    - intros. apply wp_trivial.
    - intros _ _. apply is_module_in_obj. eauto. }
  unfold wp in Hwp. by rewrite Hrun in Hwp.
Qed.

(** * Substitution of the quantized layers *)

(** C1, as the code has it: when [replace_layers] returns, no attribute
    that [dir] lists on the model, or on a [Sequential] reached from it
    through such attributes, holds a layer of a supported quantized class
    any more; and every such attribute that held a [QuantAct],
    [QuantLinear] or [QuantConv2d] now holds a newly created
    [ExportQuantAct], [ExportQuantLinear] or [ExportQuantConv2d]. *)
Theorem replace_layers_substitutes :
  ∀ fuel model w w',
    replace_layers fuel model w = Ret tt w' →
    (∀ x name y, walk_reach (heap w') model x → holds (heap w') x name y →
       supported_in (heap w') y = false)
    ∧ (∀ x name y c, walk_reach (heap w) model x → holds (heap w) x name y →
         class_of (heap w) y = Some c → c ∈ SUPPORTED_LAYERS →
         ∃ y', holds (heap w') x name y'
               ∧ class_of (heap w') y' = Some (export_class c)
               ∧ lookup_obj (heap w) y' = None).
Proof.
  intros fuel model w w' Hrun.
  pose proof (replace_layers_Ret_module _ _ _ _ Hrun) as Hmod.
  pose proof (replace_layers_evolves fuel model w) as Hev.
  pose proof (replace_layers_walk_free fuel model w) as Hfree.
  unfold wp in Hev, Hfree. rewrite Hrun in Hev, Hfree.
  assert (Hsup : ∀ x name y, walk_reach (heap w') model x → holds (heap w') x name y →
            supported_in (heap w') y = false).
  { intros x name y Hx Hh. destruct (supported_in (heap w') y) eqn:Hs; [|done].
    apply supported_in_true in Hs as (c&Hc&Hcls).
    by destruct (Hfree _ _ _ _ Hx Hh Hcls) as [? _]. }
  split; [done|].
  intros x name y c Hx Hh Hcls Hc.
  destruct (holds_evolves _ _ _ _ _ Hev (walk_reach_module _ _ _ Hmod Hx) Hh)
    as [Hh'|(y'&c'&Hcls'&_&Hh'&Hexp&Hnew)].
  - pose proof (walk_reach_evolves _ _ _ _ Hev Hmod Hx) as Hx'.
    pose proof (evolves_class_of _ _ _ _ Hev Hcls) as Hcf.
    by destruct (Hfree _ _ _ _ Hx' Hh' Hcf) as [? _].
  - simplify_eq. eauto.
Qed.

Lemma replace_layers_substitutes_witness :
  let w' := final_world (replace_layers 2 (VRef 1) mnist_world) mnist_world in
  (∀ x name y, walk_reach (heap w') (VRef 1) x → holds (heap w') x name y →
     supported_in (heap w') y = false)
  ∧ (∀ x name y c, walk_reach mnist_heap (VRef 1) x → holds mnist_heap x name y →
       class_of mnist_heap y = Some c → c ∈ SUPPORTED_LAYERS →
       ∃ y', holds (heap w') x name y'
             ∧ class_of (heap w') y' = Some (export_class c)
             ∧ lookup_obj mnist_heap y' = None).
Proof.
  apply (replace_layers_substitutes 2 (VRef 1) mnist_world). vm_compute. reflexivity.
Defined.

(** C1 as the specification words it fails: a quantized activation held
    by a block that is not a [Sequential] is still in the module tree
    after [replace_layers] has returned. *)
Lemma replace_layers_skips_nested_block :
  ¬ (∀ fuel model w w',
       replace_layers fuel model w = Ret tt w' →
       ∀ x c, submodule (heap w') model x → class_of (heap w') x = Some c →
              c ∉ SUPPORTED_LAYERS).
Proof.
  intros Hclaim.
  apply (Hclaim 2 (VRef 1) nested_block_world nested_block_world eq_refl
           (VRef 3) QuantAct).
  - eapply (sub_child _ _ (VRef 2) "act"); [|done|by exists QuantAct].
    eapply (sub_child _ _ (VRef 1) "block"); [apply sub_here|done|].
    by exists (OtherModule "Block").
  - done.
  - unfold SUPPORTED_LAYERS. set_solver.
Qed.

(** * Unsupported layers, termination and footprint *)

Lemma holds_walk_class_inv h h' x name y c :
  evolves h h' → is_module_in h x → holds h' x name y →
  class_of h' y = Some c → walk_class c = true →
  holds h x name y ∧ class_of h y = Some c.
Proof.
  intros Hev Hx Hh Hc Hw.
  destruct (holds_evolves_inv _ _ _ _ _ Hev Hx Hh) as [?|(y0&c0&_&_&Hs&Hc'&_)].
  - split; [done|]. by eapply evolves_class_of_inv.
  - simplify_eq. by rewrite export_class_not_walk in Hw.
Qed.

Lemma holds_walk_class h h' x name y c :
  evolves h h' → is_module_in h x → holds h x name y →
  class_of h y = Some c → c ∉ SUPPORTED_LAYERS →
  holds h' x name y ∧ class_of h' y = Some c.
Proof.
  intros Hev Hx Hh Hc Hns.
  destruct (holds_evolves _ _ _ _ _ Hev Hx Hh) as [?|(y'&c'&Hc'&Hs&_)].
  - split; [done|]. by eapply evolves_class_of.
  - by simplify_eq.
Qed.

Lemma host_error_not_unsupported e n : host_error e → e ≠ unsupported_message n.
Proof. intros He ->. destruct He as (_&_&He). by apply (He n). Qed.

Lemma replace_layers_unsupported_origin fuel : ∀ model w,
  wp (replace_layers fuel model) (λ _ _, True)
     (λ e _, ∀ n, e = unsupported_message n →
        ∃ x name y c, walk_reach (heap w) model x ∧ holds (heap w) x name y
                      ∧ class_of (heap w) y = Some c ∧ c ∈ UNSUPPORTED_LAYERS
                      ∧ n = class_name c)
     True w.
Proof.
  induction fuel as [|fuel IH]; intros model w; [done|].
  eapply wp_mono; [|intros; exact I|intros ? ? H; exact H|done].
  apply (wp_replace_layers_S (λ _ w', evolves (heap w) (heap w'))
           _ _ (λ _ w', evolves (heap w) (heap w'))).
  { intros _ n. discriminate. }
  intros lm om w1 -> Hlm Hm Hoff.
  assert (Hmod : is_module_in (heap w) (VRef lm)).
  { apply is_module_in_obj. eauto. }
  split; [by eapply grad_off_evolves|]. split; [|done].
  intros pre name post w' Hdir Hev.
  destruct (evolves_module _ _ _ _ Hev Hlm Hm) as (om'&Hlm'&Hc'&Hdir'&Hf').
  assert (Hin : name ∈ dir_obj om') by (rewrite Hdir', Hdir; set_solver).
  assert (is_Some (fields om' !! name)) as [layer Hlayer].
  { by apply elem_of_dir_obj in Hin as [? _]. }
  assert (Hh : holds (heap w') (VRef lm) name layer).
  { unfold holds, dir_in, getattr_in. simpl. by rewrite Hlm'. }
  eapply wp_replace_layer; [done..| | | | |].
  - intros c w1' le oe w'' Hc Hcls Hb Hle Hle1 Hoe Hw''.
    eapply evolves_trans; [done|]. rewrite Hw''. by eapply evolves_replace.
  - intros c e w'' Hc Hcls Hb He n ->. by destruct (host_error_not_unsupported _ n He).
  - intros Hseq.
    destruct (holds_walk_class_inv _ _ _ _ _ _ Hev Hmod Hh Hseq eq_refl) as [Hh0 Hseq0].
    eapply wp_mono;
      [apply wp_conj; [apply replace_layers_evolves|apply IH]| | |done]; simpl.
    + intros _ w'' [Hev' _]. by eapply evolves_trans.
    + intros e w'' [_ Horigin] n ->.
      destruct (Horigin n eq_refl) as (x&name'&y&c&Hx&Hh'&Hc&Hcu&->).
      assert (Hlmod : is_module_in (heap w) layer) by by exists Sequential.
      pose proof (walk_reach_evolves_inv _ _ _ _ Hev Hlmod Hx) as Hx0.
      destruct (holds_walk_class_inv _ _ _ _ _ _ Hev
                  (walk_reach_module _ _ _ Hlmod Hx0) Hh' Hc
                  (walk_class_unsupported _ Hcu)) as [Hh'0 Hc0].
      exists x, name', y, c. split_and!; try done.
      eapply walk_reach_trans; [|done].
      eapply walk_into; [apply walk_here|done..].
  - intros c Hcu Hcls n [= Hn].
    destruct (holds_walk_class_inv _ _ _ _ _ _ Hev Hmod Hh Hcls
                (walk_class_unsupported _ Hcu)) as [Hh0 Hc0].
    exists (VRef lm), name, layer, c. split_and!; try done. apply walk_here.
  - done.
Qed.

Lemma seq_tree_child d h v name y :
  seq_tree (S d) h v = true → holds h v name y → class_of h y = Some Sequential →
  seq_tree d h y = true.
Proof.
  simpl. rewrite forallb_forall. intros Hall [Hdir Hget] Hc.
  specialize (Hall name). rewrite <- list_elem_of_In in Hall. specialize (Hall Hdir).
  rewrite Hget in Hall. apply isinstance_in_class in Hc. by rewrite Hc in Hall.
Qed.

Lemma seq_tree_evolves d : ∀ h h' v,
  evolves h h' → is_module_in h v → seq_tree d h v = true → seq_tree d h' v = true.
Proof.
  induction d as [|d IH]; intros h h' v Hev Hv Htree; [done|].
  simpl. apply forallb_forall. intros name Hin%list_elem_of_In.
  destruct (getattr_in h' v name) as [y'|] eqn:Hget; [|done].
  destruct (isinstance_in h' y' Sequential) eqn:Hseq; [|done].
  apply isinstance_in_class in Hseq.
  destruct (holds_walk_class_inv h h' v name y' Sequential) as [Hh0 Hc0]; try done.
  eapply IH; [done|by exists Sequential|]. by eapply seq_tree_child.
Qed.

Lemma replace_layers_terminates fuel : ∀ d model w,
  seq_tree d (heap w) model = true → (d ≤ fuel)%nat →
  wp (replace_layers fuel model) (λ _ _, True) (λ _ _, True) False w.
Proof.
  induction fuel as [|fuel IH]; intros d model w Htree Hd.
  { assert (d = 0) as -> by lia. done. }
  destruct d as [|d]; [done|].
  eapply wp_mono; [|intros; exact I|intros; exact I|intros H; exact H].
  apply (wp_replace_layers_S (λ _ w', evolves (heap w) (heap w'))
           _ _ (λ _ w', evolves (heap w) (heap w')) (λ _ _, True) False).
  { done. }
  intros lm om w1 -> Hlm Hm Hoff.
  assert (Hmod : is_module_in (heap w) (VRef lm)).
  { apply is_module_in_obj. eauto. }
  split; [by eapply grad_off_evolves|]. split; [|done].
  intros pre name post w' Hdir Hev.
  destruct (evolves_module _ _ _ _ Hev Hlm Hm) as (om'&Hlm'&Hc'&Hdir'&Hf').
  assert (Hin : name ∈ dir_obj om') by (rewrite Hdir', Hdir; set_solver).
  assert (is_Some (fields om' !! name)) as [layer Hlayer].
  { by apply elem_of_dir_obj in Hin as [? _]. }
  assert (Hh : holds (heap w') (VRef lm) name layer).
  { unfold holds, dir_in, getattr_in. simpl. by rewrite Hlm'. }
  eapply wp_replace_layer; [done..| | | | |].
  - intros c w1' le oe w'' Hc Hcls Hb Hle Hle1 Hoe Hw''.
    eapply evolves_trans; [done|]. rewrite Hw''. by eapply evolves_replace.
  - done.
  - intros Hseq.
    destruct (holds_walk_class_inv _ _ _ _ _ _ Hev Hmod Hh Hseq eq_refl) as [Hh0 Hseq0].
    assert (seq_tree d (heap w') layer = true) as Htree'.
    { eapply seq_tree_evolves; [done|by exists Sequential|].
      by eapply seq_tree_child. }
    eapply wp_mono;
      [apply wp_conj; [apply replace_layers_evolves|eapply (IH d); [done|lia]]
      | |done|by intros [_ ?]]; simpl.
    intros _ w'' [Hev' _]. by eapply evolves_trans.
  - done.
  - done.
Qed.

Lemma replace_layers_untouched fuel : ∀ model w,
  wp (replace_layers fuel model)
     (λ _ w', untouched model (heap w) (heap w'))
     (λ _ w', untouched model (heap w) (heap w')) True w.
Proof.
  induction fuel as [|fuel IH]; intros model w; [done|].
  apply (wp_mono _ (λ _ w', evolves (heap w) (heap w')
                            ∧ untouched model (heap w) (heap w')) _
           (λ _ w', untouched model (heap w) (heap w')) _ True);
    [|by intros ? ? [_ ?]|done|done].
  apply (wp_replace_layers_S
           (λ _ w', evolves (heap w) (heap w') ∧ untouched model (heap w) (heap w'))
           _ _ (λ _ w', evolves (heap w) (heap w') ∧ untouched model (heap w) (heap w'))
           (λ _ w', untouched model (heap w) (heap w')) True).
  { intros _ l o Hl _ _. done. }
  intros lm om w1 -> Hlm Hm Hoff.
  assert (Hmod : is_module_in (heap w) (VRef lm)).
  { apply is_module_in_obj. eauto. }
  split; [|split; [|done]].
  { split; [by eapply grad_off_evolves|]. intros l o Hl Hmo _.
    by eapply grad_off_module. }
  intros pre name post w' Hdir [Hev Hunt].
  destruct (evolves_module _ _ _ _ Hev Hlm Hm) as (om'&Hlm'&Hc'&Hdir'&Hf').
  assert (Hin : name ∈ dir_obj om') by (rewrite Hdir', Hdir; set_solver).
  assert (is_Some (fields om' !! name)) as [layer Hlayer].
  { by apply elem_of_dir_obj in Hin as [? _]. }
  assert (Hh : holds (heap w') (VRef lm) name layer).
  { unfold holds, dir_in, getattr_in. simpl. by rewrite Hlm'. }
  eapply wp_replace_layer; [done..| | | | |].
  - intros c w1' le oe w'' Hc Hcls Hb Hle Hle1 Hoe Hw''. split.
    + eapply evolves_trans; [done|]. rewrite Hw''. by eapply evolves_replace.
    + intros l o Hl Hmo Hnr. rewrite Hw''.
      rewrite lookup_insert_ne by (intros <-; apply Hnr, walk_here).
      destruct Hb as [Hsub _]. eapply lookup_weaken; [|done]. by apply Hunt.
  - intros c e w'' Hc Hcls Hb _ l o Hl Hmo Hnr.
    destruct Hb as [Hsub _]. eapply lookup_weaken; [|done]. by apply Hunt.
  - intros Hseq.
    destruct (holds_walk_class_inv _ _ _ _ _ _ Hev Hmod Hh Hseq eq_refl) as [Hh0 Hseq0].
    assert (Hlmod : is_module_in (heap w) layer) by by exists Sequential.
    assert (Hunt' : ∀ w'', untouched layer (heap w') (heap w'') →
                           untouched (VRef lm) (heap w) (heap w'')).
    { intros w'' Hu l o Hl Hmo Hnr. apply Hu; [by apply Hunt|done|].
      intros Hr. apply Hnr.
      eapply walk_reach_trans; [eapply walk_into; [apply walk_here|done..]|].
      by eapply walk_reach_evolves_inv. }
    eapply wp_mono;
      [apply wp_conj; [apply replace_layers_evolves|apply IH]| | |done]; simpl.
    + intros _ w'' [Hev' Hu]. split; [by eapply evolves_trans|by apply Hunt'].
    + intros e w'' [_ Hu]. by apply Hunt'.
  - done.
  - done.
Qed.

Lemma replace_layer_dispatch recurse model name layer w :
  getattr_in (heap w) model name = Some layer →
  replace_layer recurse model name w
  = dispatch recurse model name layer (class_of (heap w) layer) w.
Proof.
  intros Hget.
  unfold replace_layer, getattr, isinstance, isinstance_any, _get_name, bind, get_heap, ret.
  rewrite Hget. unfold isinstance_any_in, isinstance_in. cbv beta.
  destruct (class_of (heap w) layer) as [[]|] eqn:Hc; simpl;
    repeat first [rewrite Hc | case_bool_decide; simplify_eq | progress simpl];
    done.
Qed.

Lemma replace_layers_not_Ret fuel model w w' :
  (∃ x name y, walk_reach (heap w) model x ∧ holds (heap w) x name y
               ∧ unsupported_in (heap w) y = true) →
  replace_layers fuel model w ≠ Ret tt w'.
Proof.
  intros (x&name&y&Hx&Hh&Hu) Hrun.
  apply isinstance_any_in_true in Hu as (c&Hcu&Hc).
  pose proof (replace_layers_Ret_module _ _ _ _ Hrun) as Hmod.
  pose proof (replace_layers_evolves fuel model w) as Hev.
  pose proof (replace_layers_walk_free fuel model w) as Hfree.
  unfold wp in Hev, Hfree. rewrite Hrun in Hev, Hfree.
  assert (c ∉ SUPPORTED_LAYERS) as Hns.
  { revert Hcu. unfold SUPPORTED_LAYERS, UNSUPPORTED_LAYERS. set_solver. }
  destruct (holds_walk_class _ _ _ _ _ _ Hev (walk_reach_module _ _ _ Hmod Hx) Hh Hc Hns)
    as [Hh' Hc'].
  pose proof (walk_reach_evolves _ _ _ _ Hev Hmod Hx) as Hx'.
  by destruct (Hfree _ _ _ _ Hx' Hh' Hc') as [_ ?].
Qed.

(** C6: [replace_layers] walks the module tree depth first and dispatches
    on types.  One call sets the parameters' gradients off and then goes
    through [dir(model)] in order; at each attribute the class of the
    layer decides between replacing it, recursing into it (exactly when
    it is a [Sequential]), raising, and passing over it.  On a model
    whose [Sequential]s are nested at most [d] deep the walk ends
    (returns or raises) with fuel [d], and no module other than the model
    and the [Sequential]s reached from it is modified. *)
Theorem replace_layers_depth_first_walk :
  ∀ d fuel model w,
    seq_tree d (heap w) model = true → (d ≤ fuel)%nat →
    replace_layers fuel model w ≠ Diverge
    ∧ untouched model (heap w) (heap (final_world (replace_layers fuel model w) w))
    ∧ (∀ f, replace_layers (S f) model
            = (let* params := parameters model in
               for_each params (λ param, requires_grad_ param false) >>
               let* names := dir model in
               for_each names (replace_layer (replace_layers f) model)))
    ∧ (∀ f name layer w0,
         getattr_in (heap w0) model name = Some layer →
         replace_layer (replace_layers f) model name w0
         = dispatch (replace_layers f) model name layer (class_of (heap w0) layer) w0).
Proof.
  intros d fuel model w Htree Hd.
  pose proof (replace_layers_terminates fuel d model w Htree Hd) as Hterm.
  pose proof (replace_layers_untouched fuel model w) as Hunt.
  unfold wp in Hterm, Hunt. split_and!.
  - intros Hdiv. by rewrite Hdiv in Hterm.
  - destruct (replace_layers fuel model w); simpl; done.
  - done.
  - intros. by apply replace_layer_dispatch.
Qed.

Lemma replace_layers_depth_first_walk_witness :
  replace_layers 2 (VRef 1) mnist_world ≠ Diverge
  ∧ untouched (VRef 1) mnist_heap
      (heap (final_world (replace_layers 2 (VRef 1) mnist_world) mnist_world)).
Proof.
  destruct (replace_layers_depth_first_walk 2 2 (VRef 1) mnist_world)
    as (H1&H2&_); [by vm_compute|lia|].
  split; [exact H1|exact H2].
Defined.

(** C8: in the loop body a layer of a class in [UNSUPPORTED_LAYERS] makes
    [replace_layer] raise the [RuntimeError] naming its class, at the top
    level as in any nested call ([model] is the node being walked);
    [replace_layers] therefore never returns when such a layer is
    reached by the walk, and on a finite tree ends in an exception;
    conversely that [RuntimeError] is raised only when a layer of an
    unsupported class is reached, so a model holding only supported and
    non-quantized layers never causes it. *)
Theorem replace_layers_unsupported :
  ∀ fuel model w,
    (∀ recurse name layer c,
       getattr_in (heap w) model name = Some layer →
       class_of (heap w) layer = Some c → c ∈ UNSUPPORTED_LAYERS →
       replace_layer recurse model name w
       = Raise (unsupported_message (class_name c)) w)
    ∧ ((∃ x name y, walk_reach (heap w) model x ∧ holds (heap w) x name y
                    ∧ unsupported_in (heap w) y = true) →
       (∀ w', replace_layers fuel model w ≠ Ret tt w')
       ∧ (∀ d, seq_tree d (heap w) model = true → (d ≤ fuel)%nat →
               ∃ e w', replace_layers fuel model w = Raise e w' ∧ walk_error e))
    ∧ (∀ n w',
         replace_layers fuel model w = Raise (unsupported_message n) w' →
         ∃ x name y c, walk_reach (heap w) model x ∧ holds (heap w) x name y
                       ∧ class_of (heap w) y = Some c ∧ c ∈ UNSUPPORTED_LAYERS
                       ∧ n = class_name c).
Proof.
  intros fuel model w. split_and!.
  - intros recurse name layer c Hget Hc Hcu.
    rewrite (replace_layer_dispatch _ _ _ _ _ Hget), Hc.
    revert Hcu. unfold UNSUPPORTED_LAYERS. rewrite !elem_of_cons, elem_of_nil.
    by intros [->|[->|[->|[]]]].
  - intros Hreach. split; [intros w'; by apply replace_layers_not_Ret|].
    intros d Htree Hd.
    pose proof (replace_layers_terminates fuel d model w Htree Hd) as Hterm.
    pose proof (replace_layers_evolves fuel model w) as Hev.
    unfold wp in Hterm, Hev.
    destruct (replace_layers fuel model w) as [[] w'|e w'|] eqn:Hrun; [|by naive_solver|done].
    by destruct (replace_layers_not_Ret fuel model w w' Hreach).
  - intros n w' Hrun.
    pose proof (replace_layers_unsupported_origin fuel model w) as Horigin.
    unfold wp in Horigin. rewrite Hrun in Horigin. by apply Horigin.
Qed.

Lemma replace_layers_unsupported_witness :
  ∃ e w', replace_layers 2 (VRef 1) bn_world = Raise e w' ∧ walk_error e.
Proof.
  destruct (replace_layers_unsupported 2 (VRef 1) bn_world) as (_&H&_).
  destruct H as [_ H].
  - exists (VRef 2), "bn", (VRef 3). split_and!.
    + eapply (walk_into _ _ (VRef 1) "features"); [apply walk_here| |done].
      split; [|done]. vm_compute. left.
    + split; [|done]. vm_compute. left.
    + done.
  - apply (H 2); [by vm_compute|lia].
Defined.

(** * ExportQuantLinear *)

Lemma wp_tensor_of_in e v t Q E D w :
  tensor_in (heap w) v = Some t → Q t w → wp (tensor_of e v) Q E D w.
Proof.
  intros Ht HQ. destruct v; try done; simpl in *; [by simplify_eq|].
  unfold wp, bind, isinstance, get_heap, bind, ret, isinstance_in, class_of. simpl.
  destruct (heap w !! l) as [o|] eqn:Hl; [|done]. simpl.
  case_bool_decide as Hc; [|done].
  rewrite bool_decide_true by congruence.
  unfold getattr, bind, get_heap, getattr_in. simpl. rewrite Hl. simpl.
  destruct (fields o !! "data") as [[]|]; try done. by simplify_eq.
Qed.

Lemma wp_truthy_of v b Q E D w : truth_of v = Some b → Q b w → wp (truthy v) Q E D w.
Proof.
  intros Hb HQ. destruct v as [| | | |[sh [|e [|? ?]]]| |]; simpl in *; by simplify_eq.
Qed.

Lemma getattr_in_weaken h h' v n x :
  h ⊆ h' → getattr_in h v n = Some x → getattr_in h' v n = Some x.
Proof.
  intros Hsub. unfold getattr_in. destruct v; try done. simpl.
  destruct (h !! l) as [o|] eqn:Hl; [|done].
  by rewrite (lookup_weaken _ _ _ _ Hl Hsub).
Qed.

Lemma tensor_in_weaken h h' v t :
  h ⊆ h' → tensor_in h v = Some t → tensor_in h' v = Some t.
Proof.
  intros Hsub. destruct v; try done. simpl.
  destruct (h !! l) as [o|] eqn:Hl; [|done].
  by rewrite (lookup_weaken _ _ _ _ Hl Hsub).
Qed.

Lemma wp_shape_index v t i n Q E D w :
  tensor_in (heap w) v = Some t → shape t !! i = Some n → Q (VInt n) w →
  wp (shape_index v i) Q E D w.
Proof.
  intros Ht Hn HQ. unfold shape_index. apply wp_bind.
  eapply wp_tensor_of_in; [done|]. by rewrite Hn.
Qed.

Lemma wp_getattr_Some v n x Q E D w :
  getattr_in (heap w) v n = Some x → Q x w → wp (getattr v n) Q E D w.
Proof. intros Hx HQ. apply wp_getattr. by rewrite Hx. Qed.

(** [p.data = v] on a parameter [p], seen from outside. *)
Lemma wp_set_data_param lp op v t Q E D w :
  heap w !! lp = Some op → tensor_in (heap w) v = Some t →
  (∀ w', heap w' = <[lp := set_field "data" (VTensor t) op]> (heap w) → Q tt w') →
  wp (set_data (VRef lp) v) Q E D w.
Proof.
  intros Hlp Ht HQ. unfold set_data. apply wp_bind.
  eapply wp_tensor_of_in; [done|]. by eapply wp_setattr.
Qed.

Lemma insert_fresh_subseteq (h h' : gmap loc object) l o :
  h ⊆ h' → h' !! l = None → h ⊆ <[l := o]> h'.
Proof. intros Hsub Hl. etrans; [done|]. by apply insert_subseteq. Qed.

Lemma insert_new_subseteq (h h' : gmap loc object) l o :
  h ⊆ h' → h !! l = None → h ⊆ <[l := o]> h'.
Proof.
  intros Hsub Hl. apply map_subseteq_spec. intros l' o' Hl'.
  rewrite lookup_insert_ne by congruence. by eapply lookup_weaken.
Qed.

Lemma subseteq_None (h h' : gmap loc object) l : h ⊆ h' → h' !! l = None → h !! l = None.
Proof.
  intros Hsub Hl. destruct (h !! l) eqn:H0; [|done].
  by rewrite (lookup_weaken _ _ _ _ H0 Hsub) in Hl.
Qed.

(** C7: for a [QuantLinear] layer whose weight has shape [(o, i)],
    [ExportQuantLinear] builds a fresh [torch.nn.Linear] with
    [in_features = i] and [out_features = o], with a bias exactly when
    the layer has an attribute [bias]; the linear layer's weight receives
    the layer's [weight] when [fix_flag] is true and its [weight_integer]
    otherwise, and its bias (when there is one) receives the layer's
    [bias], respectively [bias_integer]; the objects that existed before
    are left as they were. *)
Theorem ExportQuantLinear_copies_attributes :
  ∀ layer w wv wt i o ff fixed sv st (bt : option tensor),
    getattr_in (heap w) layer "weight" = Some wv →
    tensor_in (heap w) wv = Some wt →
    shape wt !! 1%nat = Some i → shape wt !! 0%nat = Some o →
    getattr_in (heap w) layer "fix_flag" = Some ff → truth_of ff = Some fixed →
    getattr_in (heap w) layer (if fixed then "weight" else "weight_integer") = Some sv →
    tensor_in (heap w) sv = Some st →
    match bt with
    | Some t => ∃ bv, getattr_in (heap w) layer "bias" ≠ None
                      ∧ getattr_in (heap w) layer
                          (if fixed then "bias" else "bias_integer") = Some bv
                      ∧ tensor_in (heap w) bv = Some t
    | None => getattr_in (heap w) layer "bias" = None
    end →
    ∃ self fc w',
      ExportQuantLinear_init layer w = Ret (VRef self) w'
      ∧ heap w ⊆ heap w' ∧ heap w !! self = None
      ∧ heap w' !! self = Some (Object ExportQuantLinear (list_to_map [("fc", fc)]))
      ∧ linear_with (heap w') fc i o st bt.
Proof.
  intros layer w wv wt i o ff fixed sv st bt Hw Hwt Hi Ho Hff Hfixed Hsv Hst Hbias.
  cut (wp (ExportQuantLinear_init layer)
          (λ v w', ∃ self fc, v = VRef self ∧ heap w ⊆ heap w' ∧ heap w !! self = None
             ∧ heap w' !! self = Some (Object ExportQuantLinear (list_to_map [("fc", fc)]))
             ∧ linear_with (heap w') fc i o st bt)
          (λ _ _, False) False w).
  { unfold wp. destruct (ExportQuantLinear_init layer w) as [v w'| |]; [|done..].
    intros (self&fc&->&?). by exists self, fc, w'. }
  unfold ExportQuantLinear_init.
  apply wp_bind. eapply wp_getattr_Some; [done|].
  apply wp_bind. eapply wp_shape_index; [done..|].
  apply wp_bind. eapply wp_getattr_Some; [done|].
  apply wp_bind. eapply wp_shape_index; [done..|].
  apply wp_bind. unfold wp at 1. simpl.
  apply wp_bind. unfold torch_nn_Linear, new_parameter.
  apply wp_bind, wp_alloc. intros lw w1 Hlw Hw1.
  set (pw0 := Object NNParameter _) in Hw1.
  assert (Hsub1 : heap w ⊆ heap w1).
  { rewrite Hw1. by apply insert_fresh_subseteq. }
  assert (Hfin : ∀ w5 lf pb opw,
            heap w ⊆ heap w5 → heap w !! lf = None →
            heap w5 !! lf = Some (Object Linear
               (list_to_map [("in_features", VInt i); ("out_features", VInt o);
                             ("weight", VRef lw); ("bias", pb)])) →
            heap w5 !! lw = Some opw → cls opw = NNParameter →
            fields opw !! "data" = Some (VTensor st) → lw ≠ lf →
            match bt with Some t => param_with (heap w5) pb t ∧ (∀ l, pb = VRef l → heap w !! l = None) | None => pb = VNone end →
            wp (alloc (Object ExportQuantLinear (list_to_map [("fc", VRef lf)])))
              (λ v w', ∃ self fc, v = VRef self ∧ heap w ⊆ heap w' ∧ heap w !! self = None
                 ∧ heap w' !! self
                   = Some (Object ExportQuantLinear (list_to_map [("fc", fc)]))
                 ∧ linear_with (heap w') fc i o st bt)
              (λ _ _, False) False w5).
  { intros w5 lf pb opw Hsub5 Hlf0 Hlf Hlw5 Hcls Hdata Hne Hpb.
    apply wp_alloc. intros self w6 Hself Hw6.
    exists self, (VRef lf). rewrite Hw6. split_and!; try done.
    - by apply insert_fresh_subseteq.
    - by eapply subseteq_None.
    - by rewrite lookup_insert_eq.
    - exists lf, (VRef lw), pb. split_and!; try done.
      + rewrite lookup_insert_ne by congruence. done.
      + exists lw, opw. rewrite lookup_insert_ne by congruence. done.
      + destruct bt as [t|]; [|done]. destruct Hpb as [(lb&ob&->&?&?&?) _].
        exists lb, ob. rewrite lookup_insert_ne by congruence. done. }
  assert (Hlw0 : heap w !! lw = None) by done.
  destruct bt as [bt|].
  - destruct Hbias as (bv&Hhas&Hbv&Hbt).
    rewrite bool_decide_true by (by destruct (getattr_in (heap w) layer "bias")).
    apply wp_bind, wp_alloc. intros lb w2 Hlb Hw2.
    set (pb0 := Object NNParameter _) in Hw2.
    assert (Hneb : lw ≠ lb).
    { intros ->. by rewrite Hw1, lookup_insert_eq in Hlb. }
    assert (Hlb0 : heap w !! lb = None) by (by eapply subseteq_None).
    assert (Hsub2 : heap w ⊆ heap w2).
    { rewrite Hw2. by apply insert_fresh_subseteq. }
    apply wp_alloc. intros lf w3 Hlf Hw3.
    set (fc0 := Object Linear _) in Hw3.
    assert (Hlf0 : heap w !! lf = None) by (by eapply subseteq_None).
    assert (lw ≠ lf ∧ lb ≠ lf) as [Hnef Hnebf].
    { split; intros ->; rewrite Hw2 in Hlf.
      - by rewrite lookup_insert_ne, Hw1, lookup_insert_eq in Hlf.
      - by rewrite lookup_insert_eq in Hlf. }
    assert (Hsub3 : heap w ⊆ heap w3).
    { rewrite Hw3. by apply insert_fresh_subseteq. }
    assert (Hf3 : heap w3 !! lf = Some fc0) by (by rewrite Hw3, lookup_insert_eq).
    assert (Hw3w : heap w3 !! lw = Some pw0).
    { by rewrite Hw3, lookup_insert_ne, Hw2, lookup_insert_ne, Hw1, lookup_insert_eq. }
    assert (Hw3b : heap w3 !! lb = Some pb0).
    { by rewrite Hw3, lookup_insert_ne, Hw2, lookup_insert_eq. }
    apply wp_bind.
    apply wp_bind. eapply wp_getattr_Some; [by eapply getattr_in_weaken|].
    apply wp_bind. eapply wp_truthy_of; [done|].
    assert (Hsteps : ∀ wn bn,
              getattr_in (heap w) layer wn = Some sv →
              getattr_in (heap w) layer bn = Some bv →
              wp (let* w0 := getattr layer wn in
                  let* fw := getattr (VRef lf) "weight" in
                  set_data fw w0 >>
                  let* b := getattr layer bn in
                  let* fb := getattr (VRef lf) "bias" in set_data fb b)
                 (λ _ w', wp (alloc (Object ExportQuantLinear
                                       (list_to_map [("fc", VRef lf)])))
                    (λ v w', ∃ self fc, v = VRef self ∧ heap w ⊆ heap w'
                       ∧ heap w !! self = None
                       ∧ heap w' !! self
                         = Some (Object ExportQuantLinear (list_to_map [("fc", fc)]))
                       ∧ linear_with (heap w') fc i o st (Some bt))
                    (λ _ _, False) False w')
                 (λ _ _, False) False w3).
    { intros wn bn Hwn Hbn.
      apply wp_bind. eapply wp_getattr_Some; [by eapply getattr_in_weaken|].
      apply wp_bind. eapply wp_getattr_Some.
      { unfold getattr_in. simpl. rewrite Hf3. done. }
      apply wp_bind. eapply wp_set_data_param; [done|by eapply tensor_in_weaken|].
      intros w4 Hw4.
      assert (Hsub4 : heap w ⊆ heap w4).
      { rewrite Hw4. by apply insert_new_subseteq. }
      apply wp_bind. eapply wp_getattr_Some; [by eapply getattr_in_weaken|].
      apply wp_bind. eapply wp_getattr_Some.
      { unfold getattr_in. simpl. rewrite Hw4, lookup_insert_ne, Hf3 by done. done. }
      eapply wp_set_data_param;
        [by rewrite Hw4, lookup_insert_ne|by eapply tensor_in_weaken|].
      intros w5 Hw5.
      eapply (Hfin w5 lf (VRef lb)).
      - rewrite Hw5. by apply insert_new_subseteq.
      - done.
      - by rewrite Hw5, lookup_insert_ne, Hw4, lookup_insert_ne.
      - by rewrite Hw5, lookup_insert_ne, Hw4, lookup_insert_eq.
      - done.
      - done.
      - done.
      - split; [|by intros ? [= <-]].
        eexists lb, _. rewrite Hw5, lookup_insert_eq. done. }
    destruct fixed; by apply Hsteps.
  - rewrite bool_decide_false by (rewrite Hbias; by intros [? ?]).
    apply wp_bind, wp_ret.
    apply wp_alloc. intros lf w3 Hlf Hw3.
    set (fc0 := Object Linear _) in Hw3.
    assert (Hlf0 : heap w !! lf = None) by (by eapply subseteq_None).
    assert (Hnef : lw ≠ lf).
    { intros ->. by rewrite Hw1, lookup_insert_eq in Hlf. }
    assert (Hsub3 : heap w ⊆ heap w3).
    { rewrite Hw3. by apply insert_fresh_subseteq. }
    assert (Hf3 : heap w3 !! lf = Some fc0) by (by rewrite Hw3, lookup_insert_eq).
    assert (Hw3w : heap w3 !! lw = Some pw0).
    { by rewrite Hw3, lookup_insert_ne, Hw1, lookup_insert_eq. }
    apply wp_bind.
    apply wp_bind. eapply wp_getattr_Some; [by eapply getattr_in_weaken|].
    apply wp_bind. eapply wp_truthy_of; [done|].
    assert (Hsteps : ∀ wn,
              getattr_in (heap w) layer wn = Some sv →
              wp (let* w0 := getattr layer wn in
                  let* fw := getattr (VRef lf) "weight" in set_data fw w0)
                 (λ _ w', wp (alloc (Object ExportQuantLinear
                                       (list_to_map [("fc", VRef lf)])))
                    (λ v w', ∃ self fc, v = VRef self ∧ heap w ⊆ heap w'
                       ∧ heap w !! self = None
                       ∧ heap w' !! self
                         = Some (Object ExportQuantLinear (list_to_map [("fc", fc)]))
                       ∧ linear_with (heap w') fc i o st None)
                    (λ _ _, False) False w')
                 (λ _ _, False) False w3).
    { intros wn Hwn.
      apply wp_bind. eapply wp_getattr_Some; [by eapply getattr_in_weaken|].
      apply wp_bind. eapply wp_getattr_Some.
      { unfold getattr_in. simpl. rewrite Hf3. done. }
      eapply wp_set_data_param; [done|by eapply tensor_in_weaken|].
      intros w4 Hw4.
      eapply (Hfin w4 lf VNone).
      - rewrite Hw4. by apply insert_new_subseteq.
      - done.
      - by rewrite Hw4, lookup_insert_ne.
      - by rewrite Hw4, lookup_insert_eq.
      - done.
      - done.
      - done.
      - done. }
    destruct fixed; by apply Hsteps.
Qed.

Lemma ExportQuantLinear_copies_attributes_witness :
  ∃ self fc w',
    ExportQuantLinear_init (VRef 3) mnist_world = Ret (VRef self) w'
    ∧ heap mnist_world ⊆ heap w' ∧ heap mnist_world !! self = None
    ∧ heap w' !! self = Some (Object ExportQuantLinear (list_to_map [("fc", fc)]))
    ∧ linear_with (heap w') fc 3 2 (Tensor [2%Z; 3%Z] [6; 5; 4; 3; 2; 1]%Z)
        (Some (Tensor [2%Z] [9; 9]%Z)).
Proof.
  apply (ExportQuantLinear_copies_attributes (VRef 3) mnist_world (VRef 4)
           (Tensor [2%Z; 3%Z] [6; 5; 4; 3; 2; 1]%Z) 3 2 (VBool true) true (VRef 4));
    try reflexivity.
  exists (VRef 8). split_and!; [by vm_compute|reflexivity..].
Defined.

(** * ExportQuantAct *)

Lemma bind_getattr {B} v n x (k : value → M B) w :
  getattr_in (heap w) v n = Some x → bind (getattr v n) k w = k x w.
Proof. intros Hx. unfold getattr, bind, get_heap. by rewrite Hx. Qed.

Lemma bind_ret {A B} (a : A) (k : A → M B) w : bind (ret a) k w = k a w.
Proof. done. Qed.

(** C10: an [ExportQuantAct] built from a layer with scale [s], bit width
    [bw] (32 when the layer's [full_precision_flag] is set, its
    [activation_bit] otherwise) and quantization mode [qm] forwards [x]
    through [BinaryQuantFunc] with the scale alone exactly when [bw] is
    1, and otherwise through [QuantFunc] with the scale, the zero point
    0, [bw], [signed] (1 for the symmetric mode, else 0), [narrow_range]
    0 and the rounding mode [ROUND]; [act_scaling_factor] is returned as
    the second result as it came.  While a graph is traced this appends
    one [BipolarQuant] node with inputs [x] and the scale, respectively
    one [Quant] node. *)
Theorem ExportQuantAct_forward_dispatch :
  ∀ layer w sf s fp full ab qm,
    getattr_in (heap w) layer "act_scaling_factor" = Some sf →
    tensor_in (heap w) sf = Some s →
    getattr_in (heap w) layer "full_precision_flag" = Some fp →
    truth_of fp = Some full →
    (full = false → getattr_in (heap w) layer "activation_bit" = Some (VInt ab)) →
    getattr_in (heap w) layer "quant_mode" = Some qm →
    let bw := if full then 32%Z else ab in
    let signed := if bool_decide (qm = VStr "symmetric") then VInt 1 else VInt 0 in
    let scale := VTensor s in
    let zero_point := VTensor (Tensor [] [0%Z]) in
    let bit_width := VTensor (Tensor [] [bw]) in
    ∃ self w1,
      ExportQuantAct_init layer w = Ret (VRef self) w1
      ∧ heap w !! self = None
      ∧ ∀ w2 x act_scaling_factor weight_scaling_factor,
          heap w2 !! self = heap w1 !! self →
          ExportQuantAct_forward (VRef self) x act_scaling_factor weight_scaling_factor w2
          = (if (bw =? 1)%Z
             then let* r := BinaryQuantFunc_apply x scale in ret (r, act_scaling_factor)
             else let* r := QuantFunc_apply x scale zero_point bit_width
                              signed (VInt 0) (VStr "ROUND") in
                  ret (r, act_scaling_factor)) w2
          ∧ (tracing w2 = None →
             ExportQuantAct_forward (VRef self) x act_scaling_factor
               weight_scaling_factor w2 = Ret (x, act_scaling_factor) w2)
          ∧ (∀ g, tracing w2 = Some g →
             ExportQuantAct_forward (VRef self) x act_scaling_factor
               weight_scaling_factor w2
             = Ret (VNode (length g), act_scaling_factor)
                 (with_graph
                    (g ++ [if (bw =? 1)%Z
                           then Node "hawq_onnx::BipolarQuant" [x; scale] [] None
                           else Node "hawq_onnx::Quant"
                                  [x; scale; zero_point; bit_width]
                                  [("rounding_mode", AttrS "ROUND");
                                   ("signed",
                                    AttrI (if bool_decide (qm = VStr "symmetric")
                                           then 1 else 0));
                                   ("narrow", AttrI 0)]
                                  (Some "OptionalType.ofTensor")])
                    w2)).
Proof.
  intros layer w sf s fp full ab qm Hsf Hs Hfp Hfull Hab Hqm bw signed scale zero_point
    bit_width.
  set (obj := Object ExportQuantAct
                (list_to_map [("export_mode", VBool true); ("scale", scale);
                              ("zero_point", zero_point); ("bit_width", bit_width);
                              ("narrow_range", VInt 0); ("rounding_mode", VStr "ROUND");
                              ("signed", signed)])).
  assert (Hinit : wp (ExportQuantAct_init layer)
            (λ v w1, ∃ self, v = VRef self ∧ heap w !! self = None
                             ∧ heap w1 !! self = Some obj)
            (λ _ _, False) False w).
  { unfold ExportQuantAct_init.
    apply wp_bind. eapply wp_getattr_Some; [done|].
    apply wp_bind. eapply wp_tensor_of_in; [done|].
    apply wp_bind, wp_ret.
    apply wp_bind. eapply wp_getattr_Some; [done|].
    apply wp_bind. eapply wp_truthy_of; [done|].
    apply wp_bind.
    apply (wp_mono _ (λ v w', v = bit_width ∧ w' = w) _ (λ _ _, False) _ False).
    - subst bit_width bw. destruct full; [done|].
      apply wp_bind. eapply wp_getattr_Some; [by apply Hab|]. done.
    - intros v w' [-> ->].
      apply wp_bind. eapply wp_getattr_Some; [done|].
      apply wp_alloc. intros self w1 Hself Hw1. exists self.
      rewrite Hw1, lookup_insert_eq. done.
    - done.
    - done. }
  unfold wp in Hinit.
  destruct (ExportQuantAct_init layer w) as [v w1| |]; [|done..].
  destruct Hinit as (self&->&Hself&Hobj).
  exists self, w1. split; [done|]. split; [done|].
  intros w2 x asf wsf Hsame. rewrite Hobj in Hsame.
  assert (Hfwd : ExportQuantAct_forward (VRef self) x asf wsf w2
                 = (if (bw =? 1)%Z
                    then let* r := BinaryQuantFunc_apply x scale in ret (r, asf)
                    else let* r := QuantFunc_apply x scale zero_point bit_width
                                     signed (VInt 0) (VStr "ROUND") in
                         ret (r, asf)) w2).
  { assert (Hget : ∀ n v, fields obj !! n = Some v →
                       getattr_in (heap w2) (VRef self) n = Some v).
    { intros n v Hn. unfold getattr_in. simpl. by rewrite Hsame. }
    unfold ExportQuantAct_forward.
    rewrite (bind_getattr _ "bit_width" bit_width) by (by apply Hget).
    change (truthy (eq_int bit_width 1))
      with (ret (A:=bool) (negb (Z.b2z (bw =? 1)%Z =? 0)%Z)).
    rewrite bind_ret. destruct (bw =? 1)%Z; simpl.
    - by rewrite (bind_getattr _ "scale" scale) by (by apply Hget).
    - rewrite (bind_getattr _ "scale" scale) by (by apply Hget).
      rewrite (bind_getattr _ "zero_point" zero_point) by (by apply Hget).
      rewrite (bind_getattr _ "bit_width" bit_width) by (by apply Hget).
      rewrite (bind_getattr _ "signed" signed) by (by apply Hget).
      rewrite (bind_getattr _ "narrow_range" (VInt 0)) by (by apply Hget).
      by rewrite (bind_getattr _ "rounding_mode" (VStr "ROUND")) by (by apply Hget). }
  split; [done|]. rewrite Hfwd. split.
  - intros Htr. destruct (bw =? 1)%Z;
      unfold BinaryQuantFunc_apply, QuantFunc_apply, bind, get_tracing;
      by rewrite Htr.
  - intros g Htr. destruct (bw =? 1)%Z;
      unfold BinaryQuantFunc_apply, QuantFunc_apply, bind, get_tracing;
      rewrite Htr.
    + done.
    + erewrite (QuantFunc_symbolic_run g x scale zero_point bit_width signed
                  (VInt 0) "ROUND" _ 0%Z).
      * done.
      * subst signed. by case_bool_decide.
      * done.
Qed.

Lemma ExportQuantAct_forward_dispatch_witness :
  ∃ self w1,
    ExportQuantAct_init (VRef 2) mnist_world = Ret (VRef self) w1
    ∧ ExportQuantAct_forward (VRef self) (VNode 0) (VTensor (Tensor [1%Z] [7%Z])) VNone
        (with_graph [] w1)
      = Ret (VNode 0, VTensor (Tensor [1%Z] [7%Z]))
          (with_graph
             [Node "hawq_onnx::Quant"
                [VNode 0; VTensor (Tensor [1%Z] [7%Z]); VTensor (Tensor [] [0%Z]);
                 VTensor (Tensor [] [4%Z])]
                [("rounding_mode", AttrS "ROUND"); ("signed", AttrI 1);
                 ("narrow", AttrI 0)]
                (Some "OptionalType.ofTensor")]
             (with_graph [] w1)).
Proof.
  destruct (ExportQuantAct_forward_dispatch (VRef 2) mnist_world
              (VTensor (Tensor [1%Z] [7%Z])) (Tensor [1%Z] [7%Z]) (VBool false) false 4
              (VStr "symmetric")) as (self&w1&Hinit&_&Hfwd); try reflexivity.
  exists self, w1. split; [exact Hinit|].
  destruct (Hfwd (with_graph [] w1) (VNode 0) (VTensor (Tensor [1%Z] [7%Z])) VNone eq_refl)
    as (_&_&Hg).
  exact (Hg [] eq_refl).
Defined.

(** * The deep copy and the original *)

Lemma separate_refl h : separate h h.
Proof. split; [done|]. intros l o name l2 Hn Hs. congruence. Qed.

Lemma separate_insert_new h0 h l o :
  separate h0 h → h0 !! l = None → fields_new h0 (fields o) →
  separate h0 (<[l := o]> h).
Proof.
  intros [Hsub Hnew] Hl Hfs. split; [by apply insert_new_subseteq|].
  intros l1 o1 name l2 Hn Hs Hf. destruct (decide (l = l1)) as [<-|Hne].
  - rewrite lookup_insert_eq in Hs. simplify_eq. by eapply Hfs.
  - rewrite lookup_insert_ne in Hs by done. eauto.
Qed.

Lemma separate_getattr h0 h v n x :
  separate h0 h → new_in h0 v → getattr_in h v n = Some x → new_in h0 x.
Proof.
  intros [Hsub Hnew] Hv Hget l ->. unfold getattr_in in Hget.
  destruct v; try done. simpl in Hget.
  destruct (h !! l0) as [o|] eqn:Hl0; [|done]. simpl in Hget.
  eapply Hnew; [by apply Hv|done..].
Qed.

Lemma copy_items_separate h0 copy :
  copy_spec h0 copy →
  ∀ kvs acc memo w, separate h0 (heap w) → memo_new h0 memo → fields_new h0 acc →
    wp (copy_items copy kvs acc memo)
       (λ r w', separate h0 (heap w') ∧ fields_new h0 r.1 ∧ memo_new h0 r.2)
       (λ e w', separate h0 (heap w') ∧ e = ReferenceError) True w.
Proof.
  intros Hcopy. induction kvs as [|[k x] kvs IH]; intros acc memo w Hsep Hmemo Hacc; simpl.
  { by apply wp_ret. }
  apply wp_bind. eapply wp_mono; [by apply Hcopy| |done|done].
  intros [x' memo'] w' (Hsep'&Hx'&Hmemo'). simpl in *.
  apply IH; [done..|].
  intros k0 x0 [[<- <-]|[_ ?]]%lookup_insert_Some; [done|by eapply Hacc].
Qed.

Lemma deepcopy_separate h0 fuel : copy_spec h0 (deepcopy fuel).
Proof.
  induction fuel as [|fuel IH]; intros memo v w Hsep Hmemo.
  - destruct v; try (by apply wp_ret). simpl.
    destruct (memo !! l) as [l'|] eqn:Hl; [|done].
    apply wp_ret. split_and!; try done. intros ? [= <-]. by eapply Hmemo.
  - destruct v; try (by apply wp_ret). simpl.
    destruct (memo !! l) as [l'|] eqn:Hl.
    { apply wp_ret. split_and!; try done. intros ? [= <-]. by eapply Hmemo. }
    apply wp_bind. unfold wp at 1, get_heap.
    destruct (heap w !! l) as [o|] eqn:Ho; [|by apply wp_raise].
    apply wp_bind, wp_alloc. intros l' w1 Hl' Hw1.
    assert (Hl'0 : h0 !! l' = None).
    { destruct Hsep as [Hsub _]. by eapply subseteq_None. }
    apply wp_bind. eapply wp_mono; [apply (copy_items_separate h0 _ IH)| |done|done].
    + rewrite Hw1. by apply separate_insert_new.
    + intros l1 l2 [[<- <-]|[_ ?]]%lookup_insert_Some; [done|by eapply Hmemo].
    + done.
    + intros [fs memo'] w2 (Hsep2&Hfs&Hmemo2). simpl in *.
      apply wp_bind. unfold wp at 1, update_dict. apply wp_ret. simpl.
      split_and!; try done.
      * by apply separate_insert_new.
      * by intros ? [= <-].
Qed.

Lemma refs_to_new h0 h p l l' :
  separate h0 h → h0 !! l = None → l' ∈ refs_to h p l → h0 !! l' = None.
Proof.
  intros [_ Hnew] Hl (o&name&o'&Ho&Hf&_)%elem_of_refs_to. by eapply Hnew.
Qed.

Lemma modules_in_new h0 h lm l :
  separate h0 h → h0 !! lm = None → l ∈ modules_in h lm → h0 !! l = None.
Proof.
  intros Hsep Hlm. unfold modules_in. generalize (size h). intros n. revert l.
  induction n as [|n IH]; intros l; simpl.
  - by intros ->%elem_of_singleton.
  - intros [Hin|Hin]%elem_of_union; [by apply IH|].
    apply elem_of_set_bind in Hin as (l1&Hl1&Hin).
    eapply refs_to_new; [done| |done]. by apply IH.
Qed.

Lemma parameters_in_new h0 h lm v :
  separate h0 h → h0 !! lm = None → v ∈ parameters_in h lm → new_in h0 v.
Proof.
  intros Hsep Hlm. unfold parameters_in. rewrite list_elem_of_fmap.
  intros (lp&->&Hin) l [= <-].
  apply elem_of_elements, elem_of_set_bind in Hin as (l1&Hl1&Hin).
  eapply refs_to_new; [done| |done]. by eapply modules_in_new.
Qed.

Lemma separate_grad_off h0 h h' ps :
  separate h0 h → (∀ v, v ∈ ps → new_in h0 v) → grad_off h h' ps → separate h0 h'.
Proof.
  intros [Hsub Hnew] Hps Hoff. split.
  - apply map_subseteq_spec. intros l o Hl.
    destruct (Hoff l) as [->|(o1&Hin&_)]; [by eapply lookup_weaken|].
    by rewrite (Hps _ Hin l eq_refl) in Hl.
  - intros l o name l2 Hl Hs Hf.
    destruct (Hoff l) as [Heq|(o1&_&Ho1&_&Heq)].
    + rewrite Heq in Hs. eauto.
    + rewrite Heq in Hs. simplify_eq. simpl in Hf.
      apply lookup_insert_Some in Hf as [[_ ?]|[_ Hf]]; [done|]. eauto.
Qed.

Lemma separate_built_from h0 h h1 layer :
  separate h0 h → new_in h0 layer → built_from h h1 layer → separate h0 h1.
Proof.
  intros Hsep Hlayer [Hsub1 Hnew1]. pose proof Hsep as [Hsub Hnew]. split; [by etrans|].
  intros l o name l2 Hl Hs Hf. destruct (h !! l) as [o0|] eqn:Hl0.
  - rewrite (lookup_weaken _ _ _ _ Hl0 Hsub1) in Hs. simplify_eq. eauto.
  - destruct (Hnew1 _ _ Hl0 Hs) as [_ Hrefs].
    destruct (Hrefs _ _ Hf) as [?|(n&Hget)]; [by eapply subseteq_None|].
    by eapply (separate_getattr h0 h layer n (VRef l2)).
Qed.

Lemma replace_layers_separate h0 fuel : ∀ model w,
  separate h0 (heap w) → new_in h0 model →
  wp (replace_layers fuel model)
     (λ _ w', separate h0 (heap w')) (λ _ w', separate h0 (heap w')) True w.
Proof.
  induction fuel as [|fuel IH]; intros model w Hsep Hmodel; [done|].
  apply (wp_mono _ (λ _ w', evolves (heap w) (heap w') ∧ separate h0 (heap w')) _
           (λ _ w', separate h0 (heap w')) _ True);
    [|by intros ? ? [_ ?]|done|done].
  apply (wp_replace_layers_S
           (λ _ w', evolves (heap w) (heap w') ∧ separate h0 (heap w'))
           _ _ (λ _ w', evolves (heap w) (heap w') ∧ separate h0 (heap w'))
           (λ _ w', separate h0 (heap w')) True).
  { done. }
  intros lm om w1 -> Hlm Hm Hoff.
  pose proof (Hmodel lm eq_refl) as Hlm0.
  split; [|split; [|done]].
  { split; [by eapply grad_off_evolves|].
    eapply separate_grad_off; [done| |done].
    intros v Hv. by eapply parameters_in_new. }
  intros pre name post w' Hdir [Hev Hsep'].
  destruct (evolves_module _ _ _ _ Hev Hlm Hm) as (om'&Hlm'&Hc'&Hdir'&Hf').
  assert (Hin : name ∈ dir_obj om') by (rewrite Hdir', Hdir; set_solver).
  assert (is_Some (fields om' !! name)) as [layer Hlayer].
  { by apply elem_of_dir_obj in Hin as [? _]. }
  assert (Hlnew : new_in h0 layer).
  { eapply (separate_getattr h0 (heap w') (VRef lm) name); [done..|].
    unfold getattr_in. simpl. by rewrite Hlm'. }
  eapply wp_replace_layer; [done..| | | | |].
  - intros c w1' le oe w'' Hc Hcls Hb Hle Hle1 Hoe Hw''. split.
    + eapply evolves_trans; [done|]. rewrite Hw''. by eapply evolves_replace.
    + rewrite Hw''. pose proof (separate_built_from _ _ _ _ Hsep' Hlnew Hb) as Hsep1.
      apply separate_insert_new; [done..|].
      intros k x Hk. simpl in Hk.
      apply lookup_insert_Some in Hk as [[_ <-]|[_ Hk]].
      * intros ? [= <-]. destruct Hsep' as [Hsub _]. by eapply subseteq_None.
      * eapply (separate_getattr h0 (heap w') (VRef lm) k); [done..|].
        unfold getattr_in. simpl. by rewrite Hlm'.
  - intros c e w'' Hc Hcls Hb _. by eapply separate_built_from.
  - intros Hseq. eapply wp_mono;
      [apply wp_conj; [apply replace_layers_evolves|by apply IH]| | |done]; simpl.
    + intros _ w'' [Hev' ?]. split; [by eapply evolves_trans|done].
    + by intros e w'' [_ ?].
  - done.
  - done.
Qed.

Lemma bind_Ret_inv {A B} (c : M A) (k : A → M B) w b w' :
  bind c k w = Ret b w' → ∃ a w1, c w = Ret a w1 ∧ k a w1 = Ret b w'.
Proof. unfold bind. destruct (c w) as [a w1| |]; [|done..]. eauto. Qed.

(** C3: when [export_to_qonnx] returns, every object that existed before
    the call (the model passed in, its submodules, parameters and
    attributes among them) is exactly as it was; the export model that is
    returned is the object [copy.deepcopy] produced, at a location that
    did not exist before, hence distinct from the model; neither argument
    was [None]. *)
Theorem export_to_qonnx_leaves_model_unchanged :
  ∀ fuel now model input filename w v w',
    export_to_qonnx fuel now model input filename w = Ret v w' →
    model ≠ VNone ∧ input ≠ VNone
    ∧ (∀ l o, heap w !! l = Some o → heap w' !! l = Some o)
    ∧ v ≠ model
    ∧ ∃ l wr memo w1,
        v = VRef l ∧ heap w !! l = None
        ∧ register_custom_ops w = Ret tt wr
        ∧ deepcopy fuel ∅ model wr = Ret (v, memo) w1.
Proof.
  intros fuel now model input filename w v w' Hrun. unfold export_to_qonnx in Hrun.
  case_bool_decide as Hm; [done|]. case_bool_decide as Hi; [done|].
  apply bind_Ret_inv in Hrun as (fname&w0&Hname&Hrun).
  assert (w0 = w) as ->.
  { destruct filename; [by inversion Hname|].
    apply bind_Ret_inv in Hname as (n&w0'&Hn&Hret). unfold _get_name, bind, get_heap in Hn.
    destruct (class_of (heap w) model); [|done]. inversion Hn; subst.
    by inversion Hret. }
  apply bind_Ret_inv in Hrun as ([] & wr & Hreg & Hrun).
  assert (Hwr : heap wr = heap w) by (by inversion Hreg).
  apply bind_Ret_inv in Hrun as ([v1 memo] & w1 & Hcopy & Hrun). simpl in Hrun.
  apply bind_Ret_inv in Hrun as ([] & w2 & Hwalk & Hrun).
  apply bind_Ret_inv in Hrun as ([] & w3 & Hexp & Hrun).
  assert (Hw3 : heap w3 = heap w2) by (by inversion Hexp).
  inversion Hrun; subst v1 w3; clear Hrun.
  pose proof (deepcopy_separate (heap w) fuel ∅ model wr) as Hsep1.
  unfold wp in Hsep1. rewrite Hcopy in Hsep1.
  destruct Hsep1 as (Hsep1&Hnew&_); [rewrite Hwr; apply separate_refl|done|].
  simpl in Hnew.
  pose proof (replace_layers_separate (heap w) fuel v w1 Hsep1 Hnew) as Hsep2.
  unfold wp in Hsep2. rewrite Hwalk in Hsep2.
  pose proof (replace_layers_Ret_module _ _ _ _ Hwalk) as (l&o&->&Hl&_)%is_module_in_obj.
  pose proof (Hnew l eq_refl) as Hl0.
  split_and!; try done.
  - intros l1 o1 Hl1. rewrite Hw3. destruct Hsep2 as [Hsub _]. by eapply lookup_weaken.
  - intros <-. destruct fuel; simpl in Hcopy; [done|].
    unfold bind, get_heap in Hcopy. rewrite lookup_empty, Hwr, Hl0 in Hcopy. done.
  - by exists l, wr, memo, w1.
Qed.

Lemma export_to_qonnx_leaves_model_unchanged_witness :
  ∃ v w',
    export_to_qonnx 5 "01012021000000" (VRef 1) (VTensor (Tensor [1%Z] [0%Z]))
      None mnist_world = Ret v w'
    ∧ (∀ l o, mnist_heap !! l = Some o → heap w' !! l = Some o)
    ∧ v ≠ VRef 1.
Proof.
  assert (∃ v w', export_to_qonnx 5 "01012021000000" (VRef 1)
                    (VTensor (Tensor [1%Z] [0%Z])) None mnist_world = Ret v w')
    as (v&w'&Hrun).
  { eexists _, _. vm_compute. reflexivity. }
  destruct (export_to_qonnx_leaves_model_unchanged _ _ _ _ _ _ _ _ Hrun)
    as (_&_&Hsame&Hne&_).
  exists v, w'. split; [exact Hrun|]. split; [exact Hsame|exact Hne].
Defined.

(** * The guards of the export driver *)

Lemma walk_error_not_none e : walk_error e → ¬ none_error e.
Proof.
  intros [He|(c&_&Hc)] [Hn|Hn]; subst e.
  - by destruct He as (?&_&_).
  - by destruct He as (_&?&_).
  - discriminate Hn.
  - discriminate Hn.
Qed.

Lemma export_to_qonnx_later_errors fuel now model input filename w :
  model ≠ VNone → input ≠ VNone →
  wp (export_to_qonnx fuel now model input filename)
     (λ _ _, True) (λ e _, ¬ none_error e) True w.
Proof.
  intros Hm Hi. unfold export_to_qonnx.
  rewrite !bool_decide_false by done.
  apply wp_bind.
  apply (wp_mono _ (λ _ w', True) _ (λ e _, ¬ none_error e) _ True); [|intros|done..].
  { destruct filename; [done|]. apply wp_bind. unfold wp, _get_name, bind, get_heap.
    destruct (class_of (heap w) model); [done|]. by intros [|]. }
  apply wp_bind. unfold wp at 1. simpl.
  apply wp_bind.
  eapply wp_mono;
    [eapply (deepcopy_separate _ fuel ∅ model); [apply separate_refl|done]| | |done].
  - intros [v memo] w1 _. simpl. apply wp_bind.
    eapply wp_mono; [apply replace_layers_evolves| | |done]; simpl.
    + intros _ w2 _. apply wp_bind. unfold wp at 1. simpl. done.
    + intros e w2 [_ He]. by apply walk_error_not_none.
  - simpl. intros e w1 [_ ->]. by intros [|].
Qed.

(** C9, as the code has it: [export_to_qonnx] raises
    [RuntimeError('Model cannot be None')] exactly when the model is
    [None], and [RuntimeError('Input cannot be None')] exactly when the
    model is not [None] and the input is; either is raised before
    anything else is done, so the state is the one the call started in.
    (Other [RuntimeError]s can follow later, from [replace_layers].) *)
Theorem export_to_qonnx_None_guards :
  ∀ fuel now model input filename w,
    (model = VNone ↔
       ∃ w', export_to_qonnx fuel now model input filename w
             = Raise (RuntimeError "Model cannot be None") w')
    ∧ (model ≠ VNone ∧ input = VNone ↔
         ∃ w', export_to_qonnx fuel now model input filename w
               = Raise (RuntimeError "Input cannot be None") w')
    ∧ (∀ e w', export_to_qonnx fuel now model input filename w = Raise e w' →
               none_error e → w' = w).
Proof.
  intros fuel now model input filename w.
  assert (Hlater : model ≠ VNone → input ≠ VNone →
            ∀ e w', export_to_qonnx fuel now model input filename w = Raise e w' →
                    ¬ none_error e).
  { intros Hm Hi e w' Hrun.
    pose proof (export_to_qonnx_later_errors fuel now model input filename w Hm Hi) as H.
    unfold wp in H. by rewrite Hrun in H. }
  destruct (decide (model = VNone)) as [->|Hm].
  { split_and!.
    - split; [by eexists|done].
    - split; [by intros [? _]|]. intros [w' Hrun]. by inversion Hrun.
    - intros e w' Hrun _. by inversion Hrun. }
  destruct (decide (input = VNone)) as [->|Hi].
  { assert (export_to_qonnx fuel now model VNone filename w
            = Raise (RuntimeError "Input cannot be None") w) as Hrun.
    { unfold export_to_qonnx. by rewrite bool_decide_false by done. }
    split_and!.
    - split; [done|]. intros [w' Hrun']. rewrite Hrun in Hrun'. by inversion Hrun'.
    - split; [by eexists|done].
    - intros e w' Hrun' _. rewrite Hrun in Hrun'. by inversion Hrun'. }
  split_and!.
  - split; [done|]. intros [w' Hrun]. destruct (Hlater Hm Hi _ _ Hrun). by left.
  - split; [by intros [_ ?]|]. intros [w' Hrun]. destruct (Hlater Hm Hi _ _ Hrun). by right.
  - intros e w' Hrun He. by destruct (Hlater Hm Hi _ _ Hrun).
Qed.

(** C9 as the specification words it fails: with a model and an input
    that are not [None], a layer of an unsupported class makes
    [export_to_qonnx] raise a [RuntimeError] all the same, and by then the
    hooks are registered and the model is copied. *)
Lemma export_to_qonnx_other_RuntimeError :
  ¬ (∀ fuel now model input filename w,
       (∃ msg w', export_to_qonnx fuel now model input filename w
                  = Raise (RuntimeError msg) w')
       ↔ model = VNone ∨ input = VNone).
Proof.
  intros Hclaim.
  destruct (Hclaim 3 "01012021000000" (VRef 1) (VTensor (Tensor [1%Z] [0%Z])) None
              bn_world) as [Hraise _].
  destruct Hraise as [?|?]; [|done..].
  eexists _, _. vm_compute. reflexivity.
Qed.

Lemma export_to_qonnx_None_guards_witness :
  ∃ w', export_to_qonnx 3 "01012021000000" VNone (VInt 0) None mnist_world
        = Raise (RuntimeError "Model cannot be None") w'.
Proof.
  destruct (export_to_qonnx_None_guards 3 "01012021000000" VNone (VInt 0) None mnist_world)
    as ([H _]&_).
  exact (H eq_refl).
Defined.

(** * Sample runs *)

(** On the small network every quantized layer the walk reaches is
    replaced and the gradients of the parameters are switched off. *)
Example replace_layers_mnist_run :
  let h' := heap (final_world (replace_layers 2 (VRef 1) mnist_world) mnist_world) in
  (getattr_in h' (VRef 1) "act" ≫= class_of h') = Some ExportQuantAct
  ∧ (getattr_in h' (VRef 1) "fc" ≫= class_of h') = Some ExportQuantLinear
  ∧ (getattr_in h' (VRef 5) "conv1" ≫= class_of h') = Some ExportQuantConv2d
  ∧ (getattr_in h' (VRef 5) "conv1" ≫= λ e, getattr_in h' e "conv") = Some (VRef 7)
  ∧ getattr_in h' (VRef 4) "requires_grad" = Some (VBool false)
  ∧ getattr_in h' (VRef 1) "num_classes" = Some (VInt 10).
Proof. vm_compute. done. Qed.

(** [dir] does not list names that start with a digit, so the children
    of a [Sequential] built from positional arguments are not visited. *)
Example replace_layers_numbered_children :
  replace_layers 3 (VRef 1) numbered_world = Ret tt numbered_world
  ∧ dir_in numbered_heap (VRef 2) = [].
Proof. vm_compute. done. Qed.

(** The driver names the file after the model's class and the time, and
    passes the copy, the input and that name to the exporter. *)
Example export_to_qonnx_mnist_run :
  exported (final_world
              (export_to_qonnx 5 "01012021000000" (VRef 1)
                 (VTensor (Tensor [1%Z] [0%Z])) None mnist_world) mnist_world)
  = [(VRef 9, VTensor (Tensor [1%Z] [0%Z]), "Q_MNIST_01012021000000.onnx")].
Proof. vm_compute. done. Qed.

(** The error for an unsupported layer names its class. *)
Example replace_layers_bn_run :
  replace_layers 2 (VRef 1) bn_world
  = Raise (RuntimeError "Unsupported layer type found QuantBnConv2d") bn_world.
Proof. vm_compute. done. Qed.

(** * Further properties of the walk *)

(** X1: whatever way a call of [replace_layers] ends, every object that
    existed keeps its class, every module keeps its attribute names,
    and an attribute of a module that did not hold a supported quantized
    layer holds what it held; the objects created are neither quantized
    layers nor [Sequential]s. *)
Theorem replace_layers_keeps_structure :
  ∀ fuel model w,
    let w' := final_world (replace_layers fuel model w) w in
    (∀ l o, heap w !! l = Some o →
       ∃ o', heap w' !! l = Some o' ∧ cls o' = cls o
             ∧ (is_module (cls o) = true →
                dom (fields o') = dom (fields o) ∧ dir_obj o' = dir_obj o
                ∧ ∀ name x, fields o !! name = Some x →
                            supported_in (heap w) x = false →
                            fields o' !! name = Some x))
    ∧ (∀ l o', heap w !! l = None → heap w' !! l = Some o' →
               walk_class (cls o') = false).
Proof.
  intros fuel model w w'.
  assert (Hev : evolves (heap w) (heap w')).
  { subst w'. pose proof (replace_layers_evolves fuel model w) as H. unfold wp in H.
    destruct (replace_layers fuel model w); simpl; [done|by destruct H|apply evolves_refl]. }
  split; [|by destruct Hev].
  intros l o Hl. destruct Hev as [He _]. destruct (He _ _ Hl) as (o'&Hl'&Hc&Hf).
  exists o'. split; [done|]. split; [done|]. intros Hm.
  assert (Hdom : dom (fields o') = dom (fields o)).
  { apply set_eq. intros name. rewrite !elem_of_dom.
    destruct (Hf Hm name) as [->|(x&x'&c&->&_&_&->&_)]; naive_solver. }
  split; [done|]. split; [unfold dir_obj; by rewrite Hdom|].
  intros name x Hx Hns. destruct (Hf Hm name) as [->|(x0&x'&c&Hx0&Hc0&Hcs&_)]; [done|].
  assert (supported_in (heap w) x0 = true) as Hs by (apply supported_in_true; eauto).
  rewrite Hx in Hx0. simplify_eq. congruence.
Qed.

Lemma set_field_idemp n x o : set_field n x (set_field n x o) = set_field n x o.
Proof. unfold set_field. simpl. by rewrite insert_insert_eq. Qed.

Lemma frozen_refl h : frozen h h.
Proof. intros l o Hl _. by left. Qed.

Lemma frozen_trans h1 h2 h3 : frozen h1 h2 → frozen h2 h3 → frozen h1 h3.
Proof.
  intros H12 H23 l o Hl Hc. destruct (H12 _ _ Hl Hc) as [Hl2|Hl2].
  - by apply H23.
  - destruct (H23 _ _ Hl2 Hc) as [Hl3|Hl3]; [by right|].
    right. by rewrite Hl3, set_field_idemp.
Qed.

Lemma built_from_frozen h h' layer : built_from h h' layer → frozen h h'.
Proof. intros [Hsub _] l o Hl _. left. by eapply lookup_weaken. Qed.

Lemma grad_off_frozen h h' ps : grad_off h h' ps → frozen h h'.
Proof.
  intros Hoff l o Hl _. destruct (Hoff l) as [->|(o1&_&?&_&->)]; [by left|].
  right. by simplify_eq.
Qed.

Lemma replace_frozen h h' lm om name layer v :
  h !! lm = Some om → is_module (cls om) = true → built_from h h' layer →
  frozen h (<[lm := set_field name v om]> h').
Proof.
  intros Hlm Hm [Hsub _] l o Hl Hc. left.
  rewrite lookup_insert_ne; [by eapply lookup_weaken|].
  intros <-. simplify_eq. by rewrite Hc in Hm.
Qed.

Lemma replace_layers_frozen fuel : ∀ model w,
  wp (replace_layers fuel model)
     (λ _ w', frozen (heap w) (heap w')) (λ _ w', frozen (heap w) (heap w')) True w.
Proof.
  induction fuel as [|fuel IH]; intros model w; [done|].
  apply (wp_mono _ (λ _ w', evolves (heap w) (heap w') ∧ frozen (heap w) (heap w')) _
           (λ _ w', frozen (heap w) (heap w')) _ True);
    [|by intros ? ? [_ ?]|done|done].
  apply (wp_replace_layers_S
           (λ _ w', evolves (heap w) (heap w') ∧ frozen (heap w) (heap w'))
           _ _ (λ _ w', evolves (heap w) (heap w') ∧ frozen (heap w) (heap w'))
           (λ _ w', frozen (heap w) (heap w')) True).
  { intros _. apply frozen_refl. }
  intros lm om w1 -> Hlm Hm Hoff.
  split; [|split; [|done]].
  { split; [by eapply grad_off_evolves|by eapply grad_off_frozen]. }
  intros pre name post w' Hdir [Hev Hfr].
  destruct (evolves_module _ _ _ _ Hev Hlm Hm) as (om'&Hlm'&Hc'&Hdir'&Hf').
  assert (Hin : name ∈ dir_obj om') by (rewrite Hdir', Hdir; set_solver).
  assert (is_Some (fields om' !! name)) as [layer Hlayer].
  { by apply elem_of_dir_obj in Hin as [? _]. }
  assert (Hm' : is_module (cls om') = true) by (by rewrite Hc').
  eapply wp_replace_layer; [done..| | | | |].
  - intros c w1' le oe w'' Hc Hcls Hb Hle Hle1 Hoe Hw''. split.
    + eapply evolves_trans; [done|]. rewrite Hw''. by eapply evolves_replace.
    + eapply frozen_trans; [done|]. rewrite Hw''. by eapply replace_frozen.
  - intros c e w'' Hc Hcls Hb _. eapply frozen_trans; [done|].
    by eapply built_from_frozen.
  - intros Hseq. eapply wp_mono;
      [apply wp_conj; [apply replace_layers_evolves|apply IH]| | |done]; simpl.
    + intros _ w'' [Hev' ?]. split; [by eapply evolves_trans|by eapply frozen_trans].
    + intros e w'' [_ ?]. by eapply frozen_trans.
  - done.
  - done.
Qed.

Lemma wp_grad_loop_all ps w :
  (∀ v, v ∈ ps → ∃ lp op, v = VRef lp ∧ heap w !! lp = Some op ∧ cls op = NNParameter) →
  wp (for_each ps (λ param, requires_grad_ param false))
     (λ _ w', grad_all (heap w) (heap w') ps) (λ _ _, False) False w.
Proof.
  intros Hps.
  apply (wp_for_each (λ pre w', grad_all (heap w) (heap w') pre)).
  { intros l. split; [by intros ?%elem_of_nil|done]. }
  intros pre x post w' Hxs Hall.
  destruct (Hps x) as (lp&op&->&Hlp&Hcls); [rewrite Hxs; set_solver|].
  unfold requires_grad_.
  assert (∃ o1, heap w' !! lp = Some o1
                ∧ set_field "requires_grad" (VBool false) o1
                  = set_field "requires_grad" (VBool false) op) as (o1&Hlp'&Hset).
  { destruct (decide (VRef lp ∈ pre)) as [Hin|Hnin].
    - destruct (Hall lp) as [Hyes _]. destruct (Hyes Hin) as (o&?&_&Heq).
      simplify_eq. eexists. split; [done|]. apply set_field_idemp.
    - destruct (Hall lp) as [_ Hno]. exists op. by rewrite (Hno Hnin). }
  eapply wp_setattr; [done|]. intros w'' Hw'' l. rewrite Hw''. split.
  - intros [Hin|Hin%list_elem_of_singleton]%elem_of_app.
    + destruct (decide (lp = l)) as [<-|Hne].
      * exists op. by rewrite lookup_insert_eq, Hset.
      * rewrite lookup_insert_ne by done. by apply Hall.
    + assert (l = lp) as -> by congruence.
      exists op. by rewrite lookup_insert_eq, Hset.
  - intros Hnin. rewrite lookup_insert_ne by set_solver. apply Hall. set_solver.
Qed.

Lemma grad_all_grad_off h h' ps : grad_all h h' ps → grad_off h h' ps.
Proof.
  intros Hall l. destruct (decide (VRef l ∈ ps)) as [Hin|Hnin].
  - right. destruct (Hall l) as [Hyes _]. destruct (Hyes Hin) as (o&?&?&?). eauto.
  - left. by apply Hall.
Qed.

(** The unfolding of one call, with the exact effect of the parameter loop. *)
Lemma wp_replace_layers_S_all (I : list string → world → Prop) fuel lm om Q E D w :
  heap w !! lm = Some om → is_module (cls om) = true →
  (∀ w1, grad_all (heap w) (heap w1) (parameters_in (heap w) lm) →
     I [] w1
     ∧ (∀ pre name post w', dir_obj om = pre ++ name :: post → I pre w' →
          wp (replace_layer (replace_layers fuel) (VRef lm) name)
             (λ _ w'', I (pre ++ [name]) w'') E D w')
     ∧ (∀ w', I (dir_obj om) w' → Q tt w')) →
  wp (replace_layers (S fuel) (VRef lm)) Q E D w.
Proof.
  intros Hlm Hm Hloop. simpl. apply wp_bind.
  unfold parameters. apply wp_bind. unfold wp at 1, get_heap.
  unfold class_of. simpl. rewrite Hlm. simpl. rewrite Hm.
  apply wp_ret, wp_bind.
  eapply wp_mono; [apply wp_grad_loop_all| |done|done].
  { intros v Hv. by apply elem_of_parameters_in in Hv. }
  intros [] w1 Hall. simpl.
  destruct (Hloop w1 Hall) as (H0&Hstep&Hfin).
  apply wp_bind. unfold dir. apply wp_bind. unfold wp at 1, get_heap.
  apply wp_ret. unfold dir_in. simpl.
  rewrite (grad_off_module _ _ _ _ _ (grad_all_grad_off _ _ _ Hall) Hlm Hm).
  eapply wp_mono; [by apply (wp_for_each I)| |done|done].
  intros [] w' Hw'. by apply Hfin.
Qed.

(** One step of the loop, from a state the walk has reached. *)
Lemma replace_layer_step fuel lm om name w w' :
  heap w !! lm = Some om → is_module (cls om) = true → name ∈ dir_obj om →
  evolves (heap w) (heap w') →
  wp (replace_layer (replace_layers fuel) (VRef lm) name)
     (λ _ w'', evolves (heap w') (heap w'') ∧ frozen (heap w') (heap w''))
     (λ _ w'', evolves (heap w') (heap w'') ∧ frozen (heap w') (heap w'')) True w'.
Proof.
  intros Hlm Hm Hname Hev.
  destruct (evolves_module _ _ _ _ Hev Hlm Hm) as (om'&Hlm'&Hc'&Hdir'&Hf').
  assert (is_Some (fields om' !! name)) as [layer Hlayer].
  { rewrite <- Hdir' in Hname. by apply elem_of_dir_obj in Hname as [? _]. }
  assert (Hm' : is_module (cls om') = true) by (by rewrite Hc').
  eapply wp_replace_layer; [done..| | | | |].
  - intros c w1' le oe w'' Hc Hcls Hb Hle Hle1 Hoe Hw''. rewrite Hw''. split.
    + by eapply evolves_replace.
    + by eapply replace_frozen.
  - intros c e w'' Hc Hcls Hb _. split; [by eapply built_from_evolves|].
    by eapply built_from_frozen.
  - intros Hseq. eapply wp_mono;
      [apply wp_conj; [apply replace_layers_evolves|apply replace_layers_frozen]
      | | |done]; simpl.
    + done.
    + by intros e w'' [[? _] ?].
  - intros. split; [apply evolves_refl|apply frozen_refl].
  - intros. split; [apply evolves_refl|apply frozen_refl].
Qed.

(** X2: [replace_layers] called on a module switches [requires_grad] off
    on every parameter that [model.parameters()] lists at the time of
    the call, and changes nothing else about these parameters (their
    data in particular), whether the call then returns or raises. *)
Theorem replace_layers_freezes_parameters :
  ∀ fuel lm om w p,
    heap w !! lm = Some om → is_module (cls om) = true →
    p ∈ parameters_in (heap w) lm →
    replace_layers fuel (VRef lm) w ≠ Diverge →
    ∃ lp op, p = VRef lp ∧ heap w !! lp = Some op ∧ cls op = NNParameter
             ∧ heap (final_world (replace_layers fuel (VRef lm) w) w) !! lp
               = Some (set_field "requires_grad" (VBool false) op).
Proof.
  intros fuel lm om w p Hlm Hm Hp Hnd. destruct fuel as [|fuel]; [done|].
  set (P := λ w' : world,
         evolves (heap w) (heap w')
         ∧ ∀ p, p ∈ parameters_in (heap w) lm →
             ∃ lp op, p = VRef lp ∧ heap w !! lp = Some op ∧ cls op = NNParameter
                      ∧ heap w' !! lp = Some (set_field "requires_grad" (VBool false) op)).
  assert (Hstep : ∀ w' w'', P w' → evolves (heap w') (heap w'') →
                            frozen (heap w') (heap w'') → P w'').
  { intros w' w'' [Hev HP] Hev' Hfr. split; [by eapply evolves_trans|].
    intros q Hq. destruct (HP q Hq) as (lp&op&->&Hlp&Hcls&Hlp').
    exists lp, op. split_and!; try done.
    destruct (Hfr _ _ Hlp' Hcls) as [->| ->]; [done|]. by rewrite set_field_idemp. }
  assert (Hwp : wp (replace_layers (S fuel) (VRef lm)) (λ _ w', P w') (λ _ w', P w')
                  True w).
  { apply (wp_replace_layers_S_all (λ _ w', P w') _ _ om); [done..|].
    intros w1 Hall. split; [|split; [|done]].
    - split; [by eapply grad_off_evolves, grad_all_grad_off|].
      intros q Hq. pose proof Hq as (lp&op&->&_)%elem_of_parameters_in.
      destruct (Hall lp) as [Hyes _]. destruct (Hyes Hq) as (o&?&?&?). by exists lp, o.
    - intros pre name post w' Hdir HP.
      eapply wp_mono; [eapply (replace_layer_step fuel lm om name w w')| | |done];
        try done.
      + rewrite Hdir. set_solver.
      + by destruct HP.
      + simpl. intros _ w'' [? ?]. by eapply Hstep.
      + simpl. intros _ w'' [? ?]. by eapply Hstep. }
  unfold wp in Hwp.
  destruct (replace_layers (S fuel) (VRef lm) w) as [[] w'|e w'|]; simpl;
    [by apply Hwp..|done].
Qed.

Lemma replace_layers_freezes_parameters_witness :
  ∃ lp op, VRef 4 = VRef lp ∧ mnist_heap !! lp = Some op ∧ cls op = NNParameter
           ∧ heap (final_world (replace_layers 2 (VRef 1) mnist_world) mnist_world) !! lp
             = Some (set_field "requires_grad" (VBool false) op).
Proof.
  eapply (replace_layers_freezes_parameters 2 1 _ mnist_world (VRef 4)).
  - reflexivity.
  - reflexivity.
  - vm_compute. repeat constructor.
  - vm_compute. discriminate.
Defined.

Lemma quiet_refl h : quiet h h.
Proof. intros l. by left. Qed.

Lemma quiet_trans h1 h2 h3 : quiet h1 h2 → quiet h2 h3 → quiet h1 h3.
Proof.
  intros H12 H23 l. destruct (H23 l) as [->|(o2&Hl2&Hc2&->)]; [apply H12|].
  destruct (H12 l) as [Heq|(o1&Hl1&Hc1&Heq)]; rewrite Heq in Hl2.
  - right. eauto.
  - simplify_eq. right. exists o1. by rewrite set_field_idemp.
Qed.

Lemma grad_off_quiet h h' ps : grad_off h h' ps → quiet h h'.
Proof. intros Hoff l. destruct (Hoff l) as [?|(o&_&?&?&?)]; [by left|right; eauto]. Qed.

Lemma quiet_evolves h h' : quiet h h' → evolves h h'.
Proof.
  intros Hq. split.
  - intros l o Hl. destruct (Hq l) as [Heq|(o1&Hl1&Hc&Heq)]; rewrite Heq.
    + exists o. split; [done|]. split; [done|]. intros _ name. by left.
    + simplify_eq. eexists. split; [done|]. split; [done|]. by rewrite Hc.
  - intros l o' Hn Hs. destruct (Hq l) as [Heq|(o1&Hl1&_)]; congruence.
Qed.

Lemma quiet_module h h' l o :
  quiet h h' → h !! l = Some o → is_module (cls o) = true → h' !! l = Some o.
Proof.
  intros Hq Hl Hm. destruct (Hq l) as [->|(o1&?&Hc&_)]; [done|].
  simplify_eq. by rewrite Hc in Hm.
Qed.

Lemma quiet_class_of h h' v : quiet h h' → class_of h' v = class_of h v.
Proof.
  intros Hq. unfold class_of. destruct v; try done. simpl.
  destruct (Hq l) as [->|(o&->&_&->)]; done.
Qed.

Lemma walk_free_child h model name y :
  walk_free h model → holds h model name y → class_of h y = Some Sequential →
  walk_free h y.
Proof.
  intros Hfree Hh Hc x name' y' c Hx. apply Hfree.
  eapply walk_reach_trans; [|done]. eapply walk_into; [apply walk_here|done..].
Qed.

Lemma replace_layers_quiet fuel : ∀ d model w,
  is_module_in (heap w) model → walk_free (heap w) model →
  seq_tree d (heap w) model = true → (d ≤ fuel)%nat →
  wp (replace_layers fuel model) (λ _ w', quiet (heap w) (heap w')) (λ _ _, False)
     False w.
Proof.
  induction fuel as [|fuel IH]; intros d model w Hmod Hfree Htree Hd.
  { assert (d = 0) as -> by lia. done. }
  destruct d as [|d]; [done|].
  apply (wp_replace_layers_S (λ _ w', quiet (heap w) (heap w'))).
  { intros Hnot. destruct Hnot. by apply is_module_in_obj. }
  intros lm om w1 -> Hlm Hm Hoff.
  split; [by eapply grad_off_quiet|]. split; [|done].
  intros pre name post w' Hdir Hq.
  pose proof (quiet_module _ _ _ _ Hq Hlm Hm) as Hlm'.
  assert (Hin : name ∈ dir_obj om) by (rewrite Hdir; set_solver).
  assert (is_Some (fields om !! name)) as [layer Hlayer].
  { by apply elem_of_dir_obj in Hin as [? _]. }
  assert (Hh : holds (heap w) (VRef lm) name layer).
  { unfold holds, dir_in, getattr_in. simpl. by rewrite Hlm. }
  assert (Hcls : ∀ c, class_of (heap w') layer = Some c →
                      class_of (heap w) layer = Some c
                      ∧ (c ∉ SUPPORTED_LAYERS) ∧ (c ∉ UNSUPPORTED_LAYERS)).
  { intros c Hc. rewrite (quiet_class_of _ _ _ Hq) in Hc. split; [done|].
    eapply Hfree; [apply walk_here|done..]. }
  eapply wp_replace_layer; [done..| | | | |].
  - intros c w1' le oe w'' Hc Hc'. by destruct (Hcls _ Hc') as (_&?&_).
  - intros c e w'' Hc Hc'. by destruct (Hcls _ Hc') as (_&?&_).
  - intros Hseq. destruct (Hcls _ Hseq) as (Hseq0&_).
    pose proof (quiet_evolves _ _ Hq) as Hev.
    assert (Hlmod : is_module_in (heap w) layer) by (by exists Sequential).
    eapply wp_mono; [eapply (IH d layer w')| |done|done].
    + by exists Sequential.
    + eapply walk_free_evolves; [done..|]. by eapply walk_free_child.
    + eapply seq_tree_evolves; [done..|]. by eapply seq_tree_child.
    + lia.
    + simpl. intros _ w'' Hq'. by eapply quiet_trans.
  - intros c Hc Hc'. by destruct (Hcls _ Hc') as (_&_&?).
  - done.
Qed.

(** X3: on a module below which the walk meets no quantized layer (and
    whose [Sequential]s are nested at most [d] deep) [replace_layers]
    returns; it creates no object and changes none, except that it
    switches [requires_grad] off on parameters. *)
Theorem replace_layers_without_quantized_layers :
  ∀ d fuel model w,
    is_module_in (heap w) model → walk_free (heap w) model →
    seq_tree d (heap w) model = true → (d ≤ fuel)%nat →
    ∃ w', replace_layers fuel model w = Ret tt w'
          ∧ quiet (heap w) (heap w') ∧ dom (heap w') = dom (heap w).
Proof.
  intros d fuel model w Hmod Hfree Htree Hd.
  pose proof (replace_layers_quiet fuel d model w Hmod Hfree Htree Hd) as Hq.
  unfold wp in Hq. destruct (replace_layers fuel model w) as [[] w'| |]; [|done..].
  exists w'. split; [done|]. split; [done|].
  apply set_eq. intros l. rewrite !elem_of_dom.
  destruct (Hq l) as [->|(o&->&_&->)]; [done|]. split; by eexists.
Qed.

(** X4: a second call of [replace_layers] on a model it has converted
    returns and replaces nothing: the heap after it differs from the
    heap before it only in the [requires_grad] of parameters (those of
    the [Linear] layers the first call created are switched off now). *)
Theorem replace_layers_twice :
  ∀ d fuel model w w1,
    replace_layers fuel model w = Ret tt w1 →
    seq_tree d (heap w) model = true → (d ≤ fuel)%nat →
    ∃ w2, replace_layers fuel model w1 = Ret tt w2
          ∧ quiet (heap w1) (heap w2) ∧ dom (heap w2) = dom (heap w1).
Proof.
  intros d fuel model w w1 Hrun Htree Hd.
  pose proof (replace_layers_Ret_module _ _ _ _ Hrun) as Hmod.
  pose proof (replace_layers_evolves fuel model w) as Hev.
  pose proof (replace_layers_walk_free fuel model w) as Hfree.
  unfold wp in Hev, Hfree. rewrite Hrun in Hev, Hfree.
  pose proof (replace_layers_quiet fuel d model w1
                (is_module_in_evolves _ _ _ Hev Hmod) Hfree
                (seq_tree_evolves _ _ _ _ Hev Hmod Htree) Hd) as Hq.
  unfold wp in Hq. destruct (replace_layers fuel model w1) as [[] w2| |]; [|done..].
  exists w2. split; [done|]. split; [done|].
  apply set_eq. intros l. rewrite !elem_of_dom.
  destruct (Hq l) as [->|(o&->&_&->)]; [done|]. split; by eexists.
Qed.

Lemma replace_layers_twice_witness :
  ∃ w2, replace_layers 2 (VRef 1)
          (final_world (replace_layers 2 (VRef 1) mnist_world) mnist_world)
        = Ret tt w2
        ∧ quiet (heap (final_world (replace_layers 2 (VRef 1) mnist_world) mnist_world))
            (heap w2)
        ∧ dom (heap w2)
          = dom (heap (final_world (replace_layers 2 (VRef 1) mnist_world) mnist_world)).
Proof.
  apply (replace_layers_twice 2 2 (VRef 1) mnist_world);
    [by vm_compute|by vm_compute|lia].
Defined.

Lemma replace_layers_without_quantized_layers_witness :
  ∃ w', replace_layers 2 (VRef 1) numbered_world = Ret tt w'
        ∧ quiet numbered_heap (heap w') ∧ dom (heap w') = dom numbered_heap.
Proof.
  apply (replace_layers_without_quantized_layers 2 2 (VRef 1) numbered_world).
  - exists (OtherModule "Net"). by vm_compute.
  - pose proof (replace_layers_walk_free 3 (VRef 1) numbered_world) as H.
    exact H.
  - by vm_compute.
  - lia.
Defined.

(** * What only the heap records *)

Lemma same_rest_refl w : same_rest w w.
Proof. done. Qed.

Lemma same_rest_trans w1 w2 w3 : same_rest w1 w2 → same_rest w2 w3 → same_rest w1 w3.
Proof. intros (?&?&?) (?&?&?). split_and!; congruence. Qed.

Lemma heap_only_ret {A} (a : A) : heap_only (ret a).
Proof. intros w. done. Qed.

Lemma heap_only_raise {A} e : heap_only (raise (A:=A) e).
Proof. intros w. done. Qed.

Lemma heap_only_bind {A B} (c : M A) (k : A → M B) :
  heap_only c → (∀ a, heap_only (k a)) → heap_only (bind c k).
Proof.
  intros Hc Hk w. apply wp_bind.
  apply (wp_mono _ (λ _ w', same_rest w w') _ (λ _ w', same_rest w w') _ True);
    [apply Hc| |done|done].
  intros a w' Hw'.
  apply (wp_mono _ (λ _ w'', same_rest w' w'') _ (λ _ w'', same_rest w' w'') _ True);
    [apply Hk| | |done]; intros ? w'' Hw''; exact (same_rest_trans _ _ _ Hw' Hw'').
Qed.

Lemma heap_only_for_each {A} (xs : list A) (body : A → M unit) :
  (∀ x, heap_only (body x)) → heap_only (for_each xs body).
Proof.
  intros Hbody. induction xs as [|x xs IH]; simpl; [apply heap_only_ret|].
  apply heap_only_bind; [done|]. by intros _.
Qed.

Lemma heap_only_read_only {A} (c : M A) P : read_only c P → heap_only c.
Proof.
  intros Hc w. unfold wp. specialize (Hc w).
  destruct (c w) as [a w'|e w'|]; [by destruct Hc as [-> _]..|done].
Qed.

Lemma heap_only_get_heap_then {A} (k : gmap loc object → M A) :
  (∀ h, heap_only (k h)) → heap_only (bind get_heap k).
Proof. intros Hk w. unfold wp, bind, get_heap. apply Hk. Qed.

Lemma heap_only_alloc o : heap_only (alloc o).
Proof. intros w. done. Qed.

Lemma heap_only_setattr v n x : heap_only (setattr v n x).
Proof.
  unfold setattr. apply heap_only_get_heap_then. intros h.
  destruct v; try apply heap_only_raise. simpl.
  destruct (h !! l); [|apply heap_only_raise]. intros w. done.
Qed.

Lemma heap_only_getattr v n : heap_only (getattr v n).
Proof. eapply heap_only_read_only, read_only_getattr. Qed.

Lemma heap_only_hasattr v n : heap_only (hasattr v n).
Proof. eapply heap_only_read_only, read_only_hasattr. Qed.

Lemma heap_only_isinstance v c : heap_only (isinstance v c).
Proof. eapply heap_only_read_only, read_only_isinstance. Qed.

Lemma heap_only_isinstance_any v cs : heap_only (isinstance_any v cs).
Proof. intros w. done. Qed.

Lemma heap_only_dir v : heap_only (dir v).
Proof. intros w. done. Qed.

Lemma heap_only_get_name v : heap_only (_get_name v).
Proof.
  unfold _get_name. apply heap_only_get_heap_then. intros h.
  destruct (class_of h v); [apply heap_only_ret|apply heap_only_raise].
Qed.

Lemma heap_only_truthy v : heap_only (truthy v).
Proof. eapply heap_only_read_only, read_only_truthy. Qed.

Lemma heap_only_tensor_of e v : heap_only (tensor_of e v).
Proof.
  destruct v; simpl; try apply heap_only_raise; try apply heap_only_ret.
  apply heap_only_bind; [apply heap_only_isinstance|]. intros [].
  - apply heap_only_bind; [apply heap_only_getattr|]. intros d.
    destruct d; try apply heap_only_raise. apply heap_only_ret.
  - apply heap_only_raise.
Qed.

Lemma heap_only_torch_tensor v : heap_only (torch_tensor v).
Proof. eapply heap_only_read_only, read_only_torch_tensor. Qed.

Lemma heap_only_shape_index v i : heap_only (shape_index v i).
Proof. eapply heap_only_read_only, read_only_shape_index. Qed.

Lemma heap_only_set_data p v : heap_only (set_data p v).
Proof.
  unfold set_data. apply heap_only_bind; [apply heap_only_tensor_of|].
  intros t. apply heap_only_setattr.
Qed.

Lemma heap_only_parameters v : heap_only (parameters v).
Proof.
  unfold parameters. apply heap_only_get_heap_then. intros h.
  destruct v; try apply heap_only_raise.
  destruct (class_of h (VRef l)); [|apply heap_only_raise].
  destruct (is_module p); [apply heap_only_ret|apply heap_only_raise].
Qed.

Lemma heap_only_update_dict l c st : heap_only (update_dict l c st).
Proof. intros w. done. Qed.

Lemma heap_only_new_parameter shp : heap_only (new_parameter shp).
Proof. apply heap_only_alloc. Qed.

Lemma heap_only_torch_nn_Linear i o b : heap_only (torch_nn_Linear i o b).
Proof.
  unfold torch_nn_Linear.
  destruct i; try apply heap_only_raise; destruct o; try apply heap_only_raise.
  apply heap_only_bind; [apply heap_only_new_parameter|]. intros wt.
  apply heap_only_bind; [|intros ?; apply heap_only_alloc].
  destruct b; [apply heap_only_new_parameter|apply heap_only_ret].
Qed.

Create HintDb heap_only.

#[local] Hint Resolve heap_only_ret heap_only_raise heap_only_alloc heap_only_setattr
  heap_only_getattr heap_only_hasattr heap_only_isinstance heap_only_isinstance_any
  heap_only_dir heap_only_get_name heap_only_truthy heap_only_tensor_of
  heap_only_torch_tensor heap_only_shape_index heap_only_set_data heap_only_parameters
  heap_only_update_dict heap_only_new_parameter heap_only_torch_nn_Linear : heap_only.

Ltac heap_only_step :=
  match goal with
  | |- heap_only (bind _ _) => apply heap_only_bind; [|intros ?]
  | |- heap_only (if ?b then _ else _) => destruct b
  | |- heap_only (match ?x with _ => _ end) => destruct x
  | |- heap_only _ => solve [eauto with heap_only]
  end.

Lemma heap_only_ExportQuantAct_init layer : heap_only (ExportQuantAct_init layer).
Proof. unfold ExportQuantAct_init. repeat heap_only_step. Qed.

Lemma heap_only_ExportQuantLinear_init layer : heap_only (ExportQuantLinear_init layer).
Proof.
  unfold ExportQuantLinear_init. repeat heap_only_step.
Qed.

Lemma heap_only_ExportQuantConv2d_init layer : heap_only (ExportQuantConv2d_init layer).
Proof. unfold ExportQuantConv2d_init. repeat heap_only_step. Qed.

Lemma heap_only_replace_layer recurse model name :
  (∀ layer, heap_only (recurse layer)) → heap_only (replace_layer recurse model name).
Proof.
  intros Hrec. unfold replace_layer.
  pose proof heap_only_ExportQuantAct_init. pose proof heap_only_ExportQuantLinear_init.
  pose proof heap_only_ExportQuantConv2d_init.
  repeat heap_only_step.
Qed.

Lemma heap_only_replace_layers fuel : ∀ model, heap_only (replace_layers fuel model).
Proof.
  induction fuel as [|fuel IH]; intros model; [by intros w|]. simpl.
  apply heap_only_bind; [apply heap_only_parameters|]. intros ps.
  apply heap_only_bind.
  { apply heap_only_for_each. intros p. apply heap_only_setattr. }
  intros _. apply heap_only_bind; [apply heap_only_dir|]. intros names.
  apply heap_only_for_each. intros name. by apply heap_only_replace_layer.
Qed.

Lemma heap_only_copy_items copy :
  (∀ memo v, heap_only (copy memo v)) →
  ∀ kvs acc memo, heap_only (copy_items copy kvs acc memo).
Proof.
  intros Hcopy. induction kvs as [|[k x] kvs IH]; intros acc memo; simpl.
  - apply heap_only_ret.
  - apply heap_only_bind; [apply Hcopy|]. intros xm. apply IH.
Qed.

Lemma heap_only_deepcopy fuel : ∀ memo v, heap_only (deepcopy fuel memo v).
Proof.
  induction fuel as [|fuel IH]; intros memo v.
  - destruct v; try apply heap_only_ret. simpl.
    destruct (memo !! l); [apply heap_only_ret|by intros w].
  - destruct v; try apply heap_only_ret. simpl.
    destruct (memo !! l); [apply heap_only_ret|].
    apply heap_only_get_heap_then. intros h.
    destruct (h !! l); [|apply heap_only_raise].
    apply heap_only_bind; [apply heap_only_alloc|]. intros y.
    destruct y; try apply heap_only_raise.
    apply heap_only_bind; [by apply heap_only_copy_items|]. intros r.
    apply heap_only_bind; [apply heap_only_update_dict|]. intros _.
    apply heap_only_ret.
Qed.

(** * The export driver, step by step *)

Lemma wp_export_filename now model (filename : option string) w :
  wp (match filename with
      | None => let* n := _get_name model in ret (n +:+ "_" +:+ now +:+ ".onnx")
      | Some f => ret f
      end)
     (λ fname w', w' = w ∧ export_filename (heap w) now model filename = Some fname)
     (λ e w', w' = w ∧ e = AttributeError "_get_name" ∧ filename = None
              ∧ class_of (heap w) model = None)
     False w.
Proof.
  destruct filename as [f|]; [done|].
  unfold wp, export_filename, _get_name, get_heap. unfold bind. simpl.
  by destruct (class_of (heap w) model).
Qed.

Lemma export_to_qonnx_outcome fuel now model input filename w :
  wp (export_to_qonnx fuel now model input filename)
     (λ v w', separate (heap w) (heap w')
              ∧ walk_free (heap w') v
              ∧ registry w' = with_hooks (registry w) ∧ tracing w' = tracing w
              ∧ ∃ fname, export_filename (heap w) now model filename = Some fname
                         ∧ exported w' = exported w ++ [(v, input, fname)])
     (λ e w', separate (heap w) (heap w') ∧ tracing w' = tracing w
              ∧ exported w' = exported w
              ∧ (w' = w
                 ∧ (model = VNone ∨ input = VNone
                    ∨ export_filename (heap w) now model filename = None)
                 ∨ registry w' = with_hooks (registry w)
                   ∧ model ≠ VNone ∧ input ≠ VNone
                   ∧ is_Some (export_filename (heap w) now model filename)))
     True w.
Proof.
  unfold export_to_qonnx.
  case_bool_decide as Hm.
  { apply wp_raise. split_and!; [apply separate_refl|done|done|left; auto]. }
  case_bool_decide as Hi.
  { apply wp_raise. split_and!; [apply separate_refl|done|done|left; auto]. }
  apply wp_bind.
  eapply wp_mono; [apply wp_export_filename| | |done]; simpl.
  2:{ intros e w' (->&_&->&Hnone).
      split_and!; [apply separate_refl|done|done|left]. split; [done|].
      right. right. unfold export_filename. by rewrite Hnone. }
  intros fname w0 [-> Hname].
  apply wp_bind. unfold wp at 1. simpl.
  set (wr := World (heap w) _ (tracing w) (exported w)).
  apply wp_bind.
  eapply wp_mono;
    [apply wp_conj;
       [eapply (deepcopy_separate (heap w) fuel ∅ model wr);
          [apply separate_refl|done]
       |apply (heap_only_deepcopy fuel ∅ model wr)]| | |done]; simpl.
  2:{ intros e w1 [[Hsep _] (Hr&Ht&He)]. split_and!; [done..|]. right.
      split_and!; [done..|by eexists]. }
  intros [v memo] w1 [(Hsep&Hnew&_) (Hr&Ht&He)]. subst wr. simpl in *.
  apply wp_bind.
  eapply wp_mono;
    [apply wp_conj;
       [apply (replace_layers_separate (heap w) fuel v w1 Hsep Hnew)
       |apply wp_conj;
          [apply (heap_only_replace_layers fuel v w1)
          |apply (replace_layers_walk_free fuel v w1)]]| | |done]; simpl.
  2:{ intros e w2 [Hsep2 [(Hr2&Ht2&He2) _]].
      split_and!; [done|congruence|congruence|]. right.
      split_and!; [unfold with_hooks; congruence|done|done|by eexists]. }
  intros [] w2 [Hsep2 [(Hr2&Ht2&He2) Hfree]].
  apply wp_bind. unfold wp at 1. simpl. apply wp_ret. simpl.
  split_and!; [done|done|unfold with_hooks; congruence|congruence|].
  exists fname. split; [done|]. by rewrite He2, He.
Qed.



(** X6: when [export_to_qonnx] returns, the exporter was called exactly
    once, last, with the returned model, the input as given and the file
    name: the one passed in or, when none was passed, the model's class
    name, an underscore, the time stamp and [.onnx].  The registry is the
    one of the start with the two hooks entered; the traced graph is the
    one of the start. *)
Theorem export_to_qonnx_records_one_export :
  ∀ fuel now model input filename w v w',
    export_to_qonnx fuel now model input filename w = Ret v w' →
    ∃ fname,
      exported w' = exported w ++ [(v, input, fname)]
      ∧ match filename with
        | Some f => fname = f
        | None => ∃ c, class_of (heap w) model = Some c
                       ∧ fname = class_name c +:+ "_" +:+ now +:+ ".onnx"
        end
      ∧ registry w' = with_hooks (registry w)
      ∧ tracing w' = tracing w.
Proof.
  intros fuel now model input filename w v w' Hrun.
  pose proof (export_to_qonnx_outcome fuel now model input filename w) as H.
  unfold wp in H. rewrite Hrun in H. destruct H as (_&_&Hr&Ht&fname&Hname&He).
  exists fname. split_and!; [done| |done..].
  unfold export_filename in Hname. destruct filename as [f|]; [congruence|].
  destruct (class_of (heap w) model) as [c|]; [|done].
  exists c. split; [done|]. simpl in Hname. congruence.
Qed.

Lemma export_to_qonnx_records_one_export_witness :
  ∃ v w',
    export_to_qonnx 5 "01012021000000" (VRef 1) (VTensor (Tensor [1%Z] [0%Z]))
      None mnist_world = Ret v w'
    ∧ exported w' = [(v, VTensor (Tensor [1%Z] [0%Z]), "Q_MNIST_01012021000000.onnx")].
Proof.
  assert (∃ v w', export_to_qonnx 5 "01012021000000" (VRef 1)
                    (VTensor (Tensor [1%Z] [0%Z])) None mnist_world = Ret v w')
    as (v&w'&Hrun).
  { eexists _, _. vm_compute. reflexivity. }
  destruct (export_to_qonnx_records_one_export _ _ _ _ _ _ _ _ Hrun)
    as (fname&He&(c&Hc&->)&_).
  exists v, w'. split; [exact Hrun|]. rewrite He.
  assert (c = OtherModule "Q_MNIST") as -> by (vm_compute in Hc; congruence).
  reflexivity.
Defined.

(** X7: the model [export_to_qonnx] hands to the exporter and returns is
    a module that has been converted: no attribute the walk of
    [replace_layers] sees below it, through [Sequential]s, holds a layer
    of a supported or of an unsupported quantized class. *)
Theorem export_to_qonnx_exports_converted_model :
  ∀ fuel now model input filename w v w',
    export_to_qonnx fuel now model input filename w = Ret v w' →
    walk_free (heap w') v ∧ is_module_in (heap w') v.
Proof.
  intros fuel now model input filename w v w' Hrun.
  pose proof (export_to_qonnx_outcome fuel now model input filename w) as H.
  unfold wp in H. rewrite Hrun in H. destruct H as (_&Hfree&_).
  split; [done|].
  unfold export_to_qonnx in Hrun.
  case_bool_decide; [done|]. case_bool_decide; [done|].
  apply bind_Ret_inv in Hrun as (fname&w0&_&Hrun).
  apply bind_Ret_inv in Hrun as ([] & wr & _ & Hrun).
  apply bind_Ret_inv in Hrun as ([v1 memo] & w1 & _ & Hrun). simpl in Hrun.
  apply bind_Ret_inv in Hrun as ([] & w2 & Hwalk & Hrun).
  apply bind_Ret_inv in Hrun as ([] & w3 & Hexp & Hrun).
  assert (Hw3 : heap w3 = heap w2) by (by inversion Hexp).
  inversion Hrun; subst v1 w3; clear Hrun.
  pose proof (replace_layers_Ret_module _ _ _ _ Hwalk) as Hmod.
  pose proof (replace_layers_evolves fuel v w1) as Hev.
  unfold wp in Hev. rewrite Hwalk in Hev.
  rewrite Hw3. by eapply is_module_in_evolves.
Qed.

Lemma export_to_qonnx_exports_converted_model_witness :
  ∃ v w',
    export_to_qonnx 5 "01012021000000" (VRef 1) (VTensor (Tensor [1%Z] [0%Z]))
      None mnist_world = Ret v w'
    ∧ walk_free (heap w') v ∧ is_module_in (heap w') v.
Proof.
  assert (∃ v w', export_to_qonnx 5 "01012021000000" (VRef 1)
                    (VTensor (Tensor [1%Z] [0%Z])) None mnist_world = Ret v w')
    as (v&w'&Hrun).
  { eexists _, _. vm_compute. reflexivity. }
  exists v, w'. split; [exact Hrun|].
  exact (export_to_qonnx_exports_converted_model _ _ _ _ _ _ _ _ Hrun).
Defined.



(** * The constructors at their edges *)

Lemma ctor_spec_keeps c ctor :
  ctor_spec c ctor → (∀ layer, heap_only (ctor layer)) → ctor_keeps ctor.
Proof.
  intros Hspec Honly layer w. specialize (Hspec layer w). specialize (Honly layer w).
  unfold wp in Hspec, Honly. simpl.
  destruct (ctor layer w) as [v w'|e w'|]; simpl; [| |done].
  - destruct Hspec as [[Hsub Hnew] _]. split_and!; [done|done| |done].
    intros l o Hl Hl'. by destruct (Hnew l o Hl Hl').
  - destruct Hspec as [[Hsub Hnew] He]. split_and!; [done|done| |].
    + intros l o Hl Hl'. by destruct (Hnew l o Hl Hl').
    + intros e' w'' [= <- <-]. done.
Qed.

(** X9: each of the three constructors [ExportQuantAct], [ExportQuantLinear]
    and [ExportQuantConv2d], whether it returns or raises, leaves every
    object that existed as it was and touches nothing but the heap; what
    it creates is neither a quantized layer nor a [Sequential]; what it
    raises comes from the host operations, never one of the script's own
    [RuntimeError]s. *)
Theorem export_constructors_keep_heap :
  ctor_keeps ExportQuantAct_init ∧ ctor_keeps ExportQuantLinear_init
  ∧ ctor_keeps ExportQuantConv2d_init.
Proof.
  split_and!.
  - eapply ctor_spec_keeps;
      [apply ExportQuantAct_init_spec|apply heap_only_ExportQuantAct_init].
  - eapply ctor_spec_keeps;
      [apply ExportQuantLinear_init_spec|apply heap_only_ExportQuantLinear_init].
  - eapply ctor_spec_keeps;
      [apply ExportQuantConv2d_init_spec|apply heap_only_ExportQuantConv2d_init].
Qed.

(** X10: [ExportQuantLinear] decides on the bias by [hasattr] alone.  For
    a layer whose attribute [bias] exists while the bias to copy
    ([bias], or [bias_integer] when [fix_flag] is false) is [None], the
    constructor raises [TypeError] at the assignment of the bias data:
    the [Linear] and its parameters were created and the weight copied
    by then, no [ExportQuantLinear] comes to exist, and the objects that
    existed before are as they were. *)
Theorem ExportQuantLinear_bias_without_tensor :
  ∀ layer w wv wt i o ff fixed sv st,
    getattr_in (heap w) layer "weight" = Some wv →
    tensor_in (heap w) wv = Some wt →
    shape wt !! 1%nat = Some i → shape wt !! 0%nat = Some o →
    getattr_in (heap w) layer "fix_flag" = Some ff → truth_of ff = Some fixed →
    getattr_in (heap w) layer (if fixed then "weight" else "weight_integer") = Some sv →
    tensor_in (heap w) sv = Some st →
    is_Some (getattr_in (heap w) layer "bias") →
    getattr_in (heap w) layer (if fixed then "bias" else "bias_integer") = Some VNone →
    ∃ w', ExportQuantLinear_init layer w = Raise TypeError w'
          ∧ heap w ⊆ heap w'
          ∧ (∀ l o', heap w !! l = None → heap w' !! l = Some o' →
                     cls o' = Linear ∨ cls o' = NNParameter)
          ∧ ∃ lw ow, heap w !! lw = None ∧ heap w' !! lw = Some ow
                     ∧ cls ow = NNParameter
                     ∧ fields ow !! "data" = Some (VTensor st).
Proof.
  intros layer w wv wt i o ff fixed sv st Hw Hwt Hi Ho Hff Hfixed Hsv Hst Hhas Hbv.
  cut (wp (ExportQuantLinear_init layer)
          (λ _ _, False)
          (λ e w', e = TypeError ∧ heap w ⊆ heap w'
             ∧ (∀ l o', heap w !! l = None → heap w' !! l = Some o' →
                        cls o' = Linear ∨ cls o' = NNParameter)
             ∧ ∃ lw ow, heap w !! lw = None ∧ heap w' !! lw = Some ow
                        ∧ cls ow = NNParameter
                        ∧ fields ow !! "data" = Some (VTensor st))
          False w).
  { unfold wp. destruct (ExportQuantLinear_init layer w) as [|e w'|]; [done| |done].
    intros (->&?). by exists w'. }
  unfold ExportQuantLinear_init.
  apply wp_bind. eapply wp_getattr_Some; [done|].
  apply wp_bind. eapply wp_shape_index; [done..|].
  apply wp_bind. eapply wp_getattr_Some; [done|].
  apply wp_bind. eapply wp_shape_index; [done..|].
  apply wp_bind. unfold wp at 1. simpl.
  rewrite bool_decide_true by done.
  apply wp_bind. unfold torch_nn_Linear, new_parameter.
  apply wp_bind, wp_alloc. intros lw w1 Hlw Hw1.
  set (pw0 := Object NNParameter _) in Hw1.
  apply wp_bind, wp_alloc. intros lb w2 Hlb Hw2.
  set (pb0 := Object NNParameter _) in Hw2.
  assert (Hneb : lw ≠ lb).
  { intros ->. by rewrite Hw1, lookup_insert_eq in Hlb. }
  assert (Hlb0 : heap w !! lb = None).
  { rewrite Hw1, lookup_insert_ne in Hlb by done. done. }
  apply wp_alloc. intros lf w3 Hlf Hw3.
  set (fc0 := Object Linear _) in Hw3.
  assert (lw ≠ lf ∧ lb ≠ lf) as [Hnef Hnebf].
  { split; intros ->; rewrite Hw2 in Hlf.
    - by rewrite lookup_insert_ne, Hw1, lookup_insert_eq in Hlf.
    - by rewrite lookup_insert_eq in Hlf. }
  assert (Hlf0 : heap w !! lf = None).
  { rewrite Hw2, lookup_insert_ne, Hw1, lookup_insert_ne in Hlf by done. done. }
  assert (Hsub3 : heap w ⊆ heap w3).
  { rewrite Hw3, Hw2, Hw1.
    apply insert_new_subseteq; [|done]. apply insert_new_subseteq; [|done].
    by apply insert_new_subseteq. }
  assert (Hf3 : heap w3 !! lf = Some fc0) by (by rewrite Hw3, lookup_insert_eq).
  assert (Hw3w : heap w3 !! lw = Some pw0).
  { by rewrite Hw3, lookup_insert_ne, Hw2, lookup_insert_ne, Hw1, lookup_insert_eq. }
  apply wp_bind.
  apply wp_bind. eapply wp_getattr_Some; [by eapply getattr_in_weaken|].
  apply wp_bind. eapply wp_truthy_of; [done|].
  assert (Hsteps : ∀ wn bn,
            getattr_in (heap w) layer wn = Some sv →
            getattr_in (heap w) layer bn = Some VNone →
            wp (let* w0 := getattr layer wn in
                let* fw := getattr (VRef lf) "weight" in
                set_data fw w0 >>
                let* b := getattr layer bn in
                let* fb := getattr (VRef lf) "bias" in set_data fb b)
               (λ _ w', wp (alloc (Object ExportQuantLinear
                                     (list_to_map [("fc", VRef lf)])))
                  (λ _ _, False)
                  (λ e w', e = TypeError ∧ heap w ⊆ heap w'
                     ∧ (∀ l o', heap w !! l = None → heap w' !! l = Some o' →
                                cls o' = Linear ∨ cls o' = NNParameter)
                     ∧ ∃ lw ow, heap w !! lw = None ∧ heap w' !! lw = Some ow
                                ∧ cls ow = NNParameter
                                ∧ fields ow !! "data" = Some (VTensor st))
                  False w')
               (λ e w', e = TypeError ∧ heap w ⊆ heap w'
                  ∧ (∀ l o', heap w !! l = None → heap w' !! l = Some o' →
                             cls o' = Linear ∨ cls o' = NNParameter)
                  ∧ ∃ lw ow, heap w !! lw = None ∧ heap w' !! lw = Some ow
                             ∧ cls ow = NNParameter
                             ∧ fields ow !! "data" = Some (VTensor st))
               False w3).
  { intros wn bn Hwn Hbn.
    apply wp_bind. eapply wp_getattr_Some; [by eapply getattr_in_weaken|].
    apply wp_bind. eapply wp_getattr_Some.
    { unfold getattr_in. simpl. rewrite Hf3. done. }
    apply wp_bind.
    eapply wp_set_data_param; [done|by eapply tensor_in_weaken|].
    intros w4 Hw4.
    assert (Hsub4 : heap w ⊆ heap w4).
    { rewrite Hw4. by apply insert_new_subseteq. }
    apply wp_bind. eapply wp_getattr_Some; [by eapply getattr_in_weaken|].
    apply wp_bind. eapply wp_getattr_Some.
    { unfold getattr_in. simpl. rewrite Hw4, lookup_insert_ne, Hf3 by done. done. }
    apply wp_raise. split; [done|]. split; [done|]. split.
    - intros l o' Hl Hl'. rewrite Hw4 in Hl'.
      destruct (decide (l = lw)) as [->|?].
      { rewrite lookup_insert_eq in Hl'. simplify_eq. by right. }
      rewrite lookup_insert_ne, Hw3 in Hl' by done.
      destruct (decide (l = lf)) as [->|?].
      { rewrite lookup_insert_eq in Hl'. simplify_eq. by left. }
      rewrite lookup_insert_ne, Hw2 in Hl' by done.
      destruct (decide (l = lb)) as [->|?].
      { rewrite lookup_insert_eq in Hl'. simplify_eq. by right. }
      rewrite lookup_insert_ne, Hw1, lookup_insert_ne in Hl' by done. congruence.
    - exists lw, (set_field "data" (VTensor st) pw0).
      split; [done|]. split; [by rewrite Hw4, lookup_insert_eq|]. split; [done|].
      simpl. by rewrite lookup_insert_eq. }
  destruct fixed; by apply Hsteps.
Qed.

Lemma ExportQuantLinear_bias_without_tensor_witness :
  ∃ w', ExportQuantLinear_init (VRef 1) nobias_world = Raise TypeError w'
        ∧ nobias_heap ⊆ heap w'.
Proof.
  destruct (ExportQuantLinear_bias_without_tensor (VRef 1) nobias_world (VRef 2)
              (Tensor [2%Z; 3%Z] [6; 5; 4; 3; 2; 1]%Z) 3 2 (VBool true) true (VRef 2)
              (Tensor [2%Z; 3%Z] [6; 5; 4; 3; 2; 1]%Z))
    as (w'&Hrun&Hsub&_); [reflexivity..|by eexists|reflexivity|].
  by exists w'.
Defined.

(** X11: [ExportQuantLinear] reads [layer.weight.shape[1]] first: on a
    layer whose weight has fewer than two dimensions it raises
    [IndexError] before anything is created, and the state is the one of
    the start. *)
Theorem ExportQuantLinear_flat_weight :
  ∀ layer w wv wt,
    getattr_in (heap w) layer "weight" = Some wv →
    tensor_in (heap w) wv = Some wt →
    (length (shape wt) < 2)%nat →
    ExportQuantLinear_init layer w = Raise IndexError w.
Proof.
  intros layer w wv wt Hw Hwt Hlen.
  cut (wp (ExportQuantLinear_init layer) (λ _ _, False)
          (λ e w', e = IndexError ∧ w' = w) False w).
  { unfold wp. destruct (ExportQuantLinear_init layer w) as [|e w'|]; [done| |done].
    by intros [-> ->]. }
  unfold ExportQuantLinear_init.
  apply wp_bind. eapply wp_getattr_Some; [done|].
  apply wp_bind. unfold shape_index. apply wp_bind.
  eapply wp_tensor_of_in; [done|].
  rewrite lookup_ge_None_2 by lia. done.
Qed.

Lemma ExportQuantLinear_flat_weight_witness :
  ExportQuantLinear_init (VRef 1) flat_world = Raise IndexError flat_world.
Proof.
  apply (ExportQuantLinear_flat_weight (VRef 1) flat_world
           (VTensor (Tensor [3%Z] [1; 2; 3]%Z)) (Tensor [3%Z] [1; 2; 3]%Z));
    [reflexivity|reflexivity|simpl; lia].
Defined.

(** X12: the step of the walk at an attribute that holds a [QuantConv2d].
    When the layer has an attribute [conv], the attribute of the model
    comes to hold a new [ExportQuantConv2d] whose [conv] is the very
    object the layer held, shared and not copied; the layer itself and
    everything else stay as they were.  When the layer has no [conv],
    [AttributeError] is raised and nothing has changed. *)
Theorem replace_layer_conv_shares :
  ∀ recurse lm om name layer w,
    heap w !! lm = Some om → fields om !! name = Some layer →
    class_of (heap w) layer = Some QuantConv2d →
    match getattr_in (heap w) layer "conv" with
    | Some conv =>
        ∃ self,
          heap w !! self = None
          ∧ replace_layer recurse (VRef lm) name w
            = Ret tt (set_heap
                        (λ h, <[lm := set_field name (VRef self) om]>
                                (<[self := Object ExportQuantConv2d
                                             (list_to_map [("conv", conv)])]> h)) w)
    | None => replace_layer recurse (VRef lm) name w = Raise (AttributeError "conv") w
    end.
Proof.
  intros recurse lm om name layer w Hlm Hname Hcls.
  rewrite (replace_layer_dispatch recurse (VRef lm) name layer w)
    by (unfold getattr_in; simpl; by rewrite Hlm).
  rewrite Hcls. simpl.
  assert (Hfresh : heap w !! fresh (dom (heap w)) = None)
    by apply not_elem_of_dom, is_fresh.
  destruct (getattr_in (heap w) layer "conv") as [conv|] eqn:Hconv.
  - exists (fresh (dom (heap w))). split; [done|].
    unfold ExportQuantConv2d_init, getattr, alloc, setattr. unfold bind, get_heap. simpl.
    rewrite Hconv. simpl.
    rewrite lookup_insert_ne by congruence. rewrite Hlm. done.
  - unfold ExportQuantConv2d_init, getattr. unfold bind, get_heap. simpl.
    by rewrite Hconv.
Qed.

Lemma replace_layer_conv_shares_witness :
  ∃ self,
    heap mnist_world !! self = None
    ∧ replace_layer (replace_layers 1) (VRef 5) "conv1" mnist_world
      = Ret tt (set_heap
                  (λ h, <[5%nat := set_field "conv1" (VRef self)
                                (Object Sequential (list_to_map [("conv1", VRef 6)]))]>
                          (<[self := Object ExportQuantConv2d
                                       (list_to_map [("conv", VRef 7)])]> h))
                  mnist_world).
Proof.
  apply (replace_layer_conv_shares (replace_layers 1) 5
           (Object Sequential (list_to_map [("conv1", VRef 6)])) "conv1" (VRef 6)
           mnist_world); reflexivity.
Defined.

(** * Registration, once more *)

(** X13: registering the custom operators a second time changes nothing:
    [register_custom_ops] run twice leaves the state it leaves when run
    once. *)
Theorem register_custom_ops_idempotent :
  ∀ w, (register_custom_ops >> register_custom_ops) w = register_custom_ops w.
Proof.
  intros w. unfold register_custom_ops, register_custom_op_symbolic, bind. simpl.
  f_equal. f_equal. apply map_eq. intros k.
  destruct (decide (k = (DOMAIN_STRING +:+ "::BipolarQuant", 1%Z))) as [->|Hb].
  { by rewrite !lookup_insert_eq. }
  rewrite !(lookup_insert_ne _ (DOMAIN_STRING +:+ "::BipolarQuant", 1%Z)) by done.
  destruct (decide (k = (DOMAIN_STRING +:+ "::Quant", 1%Z))) as [->|Hq].
  { by rewrite !lookup_insert_eq. }
  rewrite !(lookup_insert_ne _ (DOMAIN_STRING +:+ "::Quant", 1%Z)) by done.
  by rewrite !lookup_insert_ne.
Qed.

(** * The symbolic functions *)

Lemma py_int_cases v w :
  (∃ z, py_int v w = Ret z w)
  ∨ py_int v w = Raise TypeError w ∨ py_int v w = Raise ValueError w.
Proof.
  destruct v as [| | | |[sh [|z [|? ?]]]| |]; simpl; eauto.
Qed.

(** X14: each of the three symbolic functions leaves the nodes of the
    graph it is given where they are and appends exactly one node: the
    operator [Quant], [BipolarQuant] or [Trunc] of the domain
    [hawq_onnx], with [x] as its first input; the output of that node is
    what it returns.  It can fail only with [TypeError] or [ValueError]
    (a rounding mode that is no string, a [signed] or [narrow_range]
    that [int] refuses), and then nothing has changed. *)
Theorem symbolic_functions_append_one_node :
  ∀ g x scale zero_point bit_width signed narrow_range rounding_mode
    input_bit_width output_bit_width,
    appends_one "Quant" g x
      (QuantFunc_symbolic g x scale zero_point bit_width signed narrow_range
         rounding_mode)
    ∧ appends_one "BipolarQuant" g x (BinaryQuantFunc_symbolic g x scale)
    ∧ appends_one "Trunc" g x
        (TruncFunc_symbolic g x scale zero_point input_bit_width output_bit_width
           rounding_mode).
Proof.
  intros g x scale zero_point bit_width signed narrow_range rounding_mode
    input_bit_width output_bit_width.
  split_and!; intros w.
  - unfold QuantFunc_symbolic, bind at 1.
    destruct rounding_mode as [| | |rm| | |]; simpl; try (by auto).
    unfold bind at 1.
    destruct (py_int_cases signed w) as [[s ->]|[->| ->]]; [|by auto..].
    unfold bind at 1.
    destruct (py_int_cases narrow_range w) as [[n ->]|[->| ->]]; [|by auto..].
    simpl. split; [done|]. split; [done|].
    eexists. split; [apply (setType_last g (Node _ _ _ None))|]. done.
  - simpl. split; [done|]. split; [done|]. eexists. split; [done|]. done.
  - unfold TruncFunc_symbolic, bind.
    destruct rounding_mode as [| | |rm| | |]; simpl; try (by auto).
    split; [done|]. split; [done|]. eexists. split; [done|]. done.
Qed.
